(** * ingress-gce: the periodic task queue and the composite-type metadata

    A shallow embedding of
    - [pkg/composite/meta/meta.go]: the table of main services, the
      variable-name helper and the breadth-first population of
      [AllApiServices];
    - [pkg/utils/taskqueue.go]: [PeriodicTaskQueue] with [Run], [Enqueue],
      [Shutdown] and its constructors.

    Go strings are byte sequences: they are embedded as [string] (a list of
    [ascii], one per byte).  Panics are an explicit result. *)

From Stdlib Require Import ZArith Lia Ascii String List Sorting.Sorted Permutation.
From stdpp Require Import base option list gmap strings sorting.

Local Open Scope string_scope.
Local Open Scope list_scope.

(** ** Results of code that may panic *)

Inductive outcome (A : Type) : Type :=
| Returned (a : A)
| Panicked (msg : string).
Arguments Returned {A} a.
Arguments Panicked {A} msg.

(** * Package meta *)

Module meta.

(** [var MainServices = map[string]string{ "BackendService": "BackendServices" }] *)
Definition MainServices : gmap string string :=
  {[ "BackendService" := "BackendServices" ]}.

(** [type ApiService struct]; [Fields []ApiService] nests the type in itself. *)
#[warnings="-register-all"] Inductive ApiService : Type := mkApiService {
  Name : string;
  JsonName : string;
  JsonStringOverride : bool;
  GoType : string;
  VarName : string;
  Fields : list ApiService
}.

(** The functions read the package variable [MainServices]; it is a
    parameter [ms] here, so that the statements cover every value the
    variable can hold.  The message of the panic leaves the printed map
    out. *)
Definition IsMainService_in (ms : gmap string string) (apiService : ApiService) : bool :=
  match ms !! Name apiService with
  | Some _ => true
  | None => false
  end.

Definition GetCloudProviderName_in (ms : gmap string string) (apiService : ApiService)
  : outcome string :=
  match ms !! Name apiService with
  | Some result => Returned result
  | None => Panicked (Name apiService ++ " not present in map")
  end.

Definition IsMainService := IsMainService_in MainServices.
Definition GetCloudProviderName := GetCloudProviderName_in MainServices.

(** [var NoUpdate = sets.NewString("ForwardingRule", "TargetHttpProxy",
    "TargetHttpsProxy")] *)
Definition NoUpdate : gset string :=
  {[ "ForwardingRule"; "TargetHttpProxy"; "TargetHttpsProxy" ]}.

(** [HasUpdate]: [!NoUpdate.Has(apiService.Name)]; the set is a parameter,
    as the map of [IsMainService_in] is. *)
Definition HasUpdate_in (noUpdate : gset string) (apiService : ApiService) : bool :=
  negb (bool_decide (Name apiService ∈ noUpdate)).

Definition HasUpdate := HasUpdate_in NoUpdate.

(** *** Strings, bytes and runes

    A rune is an [int32], a byte a [uint8]; both are embedded in [Z].
    The conversions [[]rune(str)] and [string(runes)] are the UTF-8
    decoding and encoding of the Go language: a byte that starts no valid
    sequence decodes to [RuneError] and advances one byte, and a value
    that is no Unicode scalar value encodes as [RuneError]. *)

Local Open Scope Z_scope.

Definition rune := Z.

Definition RuneError : rune := 65533.   (* U+FFFD *)
Definition MaxRune : rune := 1114111.   (* U+10FFFF *)
Definition MaxASCII : rune := 127.

Definition byte_of_ascii (a : ascii) : Z := Z.of_N (N_of_ascii a).
Definition ascii_of_byte (b : Z) : ascii := ascii_of_N (Z.to_N b).

Definition bytes_of_string (s : string) : list Z :=
  map byte_of_ascii (list_ascii_of_string s).
Definition string_of_bytes (bs : list Z) : string :=
  string_of_list_ascii (map ascii_of_byte bs).

(** A rune that UTF-8 can encode: at most [MaxRune], not a surrogate. *)
Definition valid_rune (r : rune) : bool :=
  (0 <=? r)%Z && (r <=? MaxRune)%Z && negb ((55296 <=? r)%Z && (r <=? 57343)%Z).

(** [encoderune]: the bytes of one rune. *)
Definition encode_rune (r : rune) : list Z :=
  let r := if valid_rune r then r else RuneError in
  if (r <=? 127)%Z then [r]
  else if (r <=? 2047)%Z then [192 + r / 64; 128 + r mod 64]%Z
  else if (r <=? 65535)%Z then
    [224 + r / 4096; 128 + (r / 64) mod 64; 128 + r mod 64]%Z
  else
    [240 + r / 262144; 128 + (r / 4096) mod 64; 128 + (r / 64) mod 64;
     128 + r mod 64]%Z.

(** What the first byte of a sequence announces. *)
Inductive lead_kind := LeadASCII | LeadTwo | LeadThree | LeadFour | LeadInvalid.

Definition lead (b0 : Z) : lead_kind :=
  if (b0 <? 128)%Z then LeadASCII
  else if (b0 <? 194)%Z then LeadInvalid
  else if (b0 <? 224)%Z then LeadTwo
  else if (b0 <? 240)%Z then LeadThree
  else if (b0 <? 245)%Z then LeadFour
  else LeadInvalid.

(** The range accepted for the second byte depends on the first one
    (no overlong form, no surrogate, nothing above [MaxRune]). *)
Definition accept_lo (b0 : Z) : Z :=
  if (b0 =? 224)%Z then 160%Z else if (b0 =? 240)%Z then 144%Z else 128%Z.
Definition accept_hi (b0 : Z) : Z :=
  if (b0 =? 237)%Z then 159%Z else if (b0 =? 244)%Z then 143%Z else 191%Z.

Definition between (lo hi b : Z) : bool := (lo <=? b)%Z && (b <=? hi)%Z.
Definition continuation (b : Z) : bool := between 128 191 b.

(** [[]rune(str)] on the bytes of [str]. *)
Fixpoint decode_runes (s : list Z) : list rune :=
  match s with
  | [] => []
  | b0 :: t0 =>
    let invalid := RuneError :: decode_runes t0 in
    match lead b0 with
    | LeadASCII => b0 :: decode_runes t0
    | LeadInvalid => invalid
    | LeadTwo =>
      match t0 with
      | b1 :: t1 =>
        if between (accept_lo b0) (accept_hi b0) b1
        then ((b0 - 192) * 64 + (b1 - 128))%Z :: decode_runes t1
        else invalid
      | _ => invalid
      end
    | LeadThree =>
      match t0 with
      | b1 :: b2 :: t2 =>
        if between (accept_lo b0) (accept_hi b0) b1 && continuation b2
        then ((b0 - 224) * 4096 + (b1 - 128) * 64 + (b2 - 128))%Z
               :: decode_runes t2
        else invalid
      | _ => invalid
      end
    | LeadFour =>
      match t0 with
      | b1 :: b2 :: b3 :: t3 =>
        if between (accept_lo b0) (accept_hi b0) b1 && continuation b2
           && continuation b3
        then ((b0 - 240) * 262144 + (b1 - 128) * 4096 + (b2 - 128) * 64
              + (b3 - 128))%Z :: decode_runes t3
        else invalid
      | _ => invalid
      end
    end
  end.

(** The rune that [string(...)] really writes for [r]. *)
Definition written_rune (r : rune) : rune :=
  if valid_rune r then r else RuneError.

Definition runes_of_string (str : string) : list rune :=
  decode_runes (bytes_of_string str).
Definition string_of_runes (rs : list rune) : string :=
  string_of_bytes (flat_map encode_rune rs).

(** A string that is well-formed UTF-8: the conversion to runes and back
    gives the string again. *)
Definition valid_utf8 (str : string) : Prop :=
  string_of_runes (runes_of_string str) = str.

Section CaseTable.

(** [unicode.To(unicode.LowerCase, r)] looks [r] up in the table
    [unicode.CaseRanges] of the Go library; the table is a parameter. *)
Variable lowerCaseRanges : rune -> rune.

(** [unicode.ToLower]. *)
Definition ToLower (r : rune) : rune :=
  if (r <=? MaxASCII)%Z then
    if (65 <=? r)%Z && (r <=? 90)%Z then (r + (97 - 65))%Z else r
  else lowerCaseRanges r.

(** [createVarName] *)
Definition createVarName (str : string) : string :=
  let copy := runes_of_string str in
  match copy !! 0%nat with
  | None => string_of_runes copy
  | Some c0 => string_of_runes (<[0%nat := ToLower c0]> copy)
  end.

End CaseTable.

(** A case table without entries: every rune above ASCII is its own lower
    case.  It instantiates the parameter in examples. *)
Definition ascii_only_case_table (r : rune) : rune := r.

Local Close Scope Z_scope.

(** *** The API description

    What [json.Unmarshal] stores in an [interface{}]: [nil], a [bool], a
    [float64] (kept as its literal here, the code never looks at one), a
    [string], a [[]interface{}] or a [map[string]interface{}].  A map is
    the list of its entries, each key once; indexing finds the entry of a
    key, and [range] visits the entries in an order of its own (see
    [map_order] below). *)
#[warnings="-register-all"] Inductive json : Type :=
| JNull
| JBool (b : bool)
| JNumber (literal : string)
| JString (s : string)
| JArray (items : list json)
| JObject (entries : list (string * json)).

(** [m[key]] with its [ok]. *)
Fixpoint index (key : string) (m : list (string * json)) : option json :=
  match m with
  | [] => None
  | (k, v) :: m' => if String.eqb k key then Some v else index key m'
  end.

(** [m[key] == str]: true for a string of that value only. *)
Definition index_is (key : string) (m : list (string * json)) (str : string) : bool :=
  match index key m with
  | Some (JString s) => String.eqb s str
  | _ => false
  end.

(** What [getGoType] returns: [propType], [typesQueue], [override], [err]. *)
Definition goType : Type := string * list string * bool * option string.

(** The last statement of [getGoType] before the [return]. *)
Definition string_override (field : list (string * json)) (r : goType) : goType :=
  match r with
  | (propType, typesQueue, override, err) =>
    if index_is "type" field "string" && negb (String.eqb propType "string")
    then (propType, typesQueue, true, err)
    else r
  end.

(** The body of [getGoType] once [val] is known to be the map [field].
    The recursive calls are on [field["items"]] and on
    [field["additionalProperties"]]: [descend key] is the call on
    [field[key]]. *)
Definition getGoType_of_map (descend : string -> outcome goType)
    (field : list (string * json)) (typesQueue : list string) : outcome goType :=
  match index "$ref" field with
  | Some ref =>
    match ref with
    | JString refName =>
      Returned (string_override field
                  (("*" ++ refName)%string, typesQueue ++ [refName], false, None))
    | _ => Panicked "interface conversion: interface {} is not string"
    end
  | None =>
    if index_is "type" field "array" then
      match descend "items" with
      | Returned (tmpType, typesQueue, override, err) =>
        Returned (string_override field
                    (("[]" ++ tmpType)%string, typesQueue, override, err))
      | Panicked msg => Panicked msg
      end
    else if index_is "type" field "object" then
      match index "additionalProperties" field with
      | Some _ =>
        match descend "additionalProperties" with
        | Returned (tmpType, typesQueue, override, err) =>
          Returned (string_override field
                      (("map[string]" ++ tmpType)%string, typesQueue, override, err))
        | Panicked msg => Panicked msg
        end
      | None =>
        Returned (string_override field
                    ("map[string]string", typesQueue, false, None))
      end
    else
      match index "format" field with
      | Some format =>
        match format with
        | JString format =>
          let propType :=
            if String.eqb format "byte" then "string"
            else if String.eqb format "float" then "float64"
            else if String.eqb format "int32" then "int64"
            else format in
          Returned (string_override field (propType, typesQueue, false, None))
        | _ => Panicked "interface conversion: interface {} is not string"
        end
      | None =>
        if negb (index_is "type" field "") then
          match index "type" field with
          | Some (JString type) =>
            let propType :=
              if String.eqb type "boolean" then "bool" else type in
            Returned (string_override field (propType, typesQueue, false, None))
          | _ => Panicked "interface conversion: interface {} is not string"
          end
        else
          Returned (string_override field
                      ("", typesQueue, false,
                       Some "unable to get property type for prop"))
      end
  end.

(** [getGoType].  A [val] that is no map panics ([panic(nil)]), and so does
    the call on an entry that is missing, whose argument is [nil]. *)
Fixpoint getGoType (val : json) (typesQueue : list string) {struct val}
  : outcome goType :=
  match val with
  | JObject field =>
    getGoType_of_map
      ((fix descend (m : list (string * json)) (key : string) : outcome goType :=
          match m with
          | [] => Panicked "nil"
          | (k, v) :: m' =>
            if String.eqb k key then getGoType v typesQueue else descend m' key
          end) field)
      field typesQueue
  | _ => Panicked "nil"
  end.

(** The call of [getGoType] on [m[key]]. *)
Definition descend_on (typesQueue : list string) (m : list (string * json))
    (key : string) : outcome goType :=
  match index key m with
  | Some v => getGoType v typesQueue
  | None => Panicked "nil"
  end.

(** The properties that the calls of [getGoType] get to from [val]: [val]
    itself when it is a map, and, from a map with no [$ref], the [items]
    of an array and the [additionalProperties] of an object. *)
Inductive descends_to : json -> list (string * json) -> Prop :=
| descends_here field : descends_to (JObject field) field
| descends_items field items leaf :
    index "$ref" field = None -> index_is "type" field "array" = true ->
    index "items" field = Some items -> descends_to items leaf ->
    descends_to (JObject field) leaf
| descends_additional field addlProps leaf :
    index "$ref" field = None -> index_is "type" field "array" = false ->
    index_is "type" field "object" = true ->
    index "additionalProperties" field = Some addlProps ->
    descends_to addlProps leaf ->
    descends_to (JObject field) leaf.

(** The result of [getGoType] for the queue [typesQueue], from its result
    for the empty queue. *)
Definition rebase (typesQueue : list string) (r : outcome goType) : outcome goType :=
  match r with
  | Returned (propType, found, override, err) =>
    Returned (propType, typesQueue ++ found, override, err)
  | Panicked msg => Panicked msg
  end.

(** The types that a property refers to: what [getGoType] appends. *)
Definition property_refs (entry : string * json) : list string :=
  match getGoType (snd entry) [] with
  | Returned (_, found, _, _) => found
  | Panicked _ => []
  end.

(** The order in which a [range] visits a map is not specified: [order_keys]
    is the order of the keys of [MainServices], [order_entries typeName] the
    order of the properties of the schema [typeName]. *)
Record map_order := mkMapOrder {
  order_keys : list string -> list string;
  order_entries : string -> list (string * json) -> list (string * json)
}.

(** A [range] visits every entry of the map once. *)
Definition visits_each_once (order : map_order) : Prop :=
  (forall keys, order_keys order keys ≡ₚ keys)
  /\ (forall typeName entries, order_entries order typeName entries ≡ₚ entries).

(** The order in which the entries are listed. *)
Definition as_listed : map_order :=
  {| order_keys := fun keys => keys; order_entries := fun _ entries => entries |}.

(** The reverse order. *)
Definition backwards : map_order :=
  {| order_keys := @rev string; order_entries := fun _ entries => rev entries |}.

(** [sort.Slice] with the function [less] of both calls:
    [x[i].Name < x[j].Name], the order of Go strings, byte by byte. *)
Definition less_Name (a b : ApiService) : bool := String.ltb (Name a) (Name b).

(** Non-decreasing order of [Name]: no element is less than one before it;
    and increasing order. *)
Definition name_le (a b : ApiService) : Prop := less_Name b a = false.
Definition name_lt (a b : ApiService) : Prop := less_Name a b = true.

Definition sorted_by_Name (x : list ApiService) : Prop := StronglySorted name_le x.
Definition increasing_by_Name (x : list ApiService) : Prop := StronglySorted name_lt x.

(** The contract of [sort.Slice] for the longer slices. *)
Definition sorts_by_Name (sort : list ApiService -> list ApiService) : Prop :=
  forall x, sort x ≡ₚ x /\ sorted_by_Name (sort x).

(** Straight insertion, as [insertionSort] of package [sort] does it: each
    element moves to the left while it is less than its left neighbour.
    [before] is what lies to the left, nearest first. *)
Fixpoint move_left (less : ApiService -> ApiService -> bool) (x : ApiService)
    (before : list ApiService) : list ApiService :=
  match before with
  | [] => [x]
  | y :: before' =>
    if less x y then y :: move_left less x before' else x :: y :: before'
  end.

Definition insertionSort (less : ApiService -> ApiService -> bool)
    (data : list ApiService) : list ApiService :=
  rev (fold_left (fun before x => move_left less x before) data []).

(** [strings.Title] on ASCII strings, for the examples: the letter that
    begins a word becomes upper case; letters, digits and the underscore
    make the words. *)
Definition ascii_separator (n : N) : bool :=
  (n <? 128)%N
  && negb (((48 <=? n) && (n <=? 57)) || ((65 <=? n) && (n <=? 90))
           || ((97 <=? n) && (n <=? 122)) || (n =? 95))%N.

Fixpoint title_from (prev_separator : bool) (s : string) : string :=
  match s with
  | EmptyString => EmptyString
  | String c rest =>
    let n := N_of_ascii c in
    let c' :=
      if prev_separator && ((97 <=? n) && (n <=? 122))%N
      then ascii_of_N (n - 32) else c in
    String c' (title_from (ascii_separator n) rest)
  end.

Definition ascii_Title (s : string) : string := title_from true s.

Section Populate.

(** From the Go library: the case table (see [ToLower]), [strings.Title],
    and what [sort.Slice] does with a slice of more than six elements,
    which depends on the version of the library; up to six elements every
    version sorts by straight insertion. *)
Variable lowerCaseRanges : rune -> rune.
Variable strings_Title : string -> string.
Variable sort_long : list ApiService -> list ApiService.

Variable order : map_order.

Definition sort_Slice_by_Name (x : list ApiService) : list ApiService :=
  if (length x <=? 6)%nat then insertionSort less_Name x else sort_long x.

(** [result["schemas"].(map[string]interface{})[typeName]
       .(map[string]interface{})["properties"].(map[string]interface{})];
    only the last assertion has an [ok]. *)
Definition schema_properties (result : list (string * json)) (typeName : string)
  : outcome (list (string * json)) :=
  match index "schemas" result with
  | Some (JObject schemas) =>
    match index typeName schemas with
    | Some (JObject schema) =>
      match index "properties" schema with
      | Some (JObject fields) => Returned fields
      | _ => Panicked ("Unable to parse type: " ++ typeName)
      end
    | _ => Panicked "interface conversion: interface {} is not map[string]interface {}"
    end
  | _ => Panicked "interface conversion: interface {} is not map[string]interface {}"
  end.

(** [for prop, val := range fields { ... }] over the entries in the order
    of the visit. *)
Fixpoint range_fields (entries : list (string * json)) (apiFields : list ApiService)
    (typesQueue : list string) : outcome (list ApiService * list string) :=
  match entries with
  | [] => Returned (apiFields, typesQueue)
  | (prop, val) :: entries' =>
    match getGoType val typesQueue with
    | Panicked msg => Panicked msg
    | Returned (_, _, _, Some err) => Panicked err
    | Returned (propType, typesQueue, override, None) =>
      let subType :=
        {| Name := strings_Title prop; JsonName := prop;
           JsonStringOverride := override; GoType := propType;
           VarName := ""; Fields := [] |} in
      range_fields entries' (apiFields ++ [subType]) typesQueue
    end
  end.

(** The field that the loop body makes of a property. *)
Definition property_field (entry : string * json) : ApiService :=
  match getGoType (snd entry) [] with
  | Returned (propType, _, override, _) =>
    {| Name := strings_Title (fst entry); JsonName := fst entry;
       JsonStringOverride := override; GoType := propType;
       VarName := ""; Fields := [] |}
  | Panicked _ =>
    {| Name := strings_Title (fst entry); JsonName := fst entry;
       JsonStringOverride := false; GoType := "";
       VarName := ""; Fields := [] |}
  end.

(** The properties of a schema as they are listed; none when the lookup
    panics. *)
Definition listed_properties (result : list (string * json)) (typeName : string)
  : list (string * json) :=
  match schema_properties result typeName with
  | Returned fields => fields
  | Panicked _ => []
  end.

(** The service of a type, from its properties as they are listed. *)
Definition service_of (result : list (string * json)) (typeName : string)
  : ApiService :=
  {| Name := typeName; JsonName := ""; JsonStringOverride := false;
     GoType := ""; VarName := createVarName lowerCaseRanges typeName;
     Fields := sort_Slice_by_Name
                 (map property_field (listed_properties result typeName)) |}.

(** What the loop makes of a type: the name and the variable name of the
    type, and one field for each property of its schema. *)
Definition service_shape (result : list (string * json)) (apiService : ApiService)
  : Prop :=
  JsonName apiService = "" /\ JsonStringOverride apiService = false
  /\ GoType apiService = ""
  /\ VarName apiService = createVarName lowerCaseRanges (Name apiService)
  /\ Fields apiService
     ≡ₚ map property_field (listed_properties result (Name apiService)).

(** The types that a type refers to. *)
Definition type_refs (result : list (string * json)) (typeName : string)
  : list string :=
  flat_map property_refs (listed_properties result typeName).

(** The types that the search gets to from [roots]. *)
Inductive reach (result : list (string * json)) (roots : list string)
  : string -> Prop :=
| reach_root typeName : In typeName roots -> reach result roots typeName
| reach_ref from typeName :
    reach result roots from -> In typeName (type_refs result from) ->
    reach result roots typeName.

(** A property of which [getGoType] makes a field: it returns, without an
    error. *)
Definition entry_ok (entry : string * json) : Prop :=
  exists propType found override,
    getGoType (snd entry) [] = Returned (propType, found, override, None).

(** A type whose visit returns: its properties are found and each of them
    makes a field. *)
Definition visit_ok (result : list (string * json)) (typeName : string) : Prop :=
  exists fields,
    schema_properties result typeName = Returned fields
    /\ Forall entry_ok fields.

(** The names of the schemas, each once. *)
Definition schema_names (result : list (string * json)) : list string :=
  match index "schemas" result with
  | Some (JObject schemas) => remove_dups (map fst schemas)
  | _ => []
  end.

(** What the visits of the types of [names] that are not completed can
    still cost: one turn of the loop each, and one for every type that
    they put on the queue. *)
Fixpoint pending_turns (result : list (string * json)) (completed : gset string)
    (names : list string) : nat :=
  match names with
  | [] => 0
  | typeName :: names =>
    (if decide (typeName ∈ completed) then 0
     else S (length (type_refs result typeName)))
    + pending_turns result completed names
  end.

(** Fuel with which the loop does not stop short. *)
Definition enough_fuel (ms : gmap string string) (result : list (string * json))
  : nat :=
  S (length (map_to_list ms) + pending_turns result ∅ (schema_names result)).

(** No two properties of a schema get the same [Name]. *)
Definition distinct_titles (result : list (string * json)) : Prop :=
  forall typeName,
    NoDup (map strings_Title (map fst (listed_properties result typeName))).

(** The body of [for len(typesQueue) > 0] for a type that is not completed
    yet: the service of the type and the queue after it. *)
Definition visit (result : list (string * json)) (typeName : string)
    (typesQueue : list string) : outcome (ApiService * list string) :=
  match schema_properties result typeName with
  | Panicked msg => Panicked msg
  | Returned fields =>
    match range_fields (order_entries order typeName fields) [] typesQueue with
    | Panicked msg => Panicked msg
    | Returned (apiFields, typesQueue) =>
      Returned ({| Name := typeName; JsonName := ""; JsonStringOverride := false;
                   GoType := ""; VarName := createVarName lowerCaseRanges typeName;
                   Fields := sort_Slice_by_Name apiFields |},
                typesQueue)
    end
  end.

(** [for len(typesQueue) > 0 { ... }]; [None] when the fuel is used up
    before the queue is empty. *)
Fixpoint resolve (fuel : nat) (result : list (string * json))
    (typesQueue : list string) (completed : gset string)
    (AllApiServices : list ApiService) : option (outcome (list ApiService)) :=
  match fuel with
  | O => None
  | S fuel =>
    match typesQueue with
    | [] => Some (Returned AllApiServices)
    | typeName :: typesQueue =>
      if decide (typeName ∈ completed) then
        resolve fuel result typesQueue completed AllApiServices
      else
        match visit result typeName typesQueue with
        | Panicked msg => Some (Panicked msg)
        | Returned (apiService, typesQueue) =>
          resolve fuel result typesQueue ({[ typeName ]} ∪ completed)
            (AllApiServices ++ [apiService])
        end
    end
  end.

(** [populateApiServices], from the parsed document on: [ms] is
    [MainServices], [result] what [json.Unmarshal] stored, and
    [AllApiServices] the package variable when the function is called. *)
Definition populateApiServices (fuel : nat) (ms : gmap string string)
    (result : list (string * json)) (AllApiServices : list ApiService)
  : option (outcome (list ApiService)) :=
  let keys := order_keys order (map fst (map_to_list ms)) in
  let typesQueue := [] ++ keys in
  match resolve fuel result typesQueue ∅ AllApiServices with
  | Some (Returned AllApiServices) => Some (Returned (sort_Slice_by_Name AllApiServices))
  | other => other
  end.

(** [init]: [AllApiServices = []ApiService{}], then [populateApiServices()]. *)
Definition init (fuel : nat) (ms : gmap string string)
    (result : list (string * json)) : option (outcome (list ApiService)) :=
  populateApiServices fuel ms result [].

End Populate.

End meta.

(** * Package utils: the task queue *)

Module utils.

(** A non-nil [error], by its message; [nil] is [None]. *)
Definition error := string.

(** What [Get] gives back: an item, the shutdown flag, or nothing yet (the
    caller stays blocked in the call). *)
Inductive got :=
| GotItem (key : string)
| GotShutdown
| GotNothing.

(** The part of [k8s.io/client-go/util/workqueue] that the task queue uses:
    [workqueue.RateLimitingInterface] over a queue state [Q], the
    constructors and the default limiter.  The items are the string keys
    that [Enqueue] and [Run] put there.  [Elapse] is the queue's own timer:
    a delayed addition becoming due. *)
Class RateLimitingInterface (RL Q : Type) := {
  DefaultControllerRateLimiter : RL;
  NewRateLimitingQueue : RL -> Q;
  NewNamedRateLimitingQueue : RL -> string -> Q;
  Add : string -> Q -> Q;
  Get : Q -> got * Q;
  Done : string -> Q -> Q;
  ShutDown : Q -> Q;
  AddRateLimited : string -> Q -> Q;
  Forget : string -> Q -> Q;
  Elapse : Q -> Q
}.

(** [chan struct{}] on which nothing is ever sent: it is open or closed. *)
Inductive chan := ChanOpen | ChanClosed.

(** The calls that an execution makes, in the order in which they happen. *)
Inductive event :=
| EvAdd (key : string)
| EvGet (r : got)
| EvSyncBegin (key : string)
| EvSyncEnd (key : string) (err : option error)
| EvAddRateLimited (key : string)
| EvForget (key : string)
| EvDone (key : string)
| EvCloseWorkerDone
| EvShutdownCalled
| EvShutDown
| EvShutdownReturned.

(** Where the goroutine that executes [Run] stands. *)
Inductive worker_pc :=
| AtGet                                        (* key, quit := t.queue.Get() *)
| AtSync (key : string)                        (* about to call t.sync(key) *)
| InSync (key : string)                        (* inside t.sync(key) *)
| AtRequeue (key : string) (err : option error)  (* if err != nil ... else ... *)
| AtDone (key : string)                        (* t.queue.Done(key) *)
| AtClose                                      (* close(t.workerDone); return *)
| Exited                                       (* Run has returned *)
| Crashed.                                     (* close of a closed channel *)

(** Where the caller of [Shutdown] stands. *)
Inductive shutdown_pc :=
| NotCalled
| AtShutDown                                   (* t.queue.ShutDown() *)
| AtWait                                       (* <-t.workerDone *)
| ShutdownReturned.

Section TaskQueue.

(** [object] is what [Enqueue] is handed ([interface{}]); [W] is the state
    of the host that the [sync] callback reads and writes. *)
Context {object W RL Q : Type} `{!RateLimitingInterface RL Q}.

(** [type PeriodicTaskQueue struct] *)
Record PeriodicTaskQueue := mkPeriodicTaskQueue {
  resource : string;
  keyFunc : object -> string * option error;
  queue : Q;
  sync : string -> W -> option error * W;
  workerDone : chan
}.

(** The package variable [KeyFunc]; [cache.DeletionHandlingMetaNamespaceKeyFunc]
    of client-go, its initial value, is a parameter. *)
Variable DeletionHandlingMetaNamespaceKeyFunc : object -> string * option error.

Record package := mkPackage {
  KeyFunc : object -> string * option error
}.

Definition package_init : package :=
  {| KeyFunc := DeletionHandlingMetaNamespaceKeyFunc |}.

(** [NewPeriodicTaskQueueWithLimiter] *)
Definition NewPeriodicTaskQueueWithLimiter (pkg : package) (name resource : string)
    (syncFn : string -> W -> option error * W) (rl : RL) : PeriodicTaskQueue :=
  let queue :=
    if String.eqb name "" then NewRateLimitingQueue rl
    else NewNamedRateLimitingQueue rl name in
  {| resource := resource;
     keyFunc := KeyFunc pkg;
     queue := queue;
     sync := syncFn;
     workerDone := ChanOpen |}.

(** [NewPeriodicTaskQueue] *)
Definition NewPeriodicTaskQueue (pkg : package) (name resource : string)
    (syncFn : string -> W -> option error * W) : PeriodicTaskQueue :=
  let rl := DefaultControllerRateLimiter in
  NewPeriodicTaskQueueWithLimiter pkg name resource syncFn rl.

(** The task queue together with the package variable, the host, the two
    goroutines that [Run] and [Shutdown] execute on, and what has been
    called and logged so far.  The [klog.V(n).Infof] lines are not kept;
    [klog.Errorf] lines are. *)
Record system := mkSystem {
  pkg : package;
  tq : PeriodicTaskQueue;
  world : W;
  worker : worker_pc;
  stopper : shutdown_pc;
  events : list event;
  klog : list string
}.

Definition set_queue (q : Q) (t : PeriodicTaskQueue) : PeriodicTaskQueue :=
  {| resource := resource t; keyFunc := keyFunc t; queue := q;
     sync := sync t; workerDone := workerDone t |}.

Definition close_workerDone (t : PeriodicTaskQueue) : PeriodicTaskQueue :=
  {| resource := resource t; keyFunc := keyFunc t; queue := queue t;
     sync := sync t; workerDone := ChanClosed |}.

(** A call on [t.queue], recorded. *)
Definition on_queue (f : Q -> Q) (e : event) (s : system) : system :=
  {| pkg := pkg s; tq := set_queue (f (queue (tq s))) (tq s); world := world s;
     worker := worker s; stopper := stopper s;
     events := events s ++ [e]; klog := klog s |}.

Definition Errorf (line : string) (s : system) : system :=
  {| pkg := pkg s; tq := tq s; world := world s;
     worker := worker s; stopper := stopper s;
     events := events s; klog := klog s ++ [line] |}.

Definition set_worker (pc : worker_pc) (s : system) : system :=
  {| pkg := pkg s; tq := tq s; world := world s;
     worker := pc; stopper := stopper s;
     events := events s; klog := klog s |}.

Definition set_stopper (pc : shutdown_pc) (s : system) : system :=
  {| pkg := pkg s; tq := tq s; world := world s;
     worker := worker s; stopper := pc;
     events := events s; klog := klog s |}.

Definition record (e : event) (s : system) : system :=
  {| pkg := pkg s; tq := tq s; world := world s;
     worker := worker s; stopper := stopper s;
     events := events s ++ [e]; klog := klog s |}.

(** [Enqueue]: the loop over [objs]; the [return] of the error branch ends
    the call. *)
Fixpoint Enqueue (objs : list object) (s : system) : system :=
  match objs with
  | [] => s
  | obj :: objs' =>
    match keyFunc (tq s) obj with
    | (key, Some err) =>
      Errorf ("Couldn't get key for object: " ++ err) s
    | (key, None) =>
      Enqueue objs' (on_queue (Add key) (EvAdd key) s)
    end
  end.

(** The keys of the objects that come before the first one for which the
    extractor [f] fails. *)
Fixpoint keys_until_failure (f : object -> string * option error)
    (objs : list object) : list string :=
  match objs with
  | [] => []
  | obj :: objs' =>
    match f obj with
    | (key, None) => key :: keys_until_failure f objs'
    | (_, Some _) => []
    end
  end.

(** One step of the goroutine in [Run]; [None] when it cannot move (blocked
    in [Get], or gone). *)
Definition Run_step (s : system) : option system :=
  match worker s with
  | AtGet =>
    match Get (queue (tq s)) with
    | (GotNothing, _) => None
    | (GotShutdown, q) =>
      Some (set_worker AtClose (on_queue (fun _ => q) (EvGet GotShutdown) s))
    | (GotItem key, q) =>
      Some (set_worker (AtSync key) (on_queue (fun _ => q) (EvGet (GotItem key)) s))
    end
  | AtClose =>
    match workerDone (tq s) with
    | ChanOpen =>
      Some {| pkg := pkg s; tq := close_workerDone (tq s); world := world s;
              worker := Exited; stopper := stopper s;
              events := events s ++ [EvCloseWorkerDone]; klog := klog s |}
    | ChanClosed => Some (set_worker Crashed s)
    end
  | AtSync key => Some (set_worker (InSync key) (record (EvSyncBegin key) s))
  | InSync key =>
    let (err, w) := sync (tq s) key (world s) in
    Some {| pkg := pkg s; tq := tq s; world := w;
            worker := AtRequeue key err; stopper := stopper s;
            events := events s ++ [EvSyncEnd key err]; klog := klog s |}
  | AtRequeue key (Some err) =>
    Some (set_worker (AtDone key)
            (on_queue (AddRateLimited key) (EvAddRateLimited key)
               (Errorf ("Requeuing " ++ key ++ " due to error: " ++ err) s)))
  | AtRequeue key None =>
    Some (set_worker (AtDone key) (on_queue (Forget key) (EvForget key) s))
  | AtDone key =>
    Some (set_worker AtGet (on_queue (Done key) (EvDone key) s))
  | Exited => None
  | Crashed => None
  end.

(** One step of the goroutine that calls [Shutdown]; the receive from
    [t.workerDone] goes through only once the channel is closed. *)
Definition Shutdown_step (s : system) : option system :=
  match stopper s with
  | NotCalled => Some (set_stopper AtShutDown (record EvShutdownCalled s))
  | AtShutDown => Some (set_stopper AtWait (on_queue ShutDown EvShutDown s))
  | AtWait =>
    match workerDone (tq s) with
    | ChanClosed => Some (set_stopper ShutdownReturned (record EvShutdownReturned s))
    | ChanOpen => None
    end
  | ShutdownReturned => None
  end.

(** Who moves next.  A call of [Enqueue] is taken as one step; the queue
    serializes its calls. *)
Inductive action :=
| Worker                                          (* the goroutine in Run *)
| Stopper                                         (* the caller of Shutdown *)
| Producer (objs : list object)                   (* a call Enqueue(objs...) *)
| Timer                                           (* the queue's own timer *)
| AssignKeyFunc (f : object -> string * option error).  (* utils.KeyFunc = f *)

Definition timer_step (s : system) : system :=
  {| pkg := pkg s; tq := set_queue (Elapse (queue (tq s))) (tq s);
     world := world s; worker := worker s; stopper := stopper s;
     events := events s; klog := klog s |}.

Definition assign_KeyFunc (f : object -> string * option error) (s : system) : system :=
  {| pkg := {| KeyFunc := f |}; tq := tq s;
     world := world s; worker := worker s; stopper := stopper s;
     events := events s; klog := klog s |}.

(** A goroutine that cannot move leaves the system as it is. *)
Definition step (a : action) (s : system) : system :=
  match a with
  | Worker => default s (Run_step s)
  | Stopper => default s (Shutdown_step s)
  | Producer objs => Enqueue objs s
  | Timer => timer_step s
  | AssignKeyFunc f => assign_KeyFunc f s
  end.

(** An execution: the actions of a schedule, first to last. *)
Definition exec (schedule : list action) (s : system) : system :=
  fold_left (fun s a => step a s) schedule s.

(** The system right after construction, [Run] started on its goroutine. *)
Definition start (p : package) (t : PeriodicTaskQueue) (w : W) : system :=
  {| pkg := p; tq := t; world := w; worker := AtGet; stopper := NotCalled;
     events := []; klog := [] |}.

(** The system after [NewPeriodicTaskQueueWithLimiter], with [Run] started. *)
Definition launch (p : package) (name resource : string)
    (syncFn : string -> W -> option error * W) (rl : RL) (w : W) : system :=
  start p (NewPeriodicTaskQueueWithLimiter p name resource syncFn rl) w.

(** The keys for which [sync] has been entered, in order. *)
Definition sync_calls (evs : list event) : list string :=
  omap (fun e => match e with EvSyncBegin key => Some key | _ => None end) evs.

(** The call of [sync] that has been entered and has not returned. *)
Definition sync_in_progress (evs : list event) : option string :=
  fold_left (fun cur e =>
    match e with
    | EvSyncBegin key => Some key
    | EvSyncEnd _ _ => None
    | _ => cur
    end) evs None.

(** Counting the results of [sync(key)]: a failure adds one, a success
    brings the count back to zero. *)
Definition count_sync_end (key : string) (n : nat) (e : event) : nat :=
  match e with
  | EvSyncEnd k (Some _) => if decide (k = key) then S n else n
  | EvSyncEnd k None => if decide (k = key) then 0%nat else n
  | _ => n
  end.

(** The failures of [sync(key)] in a row at the end of what has happened. *)
Definition failure_streak (key : string) (evs : list event) : nat :=
  fold_left (count_sync_end key) evs 0%nat.

(** Counting the calls on the limiter: [AddRateLimited(key)] adds one,
    [Forget(key)] brings the count back to zero. *)
Definition count_requeue (key : string) (n : nat) (e : event) : nat :=
  match e with
  | EvAddRateLimited k => if decide (k = key) then S n else n
  | EvForget k => if decide (k = key) then 0%nat else n
  | _ => n
  end.

(** The calls [AddRateLimited(key)] since the last [Forget(key)]. *)
Definition requeue_streak (key : string) (evs : list event) : nat :=
  fold_left (count_requeue key) evs 0%nat.

(** The events of the goroutine in [Run]. *)
Definition worker_event (e : event) : bool :=
  match e with
  | EvGet _ | EvSyncBegin _ | EvSyncEnd _ _ | EvAddRateLimited _
  | EvForget _ | EvDone _ | EvCloseWorkerDone => true
  | _ => false
  end.

Definition worker_events (evs : list event) : list event :=
  List.filter worker_event evs.

(** The call that [Run] makes on the queue for the result of [sync]. *)
Definition requeue_event (key : string) (err : option error) : event :=
  match err with
  | Some _ => EvAddRateLimited key
  | None => EvForget key
  end.

(** What one step can be seen to do: every step of an execution is a move
    of the worker, a move of the caller of [Shutdown], or a move of the
    environment, which leaves both goroutines and the channel alone and
    records additions only. *)
Inductive worker_move : worker_pc -> worker_pc -> event -> chan -> chan -> Prop :=
| wm_quit c : worker_move AtGet AtClose (EvGet GotShutdown) c c
| wm_item key c : worker_move AtGet (AtSync key) (EvGet (GotItem key)) c c
| wm_begin key c : worker_move (AtSync key) (InSync key) (EvSyncBegin key) c c
| wm_end key err c :
    worker_move (InSync key) (AtRequeue key err) (EvSyncEnd key err) c c
| wm_requeue key err c :
    worker_move (AtRequeue key err) (AtDone key) (requeue_event key err) c c
| wm_done key c : worker_move (AtDone key) AtGet (EvDone key) c c
| wm_close : worker_move AtClose Exited EvCloseWorkerDone ChanOpen ChanClosed.

Inductive stopper_move : shutdown_pc -> shutdown_pc -> event -> chan -> Prop :=
| sm_call c : stopper_move NotCalled AtShutDown EvShutdownCalled c
| sm_shutdown c : stopper_move AtShutDown AtWait EvShutDown c
| sm_return : stopper_move AtWait ShutdownReturned EvShutdownReturned ChanClosed.

Definition addition (e : event) : Prop := exists key, e = EvAdd key.

Inductive transition (s s' : system) : Prop :=
| tr_env new :
    worker s' = worker s -> stopper s' = stopper s ->
    workerDone (tq s') = workerDone (tq s) ->
    events s' = events s ++ new -> Forall addition new ->
    transition s s'
| tr_worker e :
    stopper s' = stopper s -> events s' = events s ++ [e] ->
    worker_move (worker s) (worker s') e (workerDone (tq s)) (workerDone (tq s')) ->
    transition s s'
| tr_crash :
    worker s = AtClose -> workerDone (tq s) = ChanClosed ->
    worker s' = Crashed -> stopper s' = stopper s ->
    workerDone (tq s') = workerDone (tq s) -> events s' = events s ->
    transition s s'
| tr_stopper e :
    worker s' = worker s -> workerDone (tq s') = workerDone (tq s) ->
    events s' = events s ++ [e] ->
    stopper_move (stopper s) (stopper s') e (workerDone (tq s)) ->
    transition s s'.

(** After [sync(key)] has returned: what the worker does next with the
    result. *)
Definition requeues_then_done (s : system) : Prop :=
  forall pre key err post,
    events s = pre ++ EvSyncEnd key err :: post ->
    (worker_events post = [] /\ worker s = AtRequeue key err)
    \/ (worker_events post = [requeue_event key err] /\ worker s = AtDone key)
    \/ (exists more,
          worker_events post = requeue_event key err :: EvDone key :: more).

(** The key of the call of [sync] that the worker is in. *)
Definition in_sync (pc : worker_pc) : option string :=
  match pc with InSync key => Some key | _ => None end.

(** What holds of the two goroutines and of the channel throughout. *)
Record shutdown_inv (s : system) : Prop := {
  closed_exited : workerDone (tq s) = ChanClosed -> worker s = Exited;
  exited_closed : worker s = Exited -> workerDone (tq s) = ChanClosed;
  returned_closed : stopper s = ShutdownReturned -> workerDone (tq s) = ChanClosed;
  progress_pc : sync_in_progress (events s) = in_sync (worker s);
  returned_event : In EvShutdownReturned (events s) -> stopper s = ShutdownReturned;
  waiting_shutdown :
    stopper s = AtWait \/ stopper s = ShutdownReturned -> In EvShutDown (events s);
  after_return : forall pre post,
    events s = pre ++ EvShutdownReturned :: post ->
    In EvShutDown pre /\ sync_in_progress pre = None /\ worker_events post = []
}.

(** The worker closes the channel after a [Get] that reports the shutdown. *)
Record close_inv (s : system) : Prop := {
  quit_then_close : forall pre post,
    events s = pre ++ EvGet GotShutdown :: post ->
    (worker_events post = [] /\ worker s = AtClose)
    \/ (worker_events post = [EvCloseWorkerDone] /\ worker s = Exited);
  close_after_quit : forall pre post,
    events s = pre ++ EvCloseWorkerDone :: post ->
    exists before, worker_events pre = before ++ [EvGet GotShutdown];
  at_close_after_quit :
    worker s = AtClose ->
    exists before, worker_events (events s) = before ++ [EvGet GotShutdown]
}.

(** What one step does to the queue, with the events that it records. *)
Definition queue_silent (e : event) : Prop :=
  match e with
  | EvSyncBegin _ | EvSyncEnd _ _ | EvCloseWorkerDone | EvShutdownCalled
  | EvShutdownReturned => True
  | _ => False
  end.

Inductive effect : Q -> list event -> Q -> Prop :=
| ef_adds keys q :
    effect q (map EvAdd keys) (fold_left (fun q key => Add key q) keys q)
| ef_elapse q : effect q [] (Elapse q)
| ef_get q : effect q [EvGet (fst (Get q))] (snd (Get q))
| ef_rate key q : effect q [EvAddRateLimited key] (AddRateLimited key q)
| ef_forget key q : effect q [EvForget key] (Forget key q)
| ef_done key q : effect q [EvDone key] (Done key q)
| ef_shutdown q : effect q [EvShutDown] (ShutDown q)
| ef_silent q new : Forall queue_silent new -> effect q new q.

(** The failures in a row are the calls of [AddRateLimited] since the last
    [Forget], and the result that the worker has in hand and has not
    requeued yet. *)
Definition streaks_agree (key : string) (s : system) : Prop :=
  match worker s with
  | AtRequeue k (Some _) =>
    failure_streak key (events s)
    = if decide (k = key) then S (requeue_streak key (events s))
      else requeue_streak key (events s)
  | AtRequeue k None =>
    failure_streak key (events s)
    = if decide (k = key) then 0%nat else requeue_streak key (events s)
  | _ => failure_streak key (events s) = requeue_streak key (events s)
  end.

(** The items that [Get] has handed out, the results of [sync], and the
    keys passed to [Done], each in the order of the calls. *)
Definition got_items (evs : list event) : list string :=
  omap (fun e => match e with EvGet (GotItem key) => Some key | _ => None end) evs.

Definition sync_results (evs : list event) : list (string * option error) :=
  omap (fun e => match e with EvSyncEnd key err => Some (key, err) | _ => None end)
    evs.

Definition done_calls (evs : list event) : list string :=
  omap (fun e => match e with EvDone key => Some key | _ => None end) evs.

(** The item that the worker has got from the queue and not yet passed to
    [Done]; the one for which it has entered [sync]; the one for which
    [sync] has returned. *)
Definition in_hand (pc : worker_pc) : list string :=
  match pc with
  | AtSync key | InSync key | AtRequeue key _ | AtDone key => [key]
  | _ => []
  end.

Definition sync_entered (pc : worker_pc) : list string :=
  match pc with
  | InSync key | AtRequeue key _ | AtDone key => [key]
  | _ => []
  end.

Definition sync_left (pc : worker_pc) : list string :=
  match pc with
  | AtRequeue key _ | AtDone key => [key]
  | _ => []
  end.

Record one_at_a_time (s : system) : Prop := {
  got_then_done :
    got_items (events s) = done_calls (events s) ++ in_hand (worker s);
  entered_then_done :
    sync_calls (events s) = done_calls (events s) ++ sync_entered (worker s);
  returned_then_done :
    map fst (sync_results (events s))
    = done_calls (events s) ++ sync_left (worker s)
}.

(** The calls [close(t.workerDone)]. *)
Definition is_close (e : event) : bool :=
  match e with EvCloseWorkerDone => true | _ => false end.

Definition close_calls (evs : list event) : nat :=
  length (List.filter is_close evs).

Record closes_once (s : system) : Prop := {
  never_crashed : worker s <> Crashed;
  one_close :
    close_calls (events s) = match worker s with Exited => 1 | _ => 0 end;
  closed_iff_exited : workerDone (tq s) = ChanClosed <-> worker s = Exited
}.

(** The calls [syncFn(key)] for the keys of a list, one after the other,
    from the host state [w]: the results, and the host state at the end. *)
Fixpoint replay (syncFn : string -> W -> option error * W) (keys : list string)
    (w : W) : list (string * option error) * W :=
  match keys with
  | [] => ([], w)
  | key :: keys =>
    let (err, w') := syncFn key w in
    let (results, w'') := replay syncFn keys w' in
    ((key, err) :: results, w'')
  end.

(** What [Shutdown] needs of the queue behind the task queue.  [shut q]:
    [ShutDown] has been called on [q]; [remaining q]: a bound on the items
    that [Get] still hands out.  Once the queue is shut down it stays so,
    [Get] does not block, and every item that [Get] hands out is one less
    to come. *)
Record shutdown_contract (shut : Q -> Prop) (remaining : Q -> nat) : Prop := {
  ShutDown_shuts : forall q, shut (ShutDown q);
  Add_shut : forall key q, shut q -> shut (Add key q);
  Elapse_shut : forall q, shut q -> shut (Elapse q);
  AddRateLimited_shut : forall key q,
    shut q -> shut (AddRateLimited key q)
              /\ remaining (AddRateLimited key q) <= remaining q;
  Forget_shut : forall key q,
    shut q -> shut (Forget key q) /\ remaining (Forget key q) <= remaining q;
  Done_shut : forall key q,
    shut q -> shut (Done key q) /\ remaining (Done key q) <= remaining q;
  Get_shut : forall q,
    shut q ->
    shut (snd (Get q))
    /\ match fst (Get q) with
       | GotShutdown => True
       | GotItem _ => remaining (snd (Get q)) < remaining q
       | GotNothing => False
       end
}.

(** The steps that the worker needs at most to leave [Run], with
    [remaining] items to come from a queue that is shut down. *)
Definition steps_to_exit (pc : worker_pc) (remaining : nat) : nat :=
  match pc with
  | AtSync _ => 5 * remaining + 6
  | InSync _ => 5 * remaining + 5
  | AtRequeue _ _ => 5 * remaining + 4
  | AtDone _ => 5 * remaining + 3
  | AtGet => 5 * remaining + 2
  | AtClose => 1
  | Exited => 0
  | Crashed => 0
  end.

End TaskQueue.

End utils.

(** * The queue behind the task queue *)

Module workqueue.

(** Modelled from the spec: the queue of [k8s.io/client-go/util/workqueue]
    is not part of the sources at hand; this is the
    DedupRateLimitedQueue of the design, section 4.1, with its data model
    of section 3.
    - [PendingSet]: the keys enqueued and not yet dispatched, in the order
      of their arrival;
    - [ActiveSet]: the keys being processed;
    - [deferred]: the keys re-added while active, eligible again at [Done];
    - [scheduled]: the keys that [AddRateLimited] scheduled, each with the
      time left until it is eligible;
    - [RateLimiterState]: the attempts of each key; a key that is absent is
      in the base state;
    - [backoff]: the limiter's policy, the delay after so many attempts;
    - [closed]: set by [ShutDown]. *)
Record DedupRateLimitedQueue := mkQueue {
  PendingSet : list string;
  ActiveSet : gset string;
  deferred : gset string;
  scheduled : list (string * N);
  RateLimiterState : gmap string nat;
  backoff : nat -> N;
  closed : bool
}.

(** Modelled from the spec: the attempts that the limiter holds for a key,
    none in the base state. *)
Definition attempts (key : string) (q : DedupRateLimitedQueue) : nat :=
  default 0%nat (RateLimiterState q !! key).

(** Modelled from the spec: a new queue holds nothing and is open. *)
Definition NewRateLimitingQueue (rl : nat -> N) : DedupRateLimitedQueue :=
  {| PendingSet := []; ActiveSet := ∅; deferred := ∅; scheduled := [];
     RateLimiterState := ∅; backoff := rl; closed := false |}.

(** Modelled from the spec: the name identifies the queue for diagnostics
    and metrics only. *)
Definition NewNamedRateLimitingQueue (rl : nat -> N) (name : string)
  : DedupRateLimitedQueue := NewRateLimitingQueue rl.

(** Modelled from the spec: the default policy, per-item exponential
    backoff capped at a maximum delay (5ms doubling up to 1000s, in
    milliseconds); the overall bucket ceiling is left out. *)
Definition DefaultControllerRateLimiter : nat -> N :=
  fun n => N.min (5 * 2 ^ N.of_nat n) 1000000.

(** Modelled from the spec: "inserts key into PendingSet if absent; no-op
    if already pending"; a re-add while active is deferred. *)
Definition Add (key : string) (q : DedupRateLimitedQueue) : DedupRateLimitedQueue :=
  if decide (key ∈ PendingSet q) then q
  else if decide (key ∈ ActiveSet q) then
    {| PendingSet := PendingSet q; ActiveSet := ActiveSet q;
       deferred := {[ key ]} ∪ deferred q; scheduled := scheduled q;
       RateLimiterState := RateLimiterState q; backoff := backoff q;
       closed := closed q |}
  else
    {| PendingSet := PendingSet q ++ [key]; ActiveSet := ActiveSet q;
       deferred := deferred q; scheduled := scheduled q;
       RateLimiterState := RateLimiterState q; backoff := backoff q;
       closed := closed q |}.

(** Modelled from the spec: "schedules key for future eligibility according
    to RateLimiterState(key), then advances that key's limiter state". *)
Definition AddRateLimited (key : string) (q : DedupRateLimitedQueue)
  : DedupRateLimitedQueue :=
  {| PendingSet := PendingSet q; ActiveSet := ActiveSet q;
     deferred := deferred q;
     scheduled := scheduled q ++ [(key, backoff q (attempts key q))];
     RateLimiterState := <[ key := S (attempts key q) ]> (RateLimiterState q);
     backoff := backoff q; closed := closed q |}.

(** Modelled from the spec: "returns the key plus a closed flag. Moves the
    key from PendingSet into ActiveSet"; once the queue is closed, "any
    blocked or future Get() returns the closed flag with no key". *)
Definition Get (q : DedupRateLimitedQueue) : utils.got * DedupRateLimitedQueue :=
  if closed q then (utils.GotShutdown, q)
  else
    match PendingSet q with
    | [] => (utils.GotNothing, q)
    | key :: rest =>
      (utils.GotItem key,
       {| PendingSet := rest; ActiveSet := {[ key ]} ∪ ActiveSet q;
          deferred := deferred q; scheduled := scheduled q;
          RateLimiterState := RateLimiterState q; backoff := backoff q;
          closed := closed q |})
    end.

(** Modelled from the spec: "removes key from ActiveSet; if the key was
    re-added while active, it becomes eligible for a future Get()". *)
Definition Done (key : string) (q : DedupRateLimitedQueue) : DedupRateLimitedQueue :=
  if decide (key ∈ deferred q) then
    {| PendingSet :=
         if decide (key ∈ PendingSet q) then PendingSet q
         else PendingSet q ++ [key];
       ActiveSet := ActiveSet q ∖ {[ key ]};
       deferred := deferred q ∖ {[ key ]}; scheduled := scheduled q;
       RateLimiterState := RateLimiterState q; backoff := backoff q;
       closed := closed q |}
  else
    {| PendingSet := PendingSet q; ActiveSet := ActiveSet q ∖ {[ key ]};
       deferred := deferred q; scheduled := scheduled q;
       RateLimiterState := RateLimiterState q; backoff := backoff q;
       closed := closed q |}.

(** Modelled from the spec: "resets RateLimiterState(key) to base". *)
Definition Forget (key : string) (q : DedupRateLimitedQueue) : DedupRateLimitedQueue :=
  {| PendingSet := PendingSet q; ActiveSet := ActiveSet q;
     deferred := deferred q; scheduled := scheduled q;
     RateLimiterState := delete key (RateLimiterState q);
     backoff := backoff q; closed := closed q |}.

(** Modelled from the spec: "marks the queue closed"; nothing is dropped. *)
Definition ShutDown (q : DedupRateLimitedQueue) : DedupRateLimitedQueue :=
  {| PendingSet := PendingSet q; ActiveSet := ActiveSet q;
     deferred := deferred q; scheduled := scheduled q;
     RateLimiterState := RateLimiterState q; backoff := backoff q;
     closed := true |}.

(** Modelled from the spec: one unit of time passes; the scheduled keys
    whose delay is over are added, the others wait one unit less. *)
Definition Elapse (q : DedupRateLimitedQueue) : DedupRateLimitedQueue :=
  let due := List.filter (fun e => (snd e <=? 1)%N) (scheduled q) in
  let later := List.filter (fun e => negb (snd e <=? 1)%N) (scheduled q) in
  fold_left (fun q e => Add (fst e) q) due
    {| PendingSet := PendingSet q; ActiveSet := ActiveSet q;
       deferred := deferred q;
       scheduled := map (fun e => (fst e, N.pred (snd e))) later;
       RateLimiterState := RateLimiterState q; backoff := backoff q;
       closed := closed q |}.

#[global] Instance interface :
  utils.RateLimitingInterface (nat -> N) DedupRateLimitedQueue := {|
  utils.DefaultControllerRateLimiter := DefaultControllerRateLimiter;
  utils.NewRateLimitingQueue := NewRateLimitingQueue;
  utils.NewNamedRateLimitingQueue := NewNamedRateLimitingQueue;
  utils.Add := Add;
  utils.Get := Get;
  utils.Done := Done;
  utils.ShutDown := ShutDown;
  utils.AddRateLimited := AddRateLimited;
  utils.Forget := Forget;
  utils.Elapse := Elapse
|}.

End workqueue.

(** * A host for the examples *)

Module example.

(** Objects with a namespace and a name, and objects without metadata. *)
Inductive object :=
| Named (namespace name : string)
| Keyless.

(** An extractor in the manner of the default one: namespace, a slash and
    the name; no key for an object without metadata. *)
Definition KeyFunc (obj : object) : string * option utils.error :=
  match obj with
  | Named namespace name => ((namespace ++ "/" ++ name)%string, None)
  | Keyless => ("", Some "object has no meta")
  end.

(** The host keeps the keys it has synced.  [sync_ok] always succeeds;
    [sync_flaky] fails for a key that it sees for the first time. *)
Definition sync_ok (key : string) (synced : list string)
  : option utils.error * list string :=
  (None, synced ++ [key]).

Definition sync_flaky (key : string) (synced : list string)
  : option utils.error * list string :=
  if decide (key ∈ synced) then (None, synced ++ [key])
  else (Some "not yet", synced ++ [key]).

(** A description with two schemas, the second one found through a
    reference of the first. *)
Definition compute_api : list (string * meta.json) :=
  [("kind", meta.JString "discovery#restDescription");
   ("schemas", meta.JObject
      [("Backend", meta.JObject
          [("id", meta.JString "Backend");
           ("properties", meta.JObject
              [("group", meta.JObject [("type", meta.JString "string")]);
               ("balancingMode", meta.JObject [("type", meta.JString "string")]);
               ("maxRate", meta.JObject
                  [("type", meta.JString "integer");
                   ("format", meta.JString "int32")])])]);
       ("BackendService", meta.JObject
          [("id", meta.JString "BackendService");
           ("properties", meta.JObject
              [("name", meta.JObject [("type", meta.JString "string")]);
               ("backends", meta.JObject
                  [("type", meta.JString "array");
                   ("items", meta.JObject [("$ref", meta.JString "Backend")])]);
               ("id", meta.JObject
                  [("type", meta.JString "string");
                   ("format", meta.JString "uint64")]);
               ("enableCDN", meta.JObject [("type", meta.JString "boolean")])])])])].

(** A description in which two properties of a schema differ in the case
    of their first letter only. *)
Definition twin_api : list (string * meta.json) :=
  [("schemas", meta.JObject
      [("BackendService", meta.JObject
          [("properties", meta.JObject
              [("kind", meta.JObject [("type", meta.JString "string")]);
               ("Kind", meta.JObject [("type", meta.JString "boolean")])])])])].

Definition init (order : meta.map_order) (result : list (string * meta.json))
  : option (outcome (list meta.ApiService)) :=
  meta.init meta.ascii_only_case_table meta.ascii_Title
    (meta.insertionSort meta.less_Name) order 10 meta.MainServices result.

Definition booted (syncFn : string -> list string -> option utils.error * list string)
  : utils.system :=
  utils.launch (utils.package_init KeyFunc) "" "ingresses" syncFn
    workqueue.DefaultControllerRateLimiter [].

(** [sync_alternating] fails for a key every other time, the first time
    included. *)
Definition sync_alternating (key : string) (synced : list string)
  : option utils.error * list string :=
  if Nat.even (length (List.filter (String.eqb key) synced))
  then (Some "try again", synced ++ [key])
  else (None, synced ++ [key]).

Definition foo : object := Named "ns" "foo".

(** A shutdown while [sync] is in progress: [Shutdown] is called and
    [ShutDown] has marked the queue when [sync] returns; the caller of
    [Shutdown] cannot move until the worker has closed the channel. *)
Definition shutdown_during_sync : list (@utils.action object) :=
  [utils.Producer [foo]; utils.Worker; utils.Worker;
   utils.Stopper; utils.Stopper; utils.Stopper;
   utils.Worker; utils.Worker; utils.Stopper; utils.Worker; utils.Worker;
   utils.Stopper; utils.Worker; utils.Stopper].

(** Up to the return of [sync] for [foo]. *)
Definition first_sync : list (@utils.action object) :=
  [utils.Producer [foo]; utils.Worker; utils.Worker; utils.Worker].

(** A failure, the wait of the base delay, a success, and a failure
    again, up to the return of [sync]. *)
Definition fail_succeed_fail : list (@utils.action object) :=
  [utils.Producer [foo]] ++ repeat utils.Worker 5 ++ repeat utils.Timer 5
  ++ repeat utils.Worker 5 ++ [utils.Producer [foo]] ++ repeat utils.Worker 3.

(** Properties as a description has them: a list of references, a number
    that is kept in a string, and a property with no type. *)
Definition backends_property : meta.json :=
  meta.JObject
    [("type", meta.JString "array");
     ("items", meta.JObject [("$ref", meta.JString "Backend")])].

Definition id_property : list (string * meta.json) :=
  [("type", meta.JString "string"); ("format", meta.JString "uint64")].

Definition untyped_property : list (string * meta.json) :=
  [("description", meta.JString "no type")].

(** An array whose items have the empty string as type. *)
Definition array_of_empty_type : meta.json :=
  meta.JObject
    [("type", meta.JString "array");
     ("items", meta.JObject [("type", meta.JString "")])].


(** A name that is no UTF-8: the byte 0xFF after a letter. *)
Definition ill_formed_name : string :=
  String "a" (String (Ascii true true true true true true true true) "").

(** [Shutdown] is called while [sync] is in progress, up to its wait for
    the worker. *)
Definition waiting_for_worker : list (@utils.action object) :=
  [utils.Producer [foo]; utils.Worker; utils.Worker; utils.Stopper; utils.Stopper].

End example.

(** * Properties of package meta *)

(** Case analysis on the comparisons of a goal, dropping at once the cases
    that contradict the context. *)
Ltac split_tests :=
  repeat match goal with
  | |- context [(?a =? ?b)%Z] => destruct (Z.eqb_spec a b); try lia
  | |- context [(?a <? ?b)%Z] => destruct (Z.ltb_spec a b); try lia
  | |- context [(?a <=? ?b)%Z] => destruct (Z.leb_spec a b); try lia
  end;
  cbn [andb negb orb].

Section MetaFacts.
Import meta.
Local Open Scope Z_scope.

Lemma byte_of_ascii_range a : (0 <= byte_of_ascii a < 256)%Z.
Proof.
  unfold byte_of_ascii. pose proof (N_ascii_bounded a). lia.
Qed.

Lemma byte_ascii_byte b : (0 <= b < 256)%Z -> byte_of_ascii (ascii_of_byte b) = b.
Proof.
  intros Hb. unfold byte_of_ascii, ascii_of_byte.
  rewrite N_ascii_embedding by lia. lia.
Qed.

Lemma bytes_string_bytes bs :
  Forall (fun b => 0 <= b < 256)%Z bs -> bytes_of_string (string_of_bytes bs) = bs.
Proof.
  intros Hbs. unfold bytes_of_string, string_of_bytes.
  rewrite list_ascii_of_string_of_list_ascii.
  induction Hbs as [|b bs Hb _ IH]; simpl; [reflexivity|].
  now rewrite byte_ascii_byte, IH.
Qed.


Lemma written_rune_valid r : valid_rune (written_rune r) = true.
Proof.
  unfold written_rune. destruct (valid_rune r) eqn:E; [exact E | reflexivity].
Qed.

Lemma decode_one b rest :
  0 <= b < 128 -> decode_runes (b :: rest) = b :: decode_runes rest.
Proof.
  intros Hb. cbn [decode_runes]. unfold lead.
  destruct (Z.ltb_spec b 128); [reflexivity | lia].
Qed.

Lemma lead_two b : 194 <= b < 224 -> lead b = LeadTwo.
Proof. intros Hb. unfold lead. now split_tests. Qed.

Lemma lead_three b : 224 <= b < 240 -> lead b = LeadThree.
Proof. intros Hb. unfold lead. now split_tests. Qed.

Lemma lead_four b : 240 <= b < 245 -> lead b = LeadFour.
Proof. intros Hb. unfold lead. now split_tests. Qed.

Lemma between_true lo hi b : lo <= b <= hi -> between lo hi b = true.
Proof.
  intros Hb. unfold between.
  apply andb_true_intro. split; apply Z.leb_le; lia.
Qed.

Lemma decode_two q m rest :
  2 <= q < 32 -> 0 <= m < 64 ->
  decode_runes (192 + q :: 128 + m :: rest) = 64 * q + m :: decode_runes rest.
Proof.
  intros Hq Hm. cbn [decode_runes].
  rewrite lead_two, between_true by (unfold accept_lo, accept_hi; split_tests; lia).
  f_equal. lia.
Qed.

Lemma decode_three a b c rest :
  0 <= a < 16 -> 0 <= b < 64 -> 0 <= c < 64 ->
  (a = 0 -> 32 <= b) -> (a = 13 -> b < 32) ->
  decode_runes (224 + a :: 128 + b :: 128 + c :: rest)
  = 4096 * a + 64 * b + c :: decode_runes rest.
Proof.
  intros Ha Hb Hc Hlo Hhi. cbn [decode_runes]. unfold continuation.
  rewrite lead_three, !between_true
    by (unfold accept_lo, accept_hi; split_tests; lia).
  cbn [andb]. f_equal. lia.
Qed.

Lemma decode_four a b c d rest :
  0 <= a < 5 -> 0 <= b < 64 -> 0 <= c < 64 -> 0 <= d < 64 ->
  (a = 0 -> 16 <= b) -> (a = 4 -> b < 16) ->
  decode_runes (240 + a :: 128 + b :: 128 + c :: 128 + d :: rest)
  = 262144 * a + 4096 * b + 64 * c + d :: decode_runes rest.
Proof.
  intros Ha Hb Hc Hd Hlo Hhi. cbn [decode_runes]. unfold continuation.
  rewrite lead_four, !between_true
    by (unfold accept_lo, accept_hi; split_tests; lia).
  cbn [andb]. f_equal. lia.
Qed.

Lemma valid_rune_spec r :
  valid_rune r = true <-> 0 <= r <= 1114111 /\ (r < 55296 \/ 57343 < r).
Proof.
  unfold valid_rune, MaxRune.
  destruct (Z.leb_spec 0 r), (Z.leb_spec r 1114111), (Z.leb_spec 55296 r),
    (Z.leb_spec r 57343); cbn; split; intros; try discriminate; try lia;
    reflexivity.
Qed.

(** Decoding what [encode_rune] wrote gives the rune back. *)
Lemma decode_encode_valid r rest :
  valid_rune r = true ->
  decode_runes (encode_rune r ++ rest) = r :: decode_runes rest.
Proof.
  intros Hv. unfold encode_rune. rewrite Hv.
  apply valid_rune_spec in Hv as [Hr Hsur].
  destruct (Z.leb_spec r 127) as [H1|H1].
  { apply decode_one. lia. }
  pose proof (Z.div_mod r 64 ltac:(lia)) as E1.
  pose proof (Z.mod_pos_bound r 64 ltac:(lia)) as B1.
  destruct (Z.leb_spec r 2047) as [H2|H2].
  { cbn [app]. rewrite decode_two by lia. f_equal. lia. }
  pose proof (Z.div_mod (r / 64) 64 ltac:(lia)) as E2.
  pose proof (Z.mod_pos_bound (r / 64) 64 ltac:(lia)) as B2.
  assert (E3 : r / 4096 = r / 64 / 64) by (rewrite Z.div_div by lia; reflexivity).
  destruct (Z.leb_spec r 65535) as [H3|H3].
  { cbn [app]. rewrite decode_three by lia. f_equal. lia. }
  pose proof (Z.div_mod (r / 4096) 64 ltac:(lia)) as E4.
  pose proof (Z.mod_pos_bound (r / 4096) 64 ltac:(lia)) as B4.
  assert (E5 : r / 262144 = r / 4096 / 64) by (rewrite Z.div_div by lia; reflexivity).
  cbn [app]. rewrite decode_four by lia. f_equal. lia.
Qed.

Lemma decode_encode r rest :
  decode_runes (encode_rune r ++ rest) = written_rune r :: decode_runes rest.
Proof.
  unfold written_rune. destruct (valid_rune r) eqn:Hv.
  - now apply decode_encode_valid.
  - replace (encode_rune r) with (encode_rune RuneError)
      by (unfold encode_rune; now rewrite Hv).
    now apply decode_encode_valid.
Qed.

Lemma decode_flat_encode rs :
  decode_runes (flat_map encode_rune rs) = map written_rune rs.
Proof.
  induction rs as [|r rs IH]; [reflexivity|].
  cbn [flat_map map]. now rewrite decode_encode, IH.
Qed.

Lemma encode_rune_bytes r : Forall (fun b => 0 <= b < 256) (encode_rune r).
Proof.
  unfold encode_rune.
  pose proof (written_rune_valid r) as Hv. unfold written_rune in Hv.
  set (r' := if valid_rune r then r else RuneError) in *. clearbody r'.
  apply valid_rune_spec in Hv as [Hr _].
  pose proof (Z.mod_pos_bound r' 64 ltac:(lia)).
  pose proof (Z.mod_pos_bound (r' / 64) 64 ltac:(lia)).
  pose proof (Z.mod_pos_bound (r' / 4096) 64 ltac:(lia)).
  pose proof (Z.div_le_upper_bound r' 64 32 ltac:(lia)).
  pose proof (Z.div_le_upper_bound r' 4096 16 ltac:(lia)).
  pose proof (Z.div_le_upper_bound r' 262144 5 ltac:(lia)).
  pose proof (Z.div_pos r' 64 ltac:(lia) ltac:(lia)).
  pose proof (Z.div_pos r' 4096 ltac:(lia) ltac:(lia)).
  pose proof (Z.div_pos r' 262144 ltac:(lia) ltac:(lia)).
  destruct (Z.leb_spec r' 127); [repeat constructor; lia|].
  destruct (Z.leb_spec r' 2047); [repeat constructor; lia|].
  destruct (Z.leb_spec r' 65535); repeat constructor; lia.
Qed.

Lemma flat_encode_bytes rs : Forall (fun b => 0 <= b < 256) (flat_map encode_rune rs).
Proof.
  induction rs as [|r rs IH]; cbn [flat_map]; [constructor|].
  apply Forall_app. split; [apply encode_rune_bytes | exact IH].
Qed.

(** [[]rune(string(rs))] *)
Lemma runes_of_string_of_runes rs :
  runes_of_string (string_of_runes rs) = map written_rune rs.
Proof.
  unfold runes_of_string, string_of_runes.
  rewrite bytes_string_bytes by apply flat_encode_bytes.
  apply decode_flat_encode.
Qed.

Lemma lead_inv b :
  match lead b with
  | LeadASCII => b < 128
  | LeadTwo => 194 <= b < 224
  | LeadThree => 224 <= b < 240
  | LeadFour => 240 <= b < 245
  | LeadInvalid => True
  end.
Proof. unfold lead. split_tests; trivial; lia. Qed.

Lemma between_inv lo hi b : between lo hi b = true -> lo <= b <= hi.
Proof.
  unfold between. intros H. apply andb_prop in H as [H1 H2].
  apply Z.leb_le in H1, H2. lia.
Qed.

Lemma RuneError_valid : valid_rune RuneError = true.
Proof. reflexivity. Qed.

(** One decoding step: the first rune is valid and the rest is the decoding
    of a strict suffix. *)
Lemma decode_runes_step b0 t0 :
  0 <= b0 < 256 ->
  exists r t, decode_runes (b0 :: t0) = r :: decode_runes t
    /\ valid_rune r = true /\ (length t <= length t0)%nat
    /\ (exists pre, t0 = pre ++ t).
Proof.
  intros Hb0. cbn [decode_runes].
  assert (Hinv : exists r t, RuneError :: decode_runes t0 = r :: decode_runes t
    /\ valid_rune r = true /\ (length t <= length t0)%nat
    /\ (exists pre, t0 = pre ++ t)).
  { exists RuneError, t0. repeat split; try reflexivity; try lia. now exists []. }
  pose proof (lead_inv b0) as Hl.
  destruct (lead b0); try exact Hinv.
  - exists b0, t0. repeat split; try lia.
    + apply valid_rune_spec. lia.
    + now exists [].
  - destruct t0 as [|b1 t1]; [exact Hinv|].
    destruct (between _ _ b1) eqn:Hb1; [|exact Hinv].
    apply between_inv in Hb1. eexists _, t1. repeat split.
    + apply valid_rune_spec. revert Hb1. unfold accept_lo, accept_hi.
      split_tests; lia.
    + cbn; lia.
    + now exists [b1].
  - destruct t0 as [|b1 [|b2 t2]]; try exact Hinv.
    destruct (between _ _ b1) eqn:Hb1; [|exact Hinv].
    destruct (continuation b2) eqn:Hb2; [|exact Hinv].
    apply between_inv in Hb1, Hb2. eexists _, t2. repeat split.
    + apply valid_rune_spec. revert Hb1. unfold accept_lo, accept_hi.
      split_tests; lia.
    + cbn; lia.
    + now exists [b1; b2].
  - destruct t0 as [|b1 [|b2 [|b3 t3]]]; try exact Hinv.
    destruct (between _ _ b1) eqn:Hb1; [|exact Hinv].
    destruct (continuation b2) eqn:Hb2; [|exact Hinv].
    destruct (continuation b3) eqn:Hb3; [|exact Hinv].
    apply between_inv in Hb1, Hb2, Hb3. eexists _, t3. repeat split.
    + apply valid_rune_spec. revert Hb1. unfold accept_lo, accept_hi.
      split_tests; lia.
    + cbn; lia.
    + now exists [b1; b2; b3].
Qed.

(** Every rune that [[]rune(str)] yields is a Unicode scalar value. *)
Lemma decode_runes_valid bs :
  Forall (fun b => 0 <= b < 256) bs ->
  Forall (fun r => valid_rune r = true) (decode_runes bs).
Proof.
  remember (length bs) as n eqn:Hn.
  revert bs Hn. induction (lt_wf n) as [n _ IH]. intros bs -> Hbs.
  destruct bs as [|b0 t0]; [constructor|].
  apply Forall_cons in Hbs as [Hb0 Ht0].
  destruct (decode_runes_step b0 t0 Hb0) as (r & t & -> & Hr & Hlen & pre & ->).
  constructor; [exact Hr|].
  apply (IH (length t)); [cbn; lia | reflexivity |].
  apply Forall_app in Ht0. tauto.
Qed.

Lemma bytes_of_string_range str :
  Forall (fun b => 0 <= b < 256) (bytes_of_string str).
Proof.
  unfold bytes_of_string. apply Forall_forall. intros b Hb.
  apply list_elem_of_In, in_map_iff in Hb as (a & <- & _).
  apply byte_of_ascii_range.
Qed.

Lemma runes_of_string_valid str :
  Forall (fun r => valid_rune r = true) (runes_of_string str).
Proof. apply decode_runes_valid, bytes_of_string_range. Qed.

Lemma map_written_rune_valid rs :
  Forall (fun r => valid_rune r = true) rs -> map written_rune rs = rs.
Proof.
  induction 1 as [|r rs Hr _ IH]; [reflexivity|].
  cbn [map]. unfold written_rune at 1. now rewrite Hr, IH.
Qed.

Lemma runes_of_string_nonempty str :
  str <> "" -> exists c0 rest, runes_of_string str = c0 :: rest.
Proof.
  intros Hne. unfold runes_of_string.
  destruct str as [|a str]; [congruence|].
  change (bytes_of_string (String a str))
    with (byte_of_ascii a :: bytes_of_string str).
  destruct (decode_runes_step (byte_of_ascii a) (bytes_of_string str)
              (byte_of_ascii_range a)) as (r & t & -> & _).
  eauto.
Qed.

End MetaFacts.

Section CreateVarName.
Import meta.
Local Open Scope Z_scope.

Variable lowerCaseRanges : rune -> rune.

Lemma createVarName_empty : createVarName lowerCaseRanges "" = "".
Proof. reflexivity. Qed.

Lemma createVarName_cons str c0 rest :
  runes_of_string str = c0 :: rest ->
  createVarName lowerCaseRanges str
  = string_of_runes (ToLower lowerCaseRanges c0 :: rest).
Proof. intros E. unfold meta.createVarName. now rewrite E. Qed.

(** The two facts about the case table of the Go library that the
    statements below rest on. *)
Hypothesis ToLower_valid :
  forall r, valid_rune r = true -> valid_rune (ToLower lowerCaseRanges r) = true.
Hypothesis ToLower_idempotent :
  forall r,
    ToLower lowerCaseRanges (ToLower lowerCaseRanges r) = ToLower lowerCaseRanges r.

Lemma createVarName_runes str c0 rest :
  runes_of_string str = c0 :: rest ->
  runes_of_string (createVarName lowerCaseRanges str)
  = ToLower lowerCaseRanges c0 :: rest.
Proof.
  intros E. rewrite (createVarName_cons _ _ _ E), runes_of_string_of_runes.
  apply map_written_rune_valid.
  pose proof (runes_of_string_valid str) as Hv. rewrite E in Hv.
  apply Forall_cons in Hv as [Hc Hrest].
  constructor; [now apply ToLower_valid | exact Hrest].
Qed.

(** C8. [createVarName] maps the empty string to the empty string; on a
    non-empty string the runes of the result are the runes of the argument
    with the first one replaced by its lower-case form and the others
    unchanged, so that the number of runes is kept, and applying
    [createVarName] twice is the same as applying it once.  On the string
    that encodes the runes [c0 :: rest] the result is the string that
    encodes [ToLower c0 :: rest]. *)
Theorem createVarName_lowers_first_rune :
  createVarName lowerCaseRanges "" = ""
  /\ forall str,
       (str <> "" ->
        exists c0 rest,
          runes_of_string str = c0 :: rest
          /\ createVarName lowerCaseRanges str
             = string_of_runes (ToLower lowerCaseRanges c0 :: rest)
          /\ runes_of_string (createVarName lowerCaseRanges str)
             = ToLower lowerCaseRanges c0 :: rest)
       /\ length (runes_of_string (createVarName lowerCaseRanges str))
          = length (runes_of_string str)
       /\ createVarName lowerCaseRanges (createVarName lowerCaseRanges str)
          = createVarName lowerCaseRanges str
       /\ forall c0 rest,
            str = string_of_runes (c0 :: rest) ->
            Forall (fun r => valid_rune r = true) (c0 :: rest) ->
            createVarName lowerCaseRanges str
            = string_of_runes (ToLower lowerCaseRanges c0 :: rest).
Proof.
  split; [reflexivity|]. intros str.
  assert (Hbytes : forall c0 rest,
            str = string_of_runes (c0 :: rest) ->
            Forall (fun r => valid_rune r = true) (c0 :: rest) ->
            createVarName lowerCaseRanges str
            = string_of_runes (ToLower lowerCaseRanges c0 :: rest)).
  { intros c0 rest -> Hv. apply createVarName_cons.
    rewrite runes_of_string_of_runes. now apply map_written_rune_valid. }
  destruct (runes_of_string str) as [|c0 rest] eqn:E.
  - assert (Hstr : str = "").
    { destruct str as [|a str']; [reflexivity|].
      destruct (runes_of_string_nonempty (String a str')) as (c & r & Hc);
        congruence. }
    subst str. split; [congruence | repeat split; auto].
  - pose proof (createVarName_runes _ _ _ E) as Hr.
    split; [intros _; exists c0, rest; auto using createVarName_cons|].
    split; [now rewrite Hr|]. split; [|exact Hbytes].
    rewrite (createVarName_cons _ _ _ Hr), (createVarName_cons _ _ _ E).
    now rewrite ToLower_idempotent.
Qed.

Lemma string_bytes_string str : string_of_bytes (bytes_of_string str) = str.
Proof.
  unfold string_of_bytes, bytes_of_string. rewrite map_map.
  rewrite <- (string_of_list_ascii_of_string str) at 2. f_equal.
  induction (list_ascii_of_string str) as [|a l IH]; [reflexivity|].
  cbn [map]. rewrite IH. f_equal.
  unfold ascii_of_byte, byte_of_ascii. now rewrite N2Z.id, ascii_N_embedding.
Qed.

Lemma decode_runes_ascii bs :
  Forall (fun b => 0 <= b < 128) bs -> decode_runes bs = bs.
Proof.
  induction 1 as [|b bs Hb _ IH]; [reflexivity|].
  now rewrite decode_one, IH.
Qed.

Lemma encode_runes_ascii rs :
  Forall (fun r => 0 <= r < 128) rs -> flat_map encode_rune rs = rs.
Proof.
  induction 1 as [|r rs Hr _ IH]; [reflexivity|].
  cbn [flat_map]. rewrite IH. unfold encode_rune.
  rewrite (proj2 (valid_rune_spec r)) by lia.
  destruct (Z.leb_spec r 127); [reflexivity | lia].
Qed.

Lemma ToLower_ascii r :
  0 <= r < 128 ->
  ToLower lowerCaseRanges r
  = (if (65 <=? r) && (r <=? 90) then r + 32 else r)
  /\ 0 <= ToLower lowerCaseRanges r < 128.
Proof.
  intros Hr. unfold ToLower, MaxASCII.
  destruct (Z.leb_spec r 127); [|lia].
  destruct (Z.leb_spec 65 r), (Z.leb_spec r 90); cbn [andb]; lia.
Qed.

(** X9.  On a string of ASCII bytes [createVarName] changes the first byte
    only, and only when it is an upper-case letter, which becomes the
    lower-case one; the case table of package [unicode] is not looked
    at. *)
Theorem createVarName_ascii c rest :
  Forall (fun b => b < 128) (bytes_of_string (String c rest)) ->
  createVarName lowerCaseRanges (String c rest)
  = String (if (65 <=? byte_of_ascii c) && (byte_of_ascii c <=? 90)
            then ascii_of_byte (byte_of_ascii c + 32) else c) rest.
Proof.
  intros Hascii.
  assert (Hb : Forall (fun b => 0 <= b < 128) (bytes_of_string (String c rest))).
  { pose proof (bytes_of_string_range (String c rest)) as Hr.
    rewrite Forall_forall in *. intros b Hin.
    specialize (Hascii b Hin). specialize (Hr b Hin). lia. }
  assert (E : runes_of_string (String c rest)
              = byte_of_ascii c :: bytes_of_string rest).
  { unfold runes_of_string. now rewrite decode_runes_ascii. }
  change (bytes_of_string (String c rest))
    with (byte_of_ascii c :: bytes_of_string rest) in Hb.
  apply Forall_cons in Hb as [Hc Hrest].
  rewrite (createVarName_cons _ _ _ E). unfold string_of_runes.
  destruct (ToLower_ascii (byte_of_ascii c) Hc) as [El Hl].
  rewrite encode_runes_ascii by (constructor; assumption).
  change (string_of_bytes (ToLower lowerCaseRanges (byte_of_ascii c)
                             :: bytes_of_string rest))
    with (String (ascii_of_byte (ToLower lowerCaseRanges (byte_of_ascii c)))
            (string_of_bytes (bytes_of_string rest))).
  rewrite string_bytes_string, El. f_equal.
  destruct ((65 <=? byte_of_ascii c) && (byte_of_ascii c <=? 90)); [reflexivity|].
  unfold ascii_of_byte, byte_of_ascii. now rewrite N2Z.id, ascii_N_embedding.
Qed.

Lemma string_of_valid_runes rs :
  Forall (fun r => valid_rune r = true) rs -> valid_utf8 (string_of_runes rs).
Proof.
  intros Hv. unfold valid_utf8.
  now rewrite runes_of_string_of_runes, map_written_rune_valid.
Qed.

(** X10.  What [createVarName] returns is well-formed UTF-8 whatever the
    argument is: bytes of the argument that are no UTF-8 become U+FFFD.
    So an argument that is not well-formed never comes back as it is,
    while a well-formed one whose first rune is its own lower case
    does. *)
Theorem createVarName_is_valid_utf8 str :
  valid_utf8 (createVarName lowerCaseRanges str)
  /\ (~ valid_utf8 str -> createVarName lowerCaseRanges str <> str)
  /\ (valid_utf8 str ->
      forall c0 rest,
        runes_of_string str = c0 :: rest -> ToLower lowerCaseRanges c0 = c0 ->
        createVarName lowerCaseRanges str = str).
Proof.
  assert (Hout : valid_utf8 (createVarName lowerCaseRanges str)).
  { pose proof (runes_of_string_valid str) as Hv.
    destruct (runes_of_string str) as [|c0 rest] eqn:E.
    - unfold createVarName. rewrite E. now apply string_of_valid_runes.
    - rewrite (createVarName_cons _ _ _ E). apply string_of_valid_runes.
      apply Forall_cons in Hv as [Hc Hrest].
      constructor; [now apply ToLower_valid | exact Hrest]. }
  split; [exact Hout|]. split.
  - intros Hnot E. apply Hnot. now rewrite <- E.
  - intros Hstr c0 rest E Hc. rewrite (createVarName_cons _ _ _ E), Hc, <- E.
    exact Hstr.
Qed.

End CreateVarName.

Lemma ascii_only_ToLower_valid r :
  meta.valid_rune r = true ->
  meta.valid_rune (meta.ToLower meta.ascii_only_case_table r) = true.
Proof.
  rewrite !valid_rune_spec. unfold meta.ToLower, meta.ascii_only_case_table, meta.MaxASCII.
  intros Hr. split_tests; lia.
Qed.

Lemma ascii_only_ToLower_idempotent r :
  meta.ToLower meta.ascii_only_case_table (meta.ToLower meta.ascii_only_case_table r)
  = meta.ToLower meta.ascii_only_case_table r.
Proof.
  unfold meta.ToLower, meta.ascii_only_case_table, meta.MaxASCII.
  destruct (Z.leb_spec r 127), (Z.leb_spec 65 r), (Z.leb_spec r 90);
    cbn [andb]; split_tests; lia.
Qed.

Lemma createVarName_lowers_first_rune_witness :
  meta.createVarName meta.ascii_only_case_table "" = ""
  /\ forall str,
       (str <> "" ->
        exists c0 rest,
          meta.runes_of_string str = c0 :: rest
          /\ meta.createVarName meta.ascii_only_case_table str
             = meta.string_of_runes (meta.ToLower meta.ascii_only_case_table c0 :: rest)
          /\ meta.runes_of_string (meta.createVarName meta.ascii_only_case_table str)
             = meta.ToLower meta.ascii_only_case_table c0 :: rest)
       /\ length (meta.runes_of_string (meta.createVarName meta.ascii_only_case_table str))
          = length (meta.runes_of_string str)
       /\ meta.createVarName meta.ascii_only_case_table
            (meta.createVarName meta.ascii_only_case_table str)
          = meta.createVarName meta.ascii_only_case_table str
       /\ forall c0 rest,
            str = meta.string_of_runes (c0 :: rest) ->
            Forall (fun r => meta.valid_rune r = true) (c0 :: rest) ->
            meta.createVarName meta.ascii_only_case_table str
            = meta.string_of_runes
                (meta.ToLower meta.ascii_only_case_table c0 :: rest).
Proof.
  apply (createVarName_lowers_first_rune meta.ascii_only_case_table
           ascii_only_ToLower_valid ascii_only_ToLower_idempotent).
Defined.

Example createVarName_BackendService :
  meta.createVarName meta.ascii_only_case_table "BackendService" = "backendService".
Proof. reflexivity. Qed.

(** * [IsMainService] and [GetCloudProviderName] *)

(** C10. [GetCloudProviderName] returns the wrapper name that
    [MainServices] stores for the receiver's [Name] when there is one and
    panics when there is none; it returns exactly when [IsMainService]
    answers true. *)
Theorem GetCloudProviderName_iff_IsMainService :
  forall (ms : gmap string string) (apiService : meta.ApiService),
    (forall wrapper, ms !! meta.Name apiService = Some wrapper ->
       meta.GetCloudProviderName_in ms apiService = Returned wrapper)
    /\ (ms !! meta.Name apiService = None ->
        exists msg, meta.GetCloudProviderName_in ms apiService = Panicked msg)
    /\ (meta.IsMainService_in ms apiService = true
        <-> exists wrapper,
              meta.GetCloudProviderName_in ms apiService = Returned wrapper)
    /\ (meta.IsMainService_in ms apiService = true
        <-> meta.Name apiService ∈ dom ms).
Proof.
  intros ms apiService.
  unfold meta.GetCloudProviderName_in, meta.IsMainService_in.
  rewrite elem_of_dom.
  destruct (ms !! meta.Name apiService) as [w|] eqn:E.
  - repeat split; eauto; try congruence.
  - repeat split; eauto; try congruence.
    + intros [w Hw]; discriminate.
    + intros [w Hw]; discriminate.
Qed.

(** X11.  [HasUpdate] looks at the name only and is false for the three
    names of [NoUpdate] and for no other; so it is true of every main
    service. *)
Theorem HasUpdate_of_main_services :
  forall apiService : meta.ApiService,
    (meta.HasUpdate apiService = false
     <-> meta.Name apiService
         ∈ ["ForwardingRule"; "TargetHttpProxy"; "TargetHttpsProxy"])
    /\ (meta.IsMainService apiService = true -> meta.HasUpdate apiService = true).
Proof.
  intros apiService. unfold meta.HasUpdate, meta.HasUpdate_in, meta.NoUpdate.
  split.
  - rewrite negb_false_iff, bool_decide_eq_true.
    rewrite !elem_of_union, !elem_of_singleton, !elem_of_cons, elem_of_nil. tauto.
  - unfold meta.IsMainService, meta.IsMainService_in, meta.MainServices.
    destruct (decide (meta.Name apiService = "BackendService")) as [->|Hne].
    + intros _. reflexivity.
    + rewrite lookup_singleton_ne by congruence. discriminate.
Qed.

(** * Properties of the task queue, for every queue behind it *)

Lemma snoc_eq_split {A} (l : list A) e pre x post :
  l ++ [e] = pre ++ x :: post ->
  (post = [] /\ pre = l /\ x = e)
  \/ (exists post0, post = post0 ++ [e] /\ l = pre ++ x :: post0).
Proof.
  intros E. induction post as [|e' post0 _] using rev_ind.
  - left. apply app_inj_tail in E as [-> ->]. auto.
  - right. exists post0.
    change (pre ++ x :: post0 ++ [e']) with (pre ++ (x :: post0) ++ [e']) in E.
    rewrite app_assoc in E. apply app_inj_tail in E as [-> ->]. auto.
Qed.

Lemma app_eq_split {A} (l new pre : list A) x post :
  l ++ new = pre ++ x :: post -> ~ In x new ->
  exists post0, l = pre ++ x :: post0 /\ post = post0 ++ new.
Proof.
  revert post. induction new as [|e new' IH] using rev_ind; intros post E Hx.
  - rewrite app_nil_r in E. exists post. now rewrite app_nil_r.
  - rewrite app_assoc in E.
    apply snoc_eq_split in E as [(_ & _ & ->) | (p0 & -> & E)].
    + exfalso. apply Hx, in_or_app. right. now left.
    + destruct (IH p0 E) as (post0 & -> & ->).
      { intros Hin. apply Hx, in_or_app. now left. }
      exists post0. now rewrite app_assoc.
Qed.

Section TaskQueueFacts.
Import utils.

Context {object W RL Q : Type} `{!RateLimitingInterface RL Q}.
Variable DeletionHandlingMetaNamespaceKeyFunc : object -> string * option error.

Implicit Types (s : @system object W Q) (a : @action object).

Lemma exec_snoc schedule a s :
  exec (schedule ++ [a]) s = step a (exec schedule s).
Proof. unfold exec. now rewrite fold_left_app. Qed.

Lemma exec_app sched1 sched2 s :
  exec (sched1 ++ sched2) s = exec sched2 (exec sched1 s).
Proof. unfold exec. now rewrite fold_left_app. Qed.

Lemma sync_in_progress_snoc evs e :
  sync_in_progress (evs ++ [e])
  = match e with
    | EvSyncBegin key => Some key
    | EvSyncEnd _ _ => None
    | _ => sync_in_progress evs
    end.
Proof. unfold sync_in_progress. now rewrite fold_left_app. Qed.

Lemma worker_events_snoc evs e :
  worker_events (evs ++ [e])
  = worker_events evs ++ (if worker_event e then [e] else []).
Proof. unfold worker_events. now rewrite List.filter_app. Qed.


Lemma transition_stutter s : transition s s.
Proof.
  apply tr_env with (new := []); auto using app_nil_r.
Qed.

Lemma Enqueue_transition objs s : transition s (Enqueue objs s).
Proof.
  enough (H : forall s0, exists new,
             worker (Enqueue objs s0) = worker s0
             /\ stopper (Enqueue objs s0) = stopper s0
             /\ workerDone (tq (Enqueue objs s0)) = workerDone (tq s0)
             /\ events (Enqueue objs s0) = events s0 ++ new
             /\ Forall addition new).
  { destruct (H s) as (new & ? & ? & ? & ? & ?). now apply tr_env with new. }
  induction objs as [|obj objs IH]; intros s0; cbn [Enqueue].
  - exists []. rewrite app_nil_r. auto.
  - destruct (keyFunc (tq s0) obj) as [key [err|]].
    + exists []. cbn. rewrite app_nil_r. auto.
    + destruct (IH (on_queue (Add key) (EvAdd key) s0))
        as (new & Hw & Hs & Hc & He & Hn).
      exists (EvAdd key :: new). rewrite Hw, Hs, Hc, He. cbn.
      rewrite <- app_assoc. repeat split; auto.
      constructor; [now exists key | exact Hn].
Qed.

Lemma Run_step_transition s s' : Run_step s = Some s' -> transition s s'.
Proof.
  unfold Run_step. intros E.
  destruct (worker s) as [|key|key|key [err|]|key| | |] eqn:Hw.
  - destruct (Get (queue (tq s))) as [[key| |] q]; inversion E; subst s'.
    + apply tr_worker with (EvGet (GotItem key)); cbn; auto.
      rewrite Hw. constructor.
    + apply tr_worker with (EvGet GotShutdown); cbn; auto.
      rewrite Hw. constructor.
  - inversion E; subst s'. apply tr_worker with (EvSyncBegin key); cbn; auto.
    rewrite Hw. constructor.
  - destruct (sync (tq s) key (world s)) as [err w]. inversion E; subst s'.
    apply tr_worker with (EvSyncEnd key err); cbn; auto.
    rewrite Hw. constructor.
  - inversion E; subst s'.
    apply tr_worker with (requeue_event key (Some err)); cbn; auto.
    rewrite Hw. constructor.
  - inversion E; subst s'.
    apply tr_worker with (requeue_event key None); cbn; auto.
    rewrite Hw. constructor.
  - inversion E; subst s'. apply tr_worker with (EvDone key); cbn; auto.
    rewrite Hw. constructor.
  - destruct (workerDone (tq s)) eqn:Hc; inversion E; subst s'.
    + apply tr_worker with EvCloseWorkerDone; cbn; auto.
      rewrite Hw, Hc. constructor.
    + now apply tr_crash.
  - discriminate.
  - discriminate.
Qed.

Lemma Shutdown_step_transition s s' : Shutdown_step s = Some s' -> transition s s'.
Proof.
  unfold Shutdown_step. intros E.
  destruct (stopper s) eqn:Hs.
  - inversion E; subst s'. apply tr_stopper with EvShutdownCalled; cbn; auto.
    rewrite Hs. constructor.
  - inversion E; subst s'. apply tr_stopper with EvShutDown; cbn; auto.
    rewrite Hs. constructor.
  - destruct (workerDone (tq s)) eqn:Hc; inversion E; subst s'.
    apply tr_stopper with EvShutdownReturned; cbn; auto.
    rewrite Hs, Hc. constructor.
  - discriminate.
Qed.

Lemma step_transition a s : transition s (step a s).
Proof.
  destruct a as [| |objs| |f]; cbn [step].
  - destruct (Run_step s) as [s'|] eqn:E; cbn.
    + now apply Run_step_transition.
    + apply transition_stutter.
  - destruct (Shutdown_step s) as [s'|] eqn:E; cbn.
    + now apply Shutdown_step_transition.
    + apply transition_stutter.
  - apply Enqueue_transition.
  - apply tr_env with (new := []); cbn; auto using app_nil_r.
  - apply tr_env with (new := []); cbn; auto using app_nil_r.
Qed.

(** An invariant of the transitions that holds at the start holds after
    every schedule. *)
Lemma exec_invariant (P : @system object W Q -> Prop) s0 :
  P s0 -> (forall s s', P s -> transition s s' -> P s') ->
  forall schedule, P (exec schedule s0).
Proof.
  intros H0 Hstep schedule. induction schedule as [|a schedule IH] using rev_ind.
  - exact H0.
  - rewrite exec_snoc. eapply Hstep; [exact IH | apply step_transition].
Qed.

(** The worker's move that records [EvSyncEnd]. *)
Lemma worker_move_end pc pc' key err c c' :
  worker_move pc pc' (EvSyncEnd key err) c c' ->
  pc = InSync key /\ pc' = AtRequeue key err /\ c' = c.
Proof.
  inversion 1; subst; auto.
  match goal with H : requeue_event _ ?e = _ |- _ => destruct e; discriminate H end.
Qed.

Lemma worker_move_event pc pc' e c c' :
  worker_move pc pc' e c c' -> worker_event e = true.
Proof. destruct 1; try reflexivity. now destruct err. Qed.

Lemma stopper_move_event pc pc' e c :
  stopper_move pc pc' e c -> worker_event e = false.
Proof. now destruct 1. Qed.

Lemma worker_events_additions evs new :
  Forall addition new -> worker_events (evs ++ new) = worker_events evs.
Proof.
  intros Hnew. unfold worker_events. rewrite List.filter_app.
  replace (List.filter worker_event new) with (@nil event).
  - apply app_nil_r.
  - induction Hnew as [|e new [key ->] _ IH]; [reflexivity | exact IH].
Qed.

Lemma not_in_additions e new :
  Forall addition new -> (forall key, e <> EvAdd key) -> ~ In e new.
Proof.
  intros Hnew He Hin. rewrite Forall_forall in Hnew.
  apply list_elem_of_In, Hnew in Hin as [key ->]. now apply (He key).
Qed.

(** *** After [sync] has returned

    What the worker does next with the result of [sync(key)]. *)

Lemma requeues_then_done_transition s s' :
  requeues_then_done s -> transition s s' -> requeues_then_done s'.
Proof.
  intros Inv T pre key err post E.
  destruct T as [new Hw Hs Hc He Hn|e Hs He Hm| |e Hw Hc He Hm].
  - rewrite He in E. apply app_eq_split in E as (post0 & E & ->).
    2:{ apply not_in_additions; [exact Hn | discriminate]. }
    rewrite worker_events_additions, Hw by exact Hn. exact (Inv _ _ _ _ E).
  - rewrite He in E.
    apply snoc_eq_split in E as [(-> & -> & <-) | (post0 & -> & E)].
    + left. split; [reflexivity|]. now apply worker_move_end in Hm.
    + rewrite worker_events_snoc, (worker_move_event _ _ _ _ _ Hm).
      destruct (Inv _ _ _ _ E) as [[Hp Hpc] | [[Hp Hpc] | [more Hp]]];
        rewrite Hp.
      * right; left. rewrite Hpc in Hm. now inversion Hm.
      * right; right. exists []. rewrite Hpc in Hm. now inversion Hm.
      * right; right. now exists (more ++ [e]).
  - match goal with H : events s' = events s |- _ => rewrite H in E end.
    destruct (Inv _ _ _ _ E) as [[Hp Hpc] | [[Hp Hpc] | [more Hp]]];
      try congruence.
    right; right. now exists more.
  - rewrite He in E.
    apply snoc_eq_split in E as [(-> & -> & <-) | (post0 & -> & E)].
    + inversion Hm.
    + rewrite worker_events_snoc, (stopper_move_event _ _ _ _ Hm), app_nil_r, Hw.
      exact (Inv _ _ _ _ E).
Qed.

Lemma requeues_then_done_exec s0 schedule :
  events s0 = [] -> requeues_then_done (exec schedule s0).
Proof.
  intros E0. apply exec_invariant.
  - intros pre key err post E. rewrite E0 in E. now destruct pre.
  - apply requeues_then_done_transition.
Qed.

(** *** Shutdown *)

Lemma sync_in_progress_additions evs new :
  Forall addition new -> sync_in_progress (evs ++ new) = sync_in_progress evs.
Proof.
  intros Hnew. unfold sync_in_progress. rewrite fold_left_app.
  generalize (fold_left
    (fun cur e => match e with
                  | EvSyncBegin key => Some key
                  | EvSyncEnd _ _ => None
                  | _ => cur
                  end) evs None).
  induction Hnew as [|e new [key ->] _ IH]; intros cur; [reflexivity|apply IH].
Qed.


Lemma worker_move_in_sync pc pc' e c c' evs :
  worker_move pc pc' e c c' ->
  sync_in_progress evs = in_sync pc ->
  sync_in_progress (evs ++ [e]) = in_sync pc'.
Proof.
  intros Hm IH. rewrite sync_in_progress_snoc.
  destruct Hm; cbn in *; try congruence. destruct err; cbn; congruence.
Qed.


Lemma no_move_from_Exited pc' e c c' : ~ worker_move Exited pc' e c c'.
Proof. inversion 1. Qed.

Lemma no_move_from_ShutdownReturned pc' e c : ~ stopper_move ShutdownReturned pc' e c.
Proof. inversion 1. Qed.

Lemma shutdown_inv_transition s s' :
  shutdown_inv s -> transition s s' -> shutdown_inv s'.
Proof.
  intros [I1 I2 I3 I4 I5 I6 I7] T.
  destruct T as [new Hw Hs Hc He Hn|e Hs He Hm|Hpc Hcl _ _ _ _|e Hw Hc He Hm].
  - (* the environment *)
    assert (Hsr : In EvShutdownReturned (events s') -> In EvShutdownReturned (events s)).
    { rewrite He. intros Hin. apply in_app_or in Hin as [Hin|Hin]; [exact Hin|].
      exfalso. revert Hin. apply not_in_additions; [exact Hn | discriminate]. }
    split; rewrite ?Hw, ?Hs, ?Hc; auto.
    + rewrite He, sync_in_progress_additions by exact Hn. exact I4.
    + intros H. rewrite He. apply in_or_app. left. auto.
    + intros pre post E. rewrite He in E.
      apply app_eq_split in E as (post0 & E & ->).
      2:{ apply not_in_additions; [exact Hn | discriminate]. }
      rewrite worker_events_additions by exact Hn. now apply I7.
  - (* the worker *)
    assert (Hopen : workerDone (tq s) = ChanOpen).
    { destruct (workerDone (tq s)) eqn:Hc; [reflexivity|].
      rewrite (I1 eq_refl) in Hm. now apply no_move_from_Exited in Hm. }
    assert (Hsr : ~ In EvShutdownReturned (events s)).
    { intros Hin. apply I5, I3 in Hin. congruence. }
    split; rewrite ?Hs.
    + intros Hc. inversion Hm; subst; congruence.
    + intros Hpc. rewrite Hpc in Hm. inversion Hm; subst; congruence.
    + intros H. apply I3 in H. congruence.
    + rewrite He. eapply worker_move_in_sync; eauto.
    + rewrite He. intros Hin. apply in_app_or in Hin as [Hin|[->|[]]].
      * now apply I5.
      * now apply worker_move_event in Hm.
    + intros H. rewrite He. apply in_or_app. left. auto.
    + intros pre post E. rewrite He in E.
      apply snoc_eq_split in E as [(-> & -> & <-) | (post0 & -> & E)].
      * now apply worker_move_event in Hm.
      * exfalso. apply Hsr. rewrite E. apply in_or_app. right. now left.
  - (* the crash cannot happen *)
    apply I1 in Hcl. congruence.
  - (* the caller of Shutdown *)
    split; rewrite ?Hw, ?Hc; auto.
    + intros Hpc. rewrite Hpc in Hm. now inversion Hm.
    + rewrite He, sync_in_progress_snoc. destruct Hm; exact I4.
    + rewrite He. intros Hin. apply in_app_or in Hin as [Hin|[->|[]]].
      * apply I5 in Hin. rewrite Hin in Hm.
        now apply no_move_from_ShutdownReturned in Hm.
      * now inversion Hm.
    + rewrite He. intros Hpc. apply in_or_app.
      inversion Hm as [c E1 E2|c E1 E2|E1 E2]; subst.
      * destruct Hpc; congruence.
      * right. now left.
      * left. apply I6. left. congruence.
    + intros pre post E. rewrite He in E.
      apply snoc_eq_split in E as [(-> & -> & <-) | (post0 & -> & E)].
      * inversion Hm as [| |E1 E2 E3 E4].
        split; [apply I6; left; congruence | split; [|reflexivity]].
        rewrite I4, (I1 (eq_sym E4)). reflexivity.
      * exfalso.
        assert (Hin : In EvShutdownReturned (events s)).
        { rewrite E. apply in_or_app. right. now left. }
        apply I5 in Hin. rewrite Hin in Hm.
        now apply no_move_from_ShutdownReturned in Hm.
Qed.

Lemma shutdown_inv_exec s0 schedule :
  workerDone (tq s0) = ChanOpen -> worker s0 = AtGet ->
  stopper s0 = NotCalled -> events s0 = [] ->
  shutdown_inv (exec schedule s0).
Proof.
  intros Hc Hw Hs He. apply exec_invariant.
  - split; rewrite ?Hc, ?Hw, ?Hs, ?He; try discriminate; cbn; try tauto.
    + intros [|]; discriminate.
    + intros pre post E. now destruct pre.
  - apply shutdown_inv_transition.
Qed.

(** *** The worker closes the channel when [Get] reports the shutdown *)

Lemma worker_move_quit pc pc' c c' :
  worker_move pc pc' (EvGet GotShutdown) c c' ->
  pc = AtGet /\ pc' = AtClose /\ c' = c.
Proof.
  inversion 1; subst; auto.
  match goal with H : requeue_event _ ?e = _ |- _ => destruct e; discriminate H end.
Qed.

Lemma worker_move_closing pc pc' c c' :
  worker_move pc pc' EvCloseWorkerDone c c' ->
  pc = AtClose /\ pc' = Exited /\ c = ChanOpen /\ c' = ChanClosed.
Proof.
  inversion 1; subst; auto.
  match goal with H : requeue_event _ ?e = _ |- _ => destruct e; discriminate H end.
Qed.


Lemma close_inv_transition s s' :
  shutdown_inv s -> close_inv s -> transition s s' -> close_inv s'.
Proof.
  intros Hsd [J1 J2 J3] T.
  destruct T as [new Hw Hs Hc He Hn|e Hs He Hm|Hpc Hcl _ _ _ _|e Hw Hc He Hm].
  - split; rewrite ?Hw, ?He.
    + intros pre post E. apply app_eq_split in E as (post0 & E & ->).
      2:{ apply not_in_additions; [exact Hn | discriminate]. }
      rewrite worker_events_additions by exact Hn. now apply J1 with pre.
    + intros pre post E. apply app_eq_split in E as (post0 & E & ->).
      2:{ apply not_in_additions; [exact Hn | discriminate]. }
      now apply J2 with post0.
    + rewrite worker_events_additions by exact Hn. exact J3.
  - split; rewrite ?He.
    + intros pre post E.
      apply snoc_eq_split in E as [(-> & -> & <-) | (post0 & -> & E)].
      * left. apply worker_move_quit in Hm. tauto.
      * rewrite worker_events_snoc, (worker_move_event _ _ _ _ _ Hm).
        destruct (J1 _ _ E) as [[Hp Hpc] | [Hp Hpc]]; rewrite Hp, Hpc in *.
        -- right. inversion Hm; subst. auto.
        -- now apply no_move_from_Exited in Hm.
    + intros pre post E.
      apply snoc_eq_split in E as [(-> & -> & <-) | (post0 & -> & E)].
      * apply worker_move_closing in Hm. apply J3. tauto.
      * now apply J2 with post0.
    + intros Hpc. rewrite Hpc in Hm.
      rewrite worker_events_snoc, (worker_move_event _ _ _ _ _ Hm).
      inversion Hm; subst. now exists (worker_events (events s)).
  - apply (closed_exited _ Hsd) in Hcl. congruence.
  - assert (Hwe : worker_events (events s ++ [e]) = worker_events (events s)).
    { now rewrite worker_events_snoc, (stopper_move_event _ _ _ _ Hm), app_nil_r. }
    split; rewrite ?Hw, ?He.
    + intros pre post E.
      apply snoc_eq_split in E as [(-> & -> & <-) | (post0 & -> & E)].
      * inversion Hm.
      * rewrite worker_events_snoc, (stopper_move_event _ _ _ _ Hm), app_nil_r.
        now apply J1 with pre.
    + intros pre post E.
      apply snoc_eq_split in E as [(-> & -> & <-) | (post0 & -> & E)].
      * inversion Hm.
      * now apply J2 with post0.
    + rewrite Hwe. exact J3.
Qed.

Lemma close_inv_exec s0 schedule :
  workerDone (tq s0) = ChanOpen -> worker s0 = AtGet ->
  stopper s0 = NotCalled -> events s0 = [] ->
  close_inv (exec schedule s0).
Proof.
  intros Hc Hw Hs He.
  enough (H : shutdown_inv (exec schedule s0) /\ close_inv (exec schedule s0))
    by tauto.
  apply exec_invariant with (P := fun s => shutdown_inv s /\ close_inv s).
  - split.
    + apply (shutdown_inv_exec s0 []); assumption.
    + split; rewrite ?Hw, ?He; try discriminate;
        intros pre post E; now destruct pre.
  - intros s s' [H1 H2] T. split.
    + now apply shutdown_inv_transition with s.
    + now apply close_inv_transition with s.
Qed.

(** Once the worker has left [Run], nothing calls [sync] any more. *)
Lemma Exited_transition s s' :
  worker s = Exited -> transition s s' ->
  worker s' = Exited /\ worker_events (events s') = worker_events (events s).
Proof.
  intros Hpc T.
  destruct T as [new Hw Hs Hc He Hn|e Hs He Hm|Hpc' _ _ _ _ _|e Hw Hc He Hm].
  - rewrite Hw, He, worker_events_additions by exact Hn. auto.
  - rewrite Hpc in Hm. now apply no_move_from_Exited in Hm.
  - congruence.
  - rewrite Hw, He, worker_events_snoc, (stopper_move_event _ _ _ _ Hm), app_nil_r.
    auto.
Qed.

Lemma Exited_exec s more :
  worker s = Exited ->
  worker (exec more s) = Exited
  /\ worker_events (events (exec more s)) = worker_events (events s).
Proof.
  intros Hpc. induction more as [|a more IH] using rev_ind; [auto|].
  rewrite exec_snoc. destruct IH as [IH1 IH2].
  destruct (Exited_transition _ _ IH1 (step_transition a (exec more s))) as [H1 H2].
  split; [exact H1 | congruence].
Qed.

Lemma sync_calls_worker_events evs :
  sync_calls (worker_events evs) = sync_calls evs.
Proof.
  unfold sync_calls, worker_events.
  induction evs as [|e evs IH]; [reflexivity|].
  destruct e; cbn; rewrite ?IH; reflexivity.
Qed.

(** What [Enqueue] does: it adds the keys of the objects that come before
    the first failure of the extractor, and touches nothing else. *)
Lemma Enqueue_adds objs s :
  events (Enqueue objs s)
  = events s ++ map EvAdd (keys_until_failure (keyFunc (tq s)) objs)
  /\ queue (tq (Enqueue objs s))
    = fold_left (fun q key => Add key q)
        (keys_until_failure (keyFunc (tq s)) objs) (queue (tq s))
  /\ keyFunc (tq (Enqueue objs s)) = keyFunc (tq s)
  /\ pkg (Enqueue objs s) = pkg s.
Proof.
  revert s. induction objs as [|obj objs IH]; intros s; cbn.
  - now rewrite app_nil_r.
  - destruct (keyFunc (tq s) obj) as [key [err|]]; cbn.
    + now rewrite app_nil_r.
    + destruct (IH (on_queue (Add key) (EvAdd key) s)) as (-> & -> & -> & ->).
      cbn. now rewrite <- app_assoc.
Qed.

Lemma Enqueue_set_worker objs pc s :
  Enqueue objs (set_worker pc s) = set_worker pc (Enqueue objs s).
Proof.
  revert s. induction objs as [|obj objs IH]; intros s; cbn; [reflexivity|].
  destruct (keyFunc (tq s) obj) as [key [err|]]; [reflexivity|].
  now rewrite <- IH.
Qed.

Lemma launch_start (p : @package object) name resource syncFn (rl : RL) (w : W) :
  workerDone (tq (launch p name resource syncFn rl w)) = ChanOpen
  /\ worker (launch p name resource syncFn rl w) = AtGet
  /\ stopper (launch p name resource syncFn rl w) = NotCalled
  /\ events (launch p name resource syncFn rl w) = [].
Proof. repeat split. Qed.

(** C2. [Shutdown] calls [ShutDown] on the queue and then waits for the
    worker: in every execution, when [Shutdown] returns the queue has been
    shut down before, the worker has left [Run] with the channel closed, no
    call of [sync] is in progress (a call that was in progress has
    returned before), and nothing calls [sync] afterwards.  The worker
    closes the channel right after a [Get] that reports the shutdown, and
    only then, and returns. *)
Theorem Shutdown_waits_for_worker :
  forall (p : @package object) name resource syncFn (rl : RL) (w : W) schedule,
    let s := exec schedule (launch p name resource syncFn rl w) in
    (stopper s = AtShutDown ->
       queue (tq (step Stopper s)) = ShutDown (queue (tq s))
       /\ stopper (step Stopper s) = AtWait)
    /\ (stopper s = AtWait ->
        (workerDone (tq s) = ChanOpen -> step Stopper s = s)
        /\ (workerDone (tq s) = ChanClosed ->
            stopper (step Stopper s) = ShutdownReturned))
    /\ (forall pre post,
          events s = pre ++ EvShutdownReturned :: post ->
          In EvShutDown pre /\ sync_in_progress pre = None
          /\ sync_calls post = [] /\ worker_events post = [])
    /\ (stopper s = ShutdownReturned ->
        worker s = Exited /\ workerDone (tq s) = ChanClosed
        /\ sync_in_progress (events s) = None
        /\ forall more,
             sync_calls (events (exec more s)) = sync_calls (events s))
    /\ (forall pre post,
          events s = pre ++ EvGet GotShutdown :: post ->
          (worker_events post = [] /\ worker s = AtClose)
          \/ (worker_events post = [EvCloseWorkerDone] /\ worker s = Exited))
    /\ (forall pre post,
          events s = pre ++ EvCloseWorkerDone :: post ->
          exists before, worker_events pre = before ++ [EvGet GotShutdown])
    /\ (worker s = AtClose ->
        worker (step Worker s) = Exited
        /\ workerDone (tq (step Worker s)) = ChanClosed).
Proof.
  intros p name resource syncFn rl w schedule s.
  destruct (launch_start p name resource syncFn rl w) as (Hc & Hw & Hs & He).
  pose proof (shutdown_inv_exec _ schedule Hc Hw Hs He) as Hsd.
  pose proof (close_inv_exec _ schedule Hc Hw Hs He) as Hcl.
  fold s in Hsd, Hcl. clearbody s.
  destruct Hsd as [I1 I2 I3 I4 I5 I6 I7]. destruct Hcl as [J1 J2 J3].
  repeat apply conj.
  - intros Hpc. cbn. unfold Shutdown_step. rewrite Hpc. cbn. auto.
  - intros Hpc. cbn. unfold Shutdown_step. rewrite Hpc.
    split; intros ->; reflexivity.
  - intros pre post E. destruct (I7 _ _ E) as (H1 & H2 & H3).
    repeat split; auto.
    rewrite <- sync_calls_worker_events, H3. reflexivity.
  - intros Hpc. pose proof (I1 (I3 Hpc)) as Hex.
    repeat split; auto.
    + rewrite I4, Hex. reflexivity.
    + intros more. destruct (Exited_exec s more Hex) as [_ Hev].
      rewrite <- sync_calls_worker_events, Hev.
      apply sync_calls_worker_events.
  - exact J1.
  - exact J2.
  - intros Hpc. cbn. unfold Run_step. rewrite Hpc.
    destruct (workerDone (tq s)) eqn:Hch; cbn; auto.
    specialize (I1 eq_refl). congruence.
Qed.

Lemma Run_step_AtRequeue s key err :
  worker s = AtRequeue key err ->
  exists s1,
    Run_step s = Some s1
    /\ queue (tq s1)
       = match err with
         | Some _ => AddRateLimited key (queue (tq s))
         | None => Forget key (queue (tq s))
         end
    /\ events s1 = events s ++ [requeue_event key err]
    /\ worker s1 = AtDone key.
Proof.
  intros Hpc. unfold Run_step. rewrite Hpc.
  destruct err as [err|]; eexists; (split; [reflexivity|]); cbn; auto.
Qed.

Lemma Run_step_AtDone s key :
  worker s = AtDone key ->
  exists s1,
    Run_step s = Some s1
    /\ queue (tq s1) = Done key (queue (tq s))
    /\ events s1 = events s ++ [EvDone key]
    /\ worker s1 = AtGet.
Proof.
  intros Hpc. unfold Run_step. rewrite Hpc.
  eexists; (split; [reflexivity|]); cbn; auto.
Qed.

Lemma Run_requeue_and_done s key err :
  worker s = AtRequeue key err ->
  let s1 := step Worker s in
  let s2 := step Worker s1 in
  queue (tq s1)
  = match err with
    | Some _ => AddRateLimited key (queue (tq s))
    | None => Forget key (queue (tq s))
    end
  /\ events s1 = events s ++ [requeue_event key err]
  /\ worker s1 = AtDone key
  /\ queue (tq s2) = Done key (queue (tq s1))
  /\ events s2 = events s ++ [requeue_event key err; EvDone key]
  /\ worker s2 = AtGet.
Proof.
  intros Hpc s1 s2. subst s1 s2. cbn [step].
  destruct (Run_step_AtRequeue s key err Hpc) as (s1 & -> & Hq1 & He1 & Hw1).
  cbn [default from_option id].
  destruct (Run_step_AtDone s1 key Hw1) as (s2 & -> & Hq2 & He2 & Hw2).
  cbn [default from_option id]. rewrite He2, He1, <- app_assoc.
  repeat split; assumption.
Qed.

(** C3. When [sync(key)] has returned an error, the next thing the worker
    does is [AddRateLimited(key)], and [Done(key)] after it; both calls
    go through at once when the worker moves.  The error stays with the
    worker: a call of [Enqueue] neither reads nor changes what the worker
    holds. *)
Theorem Run_requeues_failed_key :
  forall (p : @package object) name resource syncFn (rl : RL) (w : W) schedule,
    let s := exec schedule (launch p name resource syncFn rl w) in
    (forall pre key err post,
       events s = pre ++ EvSyncEnd key (Some err) :: post ->
       (worker_events post = [] /\ worker s = AtRequeue key (Some err))
       \/ (worker_events post = [EvAddRateLimited key] /\ worker s = AtDone key)
       \/ (exists more,
             worker_events post = EvAddRateLimited key :: EvDone key :: more))
    /\ (forall key err,
         worker s = AtRequeue key (Some err) ->
         let s1 := step Worker s in
         let s2 := step Worker s1 in
         queue (tq s1) = AddRateLimited key (queue (tq s))
         /\ events s1 = events s ++ [EvAddRateLimited key]
         /\ worker s1 = AtDone key
         /\ queue (tq s2) = Done key (AddRateLimited key (queue (tq s)))
         /\ events s2 = events s ++ [EvAddRateLimited key; EvDone key]
         /\ worker s2 = AtGet)
    /\ (forall objs pc,
         Enqueue objs (set_worker pc s) = set_worker pc (Enqueue objs s)).
Proof.
  intros p name resource syncFn rl w schedule s.
  pose proof (requeues_then_done_exec (launch p name resource syncFn rl w)
                schedule eq_refl) as Inv.
  fold s in Inv. clearbody s. repeat apply conj.
  - intros pre key err post E. exact (Inv _ _ _ _ E).
  - intros key err Hpc s1 s2.
    destruct (Run_requeue_and_done s key (Some err) Hpc)
      as (H1 & H2 & H3 & H4 & H5 & H6).
    fold s1 in H1, H2, H3, H4. fold s1 s2 in H4, H5, H6.
    rewrite H1 in H4. repeat split; assumption.
  - intros objs pc. apply Enqueue_set_worker.
Qed.

(** C4. When [sync(key)] has returned nil, the next thing the worker does
    is [Forget(key)], and [Done(key)] after it: no [AddRateLimited(key)]
    for this dispatch. *)
Theorem Run_forgets_synced_key :
  forall (p : @package object) name resource syncFn (rl : RL) (w : W) schedule,
    let s := exec schedule (launch p name resource syncFn rl w) in
    (forall pre key post,
       events s = pre ++ EvSyncEnd key None :: post ->
       (worker_events post = [] /\ worker s = AtRequeue key None)
       \/ (worker_events post = [EvForget key] /\ worker s = AtDone key)
       \/ (exists more,
             worker_events post = EvForget key :: EvDone key :: more))
    /\ (forall key,
         worker s = AtRequeue key None ->
         let s1 := step Worker s in
         let s2 := step Worker s1 in
         queue (tq s1) = Forget key (queue (tq s))
         /\ events s1 = events s ++ [EvForget key]
         /\ worker s1 = AtDone key
         /\ queue (tq s2) = Done key (Forget key (queue (tq s)))
         /\ events s2 = events s ++ [EvForget key; EvDone key]
         /\ worker s2 = AtGet).
Proof.
  intros p name resource syncFn rl w schedule s.
  pose proof (requeues_then_done_exec (launch p name resource syncFn rl w)
                schedule eq_refl) as Inv.
  fold s in Inv. clearbody s. repeat apply conj.
  - intros pre key post E. exact (Inv _ _ _ _ E).
  - intros key Hpc s1 s2.
    destruct (Run_requeue_and_done s key None Hpc)
      as (H1 & H2 & H3 & H4 & H5 & H6).
    fold s1 in H1, H2, H3, H4. fold s1 s2 in H4, H5, H6.
    rewrite H1 in H4. repeat split; assumption.
Qed.

(** *** What one step does to the queue *)


Lemma Run_step_effect s s' :
  Run_step s = Some s' ->
  exists new, events s' = events s ++ new
              /\ effect (queue (tq s)) new (queue (tq s')).
Proof.
  unfold Run_step. intros E.
  destruct (worker s) as [|key|key|key [err|]|key| | |].
  - destruct (Get (queue (tq s))) as [[key| |] q] eqn:G; inversion E; subst s';
      eexists; (split; [reflexivity|]); cbn.
    + replace q with (snd (Get (queue (tq s)))) by now rewrite G.
      replace (GotItem key) with (fst (Get (queue (tq s)))) by now rewrite G.
      constructor.
    + replace q with (snd (Get (queue (tq s)))) by now rewrite G.
      replace GotShutdown with (fst (Get (queue (tq s)))) by now rewrite G.
      constructor.
  - inversion E; subst s'. eexists; (split; [reflexivity|]); cbn.
    apply ef_silent. repeat constructor.
  - destruct (sync (tq s) key (world s)) as [err w]. inversion E; subst s'.
    eexists; (split; [reflexivity|]); cbn. apply ef_silent. repeat constructor.
  - inversion E; subst s'. eexists; (split; [reflexivity|]); cbn. constructor.
  - inversion E; subst s'. eexists; (split; [reflexivity|]); cbn. constructor.
  - inversion E; subst s'. eexists; (split; [reflexivity|]); cbn. constructor.
  - destruct (workerDone (tq s)); inversion E; subst s'.
    + eexists; (split; [reflexivity|]); cbn. apply ef_silent. repeat constructor.
    + exists []. cbn. rewrite app_nil_r. split; [reflexivity|].
      apply ef_silent. constructor.
  - discriminate.
  - discriminate.
Qed.

Lemma Shutdown_step_effect s s' :
  Shutdown_step s = Some s' ->
  exists new, events s' = events s ++ new
              /\ effect (queue (tq s)) new (queue (tq s')).
Proof.
  unfold Shutdown_step. intros E. destruct (stopper s).
  - inversion E; subst s'. eexists; (split; [reflexivity|]); cbn.
    apply ef_silent. repeat constructor.
  - inversion E; subst s'. eexists; (split; [reflexivity|]); cbn. constructor.
  - destruct (workerDone (tq s)); inversion E; subst s'.
    eexists; (split; [reflexivity|]); cbn. apply ef_silent. repeat constructor.
  - discriminate.
Qed.

Lemma step_effect a s :
  exists new, events (step a s) = events s ++ new
              /\ effect (queue (tq s)) new (queue (tq (step a s))).
Proof.
  assert (Hidle : exists new, events s = events s ++ new
                              /\ effect (queue (tq s)) new (queue (tq s))).
  { exists []. rewrite app_nil_r. split; [reflexivity|].
    apply ef_silent. constructor. }
  destruct a as [| |objs| |f]; cbn [step].
  - destruct (Run_step s) as [s'|] eqn:E; [|exact Hidle].
    now apply Run_step_effect.
  - destruct (Shutdown_step s) as [s'|] eqn:E; [|exact Hidle].
    now apply Shutdown_step_effect.
  - destruct (Enqueue_adds objs s) as (-> & -> & _).
    eexists. split; [reflexivity | constructor].
  - exists []. cbn. rewrite app_nil_r. split; [reflexivity | constructor].
  - exact Hidle.
Qed.

(** A property of the queue and of the events that every effect keeps holds
    after every schedule. *)
Lemma exec_effect_invariant (P : Q -> list event -> Prop) s0 :
  P (queue (tq s0)) (events s0) ->
  (forall q evs new q', P q evs -> effect q new q' -> P q' (evs ++ new)) ->
  forall schedule,
    P (queue (tq (exec schedule s0))) (events (exec schedule s0)).
Proof.
  intros H0 Hstep schedule. induction schedule as [|a schedule IH] using rev_ind.
  - exact H0.
  - rewrite exec_snoc.
    destruct (step_effect a (exec schedule s0)) as (new & -> & Hef).
    eapply Hstep; eauto.
Qed.

(** *** One dispatch, left alone *)

Lemma Run_step_AtGet s :
  worker s = AtGet ->
  match fst (Get (queue (tq s))) with
  | GotNothing => Run_step s = None
  | GotShutdown =>
    exists s1, Run_step s = Some s1
      /\ queue (tq s1) = snd (Get (queue (tq s)))
      /\ events s1 = events s ++ [EvGet GotShutdown]
      /\ worker s1 = AtClose /\ world s1 = world s /\ sync (tq s1) = sync (tq s)
  | GotItem key =>
    exists s1, Run_step s = Some s1
      /\ queue (tq s1) = snd (Get (queue (tq s)))
      /\ events s1 = events s ++ [EvGet (GotItem key)]
      /\ worker s1 = AtSync key /\ world s1 = world s /\ sync (tq s1) = sync (tq s)
  end.
Proof.
  intros Hpc. unfold Run_step. rewrite Hpc.
  destruct (Get (queue (tq s))) as [[key| |] q]; cbn; eauto 10.
Qed.

Lemma Run_step_AtSync s key :
  worker s = AtSync key ->
  exists s1, Run_step s = Some s1
    /\ queue (tq s1) = queue (tq s)
    /\ events s1 = events s ++ [EvSyncBegin key]
    /\ worker s1 = InSync key /\ world s1 = world s /\ sync (tq s1) = sync (tq s).
Proof.
  intros Hpc. unfold Run_step. rewrite Hpc. cbn. eauto 10.
Qed.

Lemma Run_step_InSync s key :
  worker s = InSync key ->
  exists s1, Run_step s = Some s1
    /\ queue (tq s1) = queue (tq s)
    /\ events s1 = events s ++ [EvSyncEnd key (fst (sync (tq s) key (world s)))]
    /\ worker s1 = AtRequeue key (fst (sync (tq s) key (world s)))
    /\ world s1 = snd (sync (tq s) key (world s)).
Proof.
  intros Hpc. unfold Run_step. rewrite Hpc.
  destruct (sync (tq s) key (world s)) as [err w']. cbn. eauto 10.
Qed.

Lemma Run_step_world s s1 :
  Run_step s = Some s1 -> (forall key, worker s <> InSync key) ->
  world s1 = world s.
Proof.
  unfold Run_step. intros E Hpc.
  destruct (worker s) as [|key|key|key [err|]|key| | |];
    try (inversion E; reflexivity); try discriminate.
  - destruct (Get (queue (tq s))) as [[key| |] q]; inversion E; reflexivity.
  - now destruct (Hpc key).
  - destruct (workerDone (tq s)); inversion E; reflexivity.
Qed.

(** The five moves of the worker for one key, from [Get] to [Done]. *)
Lemma Run_dispatch s key :
  worker s = AtGet -> fst (Get (queue (tq s))) = GotItem key ->
  let err := fst (sync (tq s) key (world s)) in
  let s5 := exec (repeat Worker 5) s in
  events s5
  = events s ++ [EvGet (GotItem key); EvSyncBegin key; EvSyncEnd key err;
                 requeue_event key err; EvDone key]
  /\ worker s5 = AtGet
  /\ queue (tq s5)
     = Done key (match err with
                 | Some _ => AddRateLimited key (snd (Get (queue (tq s))))
                 | None => Forget key (snd (Get (queue (tq s))))
                 end)
  /\ world s5 = snd (sync (tq s) key (world s)).
Proof.
  intros Hpc Hget err s5. subst s5. cbn [repeat exec fold_left step].
  pose proof (Run_step_AtGet s Hpc) as H1. rewrite Hget in H1.
  destruct H1 as (s1 & -> & Hq1 & He1 & Hw1 & Hwd1 & Hs1). cbn [default from_option id].
  destruct (Run_step_AtSync s1 key Hw1) as (s2 & -> & Hq2 & He2 & Hw2 & Hwd2 & Hs2).
  cbn [default from_option id].
  destruct (Run_step_InSync s2 key Hw2) as (s3 & -> & Hq3 & He3 & Hw3 & Hwd3).
  cbn [default from_option id].
  rewrite Hs2, Hs1, Hwd2, Hwd1 in He3, Hw3, Hwd3. fold err in He3, Hw3.
  destruct (Run_step_AtRequeue s3 key err Hw3) as (s4 & E4 & Hq4 & He4 & Hw4).
  rewrite E4. cbn [default from_option id].
  destruct (Run_step_AtDone s4 key Hw4) as (s5 & E5 & Hq5 & He5 & Hw5).
  rewrite E5. cbn [default from_option id].
  rewrite He5, He4, He3, He2, He1, <- !app_assoc. cbn [app].
  repeat split; auto.
  - rewrite Hq5, Hq4, Hq3, Hq2, Hq1. reflexivity.
  - rewrite (Run_step_world _ _ E5), (Run_step_world _ _ E4); [exact Hwd3 | |];
      intros k; congruence.
Qed.

(** *** The extractor *)

Lemma Run_step_keyFunc s s' :
  Run_step s = Some s' -> keyFunc (tq s') = keyFunc (tq s).
Proof.
  unfold Run_step. intros E.
  destruct (worker s) as [|key|key|key [err|]|key| | |].
  - destruct (Get (queue (tq s))) as [[key| |] q]; inversion E; reflexivity.
  - inversion E; reflexivity.
  - destruct (sync (tq s) key (world s)). inversion E; reflexivity.
  - inversion E; reflexivity.
  - inversion E; reflexivity.
  - inversion E; reflexivity.
  - destruct (workerDone (tq s)); inversion E; reflexivity.
  - discriminate.
  - discriminate.
Qed.

Lemma Shutdown_step_keyFunc s s' :
  Shutdown_step s = Some s' -> keyFunc (tq s') = keyFunc (tq s).
Proof.
  unfold Shutdown_step. intros E.
  destruct (stopper s); try discriminate; try (inversion E; reflexivity).
  destruct (workerDone (tq s)); inversion E; reflexivity.
Qed.

Lemma step_keyFunc a s : keyFunc (tq (step a s)) = keyFunc (tq s).
Proof.
  destruct a as [| |objs| |f]; cbn [step]; try reflexivity.
  - destruct (Run_step s) as [s'|] eqn:E; [|reflexivity].
    now apply Run_step_keyFunc.
  - destruct (Shutdown_step s) as [s'|] eqn:E; [|reflexivity].
    now apply Shutdown_step_keyFunc.
  - apply Enqueue_adds.
Qed.

Lemma exec_keyFunc schedule s : keyFunc (tq (exec schedule s)) = keyFunc (tq s).
Proof.
  induction schedule as [|a schedule IH] using rev_ind; [reflexivity|].
  now rewrite exec_snoc, step_keyFunc.
Qed.

(** C7. The extractor of a task queue is fixed when the queue is
    constructed: it is the value that the package variable [KeyFunc] holds
    then, which is [cache.DeletionHandlingMetaNamespaceKeyFunc] unless the
    variable has been assigned.  Every later [Enqueue] on this queue
    extracts the keys with that function, also after the package variable
    has been assigned again. *)
Theorem keyFunc_is_chosen_at_construction :
  forall (p : @package object) name resource syncFn (rl : RL) (w : W) schedule,
    let t := NewPeriodicTaskQueueWithLimiter p name resource syncFn rl in
    let s := exec schedule (start p t w) in
    keyFunc t = KeyFunc p
    /\ keyFunc (NewPeriodicTaskQueue (RL := RL) p name resource syncFn) = KeyFunc p
    /\ KeyFunc (package_init DeletionHandlingMetaNamespaceKeyFunc)
       = DeletionHandlingMetaNamespaceKeyFunc
    /\ keyFunc (tq s) = KeyFunc p
    /\ (forall f,
         KeyFunc (pkg (step (AssignKeyFunc f) s)) = f
         /\ keyFunc (tq (step (AssignKeyFunc f) s)) = KeyFunc p)
    /\ (forall objs,
         events (Enqueue objs s)
         = events s ++ map EvAdd (keys_until_failure (KeyFunc p) objs)
         /\ queue (tq (Enqueue objs s))
           = fold_left (fun q key => Add key q)
               (keys_until_failure (KeyFunc p) objs) (queue (tq s))).
Proof.
  intros p name resource syncFn rl w schedule t s.
  assert (Hk : keyFunc (tq s) = KeyFunc p) by apply exec_keyFunc.
  repeat apply conj; try reflexivity; try exact Hk.
  - intros f. split; [reflexivity | exact Hk].
  - intros objs. rewrite <- Hk. split; apply Enqueue_adds.
Qed.

(** *** Failures in a row and calls of [AddRateLimited] *)

Lemma failure_streak_snoc key evs e :
  failure_streak key (evs ++ [e]) = count_sync_end key (failure_streak key evs) e.
Proof. unfold failure_streak. now rewrite fold_left_app. Qed.

Lemma requeue_streak_snoc key evs e :
  requeue_streak key (evs ++ [e]) = count_requeue key (requeue_streak key evs) e.
Proof. unfold requeue_streak. now rewrite fold_left_app. Qed.

Lemma failure_streak_app key evs new :
  failure_streak key (evs ++ new)
  = fold_left (count_sync_end key) new (failure_streak key evs).
Proof. unfold failure_streak. now rewrite fold_left_app. Qed.

Lemma requeue_streak_app key evs new :
  requeue_streak key (evs ++ new)
  = fold_left (count_requeue key) new (requeue_streak key evs).
Proof. unfold requeue_streak. now rewrite fold_left_app. Qed.

Lemma count_sync_end_skip key new n :
  Forall (fun e => forall r, e <> EvSyncEnd key r) new ->
  fold_left (count_sync_end key) new n = n.
Proof.
  intros Hnew. revert n. induction Hnew as [|e new He _ IH]; intros n; [reflexivity|].
  cbn [fold_left]. rewrite IH. destruct e; try reflexivity.
  unfold count_sync_end. destruct err; destruct (decide (key0 = key));
    try reflexivity; subst; now edestruct He.
Qed.

Lemma count_requeue_skip key new n :
  Forall (fun e => e <> EvAddRateLimited key /\ e <> EvForget key) new ->
  fold_left (count_requeue key) new n = n.
Proof.
  intros Hnew. revert n.
  induction Hnew as [|e new [He1 He2] _ IH]; intros n; [reflexivity|].
  cbn [fold_left]. rewrite IH. destruct e; try reflexivity;
    unfold count_requeue; destruct (decide (key0 = key));
    try reflexivity; subst; congruence.
Qed.

Lemma additions_no_sync_end key new :
  Forall addition new -> Forall (fun e => forall r, e <> EvSyncEnd key r) new.
Proof.
  intros H. eapply Forall_impl; [exact H|]. intros e [k ->] r. discriminate.
Qed.

Lemma additions_no_requeue key new :
  Forall addition new ->
  Forall (fun e => e <> EvAddRateLimited key /\ e <> EvForget key) new.
Proof.
  intros H. eapply Forall_impl; [exact H|]. intros e [k ->]. split; discriminate.
Qed.


Lemma streaks_agree_transition key s s' :
  streaks_agree key s -> transition s s' -> streaks_agree key s'.
Proof.
  unfold streaks_agree. intros Inv T.
  destruct T as [new Hw Hs Hc He Hn|e Hs He Hm|Hpc Hcl Hpc' _ _ He|e Hw Hc He Hm].
  - rewrite Hw, He, failure_streak_app, requeue_streak_app.
    rewrite count_sync_end_skip by now apply additions_no_sync_end.
    rewrite count_requeue_skip by now apply additions_no_requeue.
    exact Inv.
  - rewrite He, failure_streak_snoc, requeue_streak_snoc.
    destruct Hm as [c|k c|k c|k err c|k err c|k c|]; cbn in *; try exact Inv.
    + destruct err; cbn; destruct (decide (k = key)); congruence.
    + destruct err; cbn; destruct (decide (k = key)); congruence.
  - rewrite Hpc', He. now rewrite Hpc in Inv.
  - rewrite Hw, He, failure_streak_snoc, requeue_streak_snoc.
    destruct Hm; exact Inv.
Qed.

Lemma streaks_agree_exec key s0 schedule :
  worker s0 = AtGet -> events s0 = [] -> streaks_agree key (exec schedule s0).
Proof.
  intros Hw He. apply exec_invariant.
  - unfold streaks_agree. now rewrite Hw, He.
  - apply streaks_agree_transition.
Qed.

Lemma no_worker_events_no_sync_end key post :
  worker_events post = [] ->
  Forall (fun e => forall r, e <> EvSyncEnd key r) post.
Proof.
  unfold worker_events. intros H. apply Forall_forall. intros e He r ->.
  assert (Hin : In (EvSyncEnd key r) (List.filter worker_event post)).
  { apply filter_In. split; [now apply list_elem_of_In | reflexivity]. }
  now rewrite H in Hin.
Qed.

(** A failure that follows a success is the first of its streak. *)
Lemma failure_after_success key pre mid err post :
  Forall (fun e => forall r, e <> EvSyncEnd key r) mid ->
  worker_events post = [] ->
  failure_streak key
    (pre ++ EvSyncEnd key None :: mid ++ EvSyncEnd key (Some err) :: post) = 1%nat.
Proof.
  intros Hmid Hpost.
  rewrite failure_streak_app. cbn [fold_left].
  rewrite fold_left_app. cbn [fold_left].
  rewrite count_sync_end_skip by now apply no_worker_events_no_sync_end.
  rewrite (count_sync_end_skip key mid) by exact Hmid.
  cbn. now rewrite !decide_True.
Qed.

(** *** [Enqueue], for every extractor *)

Lemma Enqueue_ok (f : object -> string * option error) objs :
  Forall (fun obj => snd (f obj) = None) objs ->
  forall s more,
    keyFunc (tq s) = f ->
    Enqueue (objs ++ more) s = Enqueue more (Enqueue objs s)
    /\ keyFunc (tq (Enqueue objs s)) = f
    /\ events (Enqueue objs s)
       = events s ++ map (fun obj => EvAdd (fst (f obj))) objs
    /\ queue (tq (Enqueue objs s))
       = fold_left (fun q obj => Add (fst (f obj)) q) objs (queue (tq s))
    /\ klog (Enqueue objs s) = klog s.
Proof.
  induction 1 as [|obj objs Hobj _ IH]; intros s more Hf.
  - cbn. now rewrite app_nil_r.
  - cbn [app Enqueue map fold_left]. rewrite Hf.
    destruct (f obj) as [key [err|]] eqn:E; [discriminate|]. cbn [fst].
    destruct (IH (on_queue (Add key) (EvAdd key) s) more Hf)
      as (-> & -> & -> & -> & ->).
    cbn. now rewrite <- app_assoc.
Qed.

(** X12.  [Enqueue] stops at the first object for which the extractor
    fails: the keys of the objects before it are added, in order, one line
    is logged, and the objects after it are not looked at, whatever they
    are. *)
Theorem Enqueue_stops_at_first_failure s pre obj post key err :
  Forall (fun obj => snd (keyFunc (tq s) obj) = None) pre ->
  keyFunc (tq s) obj = (key, Some err) ->
  Enqueue (pre ++ obj :: post) s
  = Errorf ("Couldn't get key for object: " ++ err)%string (Enqueue pre s)
  /\ events (Enqueue (pre ++ obj :: post) s)
     = events s ++ map (fun obj => EvAdd (fst (keyFunc (tq s) obj))) pre
  /\ queue (tq (Enqueue (pre ++ obj :: post) s))
     = fold_left (fun q obj => Add (fst (keyFunc (tq s) obj)) q) pre (queue (tq s))
  /\ klog (Enqueue (pre ++ obj :: post) s)
     = klog s ++ [("Couldn't get key for object: " ++ err)%string].
Proof.
  intros Hpre Hobj.
  destruct (Enqueue_ok _ pre Hpre s (obj :: post) eq_refl)
    as (E & Hf & Hev & Hq & Hlog).
  assert (E' : Enqueue (pre ++ obj :: post) s
               = Errorf ("Couldn't get key for object: " ++ err)%string (Enqueue pre s)).
  { rewrite E. cbn [Enqueue]. now rewrite Hf, Hobj. }
  rewrite E'. cbn [events tq klog Errorf]. now rewrite Hev, Hq, Hlog.
Qed.

(** X13.  When the extractor fails for none of the objects, one call of
    [Enqueue] with all of them does what one call for each of them does,
    one after the other: every key is added, in the order of the objects,
    and nothing is logged. *)
Theorem Enqueue_all_at_once_or_one_by_one s objs more :
  Forall (fun obj => snd (keyFunc (tq s) obj) = None) objs ->
  Enqueue (objs ++ more) s = Enqueue more (Enqueue objs s)
  /\ Enqueue objs s = fold_left (fun s obj => Enqueue [obj] s) objs s
  /\ events (Enqueue objs s)
     = events s ++ map (fun obj => EvAdd (fst (keyFunc (tq s) obj))) objs
  /\ queue (tq (Enqueue objs s))
     = fold_left (fun q obj => Add (fst (keyFunc (tq s) obj)) q) objs (queue (tq s))
  /\ klog (Enqueue objs s) = klog s.
Proof.
  intros Hobjs.
  destruct (Enqueue_ok _ objs Hobjs s more eq_refl) as (E & _ & Hev & Hq & Hlog).
  repeat (split; [assumption|]). split; [|auto].
  clear E Hev Hq Hlog. remember (keyFunc (tq s)) as f eqn:Hf. symmetry in Hf.
  revert s Hf. induction Hobjs as [|obj objs Hobj Hobjs IH]; intros s Hf;
    [reflexivity|].
  assert (Hone : Forall (fun obj => snd (f obj) = None) [obj])
    by (repeat constructor; exact Hobj).
  destruct (Enqueue_ok f [obj] Hone s objs Hf) as (E & Hf' & _).
  change (obj :: objs) with ([obj] ++ objs). rewrite E. cbn [fold_left app].
  now apply IH.
Qed.

(** *** The items, one at a time *)

Lemma omap_additions {A} (f : event -> option A) evs new :
  Forall addition new -> (forall key, f (EvAdd key) = None) ->
  omap f (evs ++ new) = omap f evs.
Proof.
  intros Hnew Hf. rewrite omap_app.
  replace (omap f new) with (@nil A); [now rewrite app_nil_r|].
  induction Hnew as [|e new [key ->] _ IH]; [reflexivity|].
  cbn. now rewrite Hf.
Qed.

Lemma one_at_a_time_transition s s' :
  one_at_a_time s -> transition s s' -> one_at_a_time s'.
Proof.
  intros [H1 H2 H3] [new Hw _ _ He Hnew|e _ He Hm|Hw _ Hw' _ _ He|e Hw _ He Hm].
  - split; rewrite Hw, He; unfold got_items, sync_calls, sync_results, done_calls;
      rewrite !omap_additions by (auto; intros; reflexivity); assumption.
  - remember (worker s) as pc eqn:Hpc. remember (worker s') as pc' eqn:Hpc'.
    remember (workerDone (tq s)) as c eqn:Hc.
    remember (workerDone (tq s')) as c' eqn:Hc'.
    unfold got_items, sync_calls, sync_results, done_calls in H1, H2, H3.
    split; rewrite He, <- ?Hpc'; unfold got_items, sync_calls, sync_results, done_calls;
      rewrite !omap_app, ?map_app;
      destruct Hm as [c|key c|key c|key err c|key err c|key c|];
      try (destruct err); cbn in *; rewrite ?app_nil_r in *;
      rewrite ?H1, ?H2, ?H3; reflexivity.
  - split; rewrite He, Hw'; rewrite Hw in H1, H2, H3; assumption.
  - split; rewrite Hw, He; unfold got_items, sync_calls, sync_results, done_calls in *;
      rewrite !omap_app, ?map_app; inversion Hm; cbn; now rewrite ?app_nil_r.
Qed.

(** X14.  The worker has one item in hand at most.  The items that [Get]
    has handed out are the keys passed to [Done], in the same order, and
    after them the item in hand; [sync] has been entered, and has
    returned, once for each of them and in that order, the item in hand
    apart as long as the worker has not got that far with it. *)
Theorem Run_handles_one_item_at_a_time :
  forall (p : @package object) name resource syncFn (rl : RL) (w : W) schedule,
    let s := exec schedule (launch p name resource syncFn rl w) in
    got_items (events s) = done_calls (events s) ++ in_hand (worker s)
    /\ sync_calls (events s) = done_calls (events s) ++ sync_entered (worker s)
    /\ map fst (sync_results (events s))
       = done_calls (events s) ++ sync_left (worker s).
Proof.
  intros p name resource syncFn rl w schedule s.
  assert (H : one_at_a_time s).
  { apply exec_invariant; [now split | apply one_at_a_time_transition]. }
  destruct H as [H1 H2 H3]. auto.
Qed.

(** *** The channel is closed once *)

Lemma close_calls_snoc evs e :
  close_calls (evs ++ [e]) = close_calls evs + (if is_close e then 1 else 0).
Proof.
  unfold close_calls. rewrite List.filter_app, length_app. cbn [List.filter].
  now destruct (is_close e).
Qed.

Lemma close_calls_additions evs new :
  Forall addition new -> close_calls (evs ++ new) = close_calls evs.
Proof.
  intros Hnew. unfold close_calls. rewrite List.filter_app, length_app.
  replace (List.filter is_close new) with (@nil event); [cbn; lia|].
  induction Hnew as [|e new [key ->] _ IH]; [reflexivity | exact IH].
Qed.

Lemma closes_once_transition s s' :
  closes_once s -> transition s s' -> closes_once s'.
Proof.
  intros [H1 H2 H3] [new Hw _ Hc He Hnew|e _ He Hm|Hw Hc _ _ _ _|e Hw Hc He Hm].
  - split; rewrite ?Hw, ?Hc, ?He, ?close_calls_additions; assumption.
  - remember (worker s) as pc eqn:Hpc. remember (worker s') as pc' eqn:Hpc'.
    remember (workerDone (tq s)) as c eqn:Hc.
    remember (workerDone (tq s')) as c' eqn:Hc'.
    destruct Hm as [c|key c|key c|key err c|key err c|key c|];
      try (destruct err);
      (split; rewrite ?He, ?close_calls_snoc, <- ?Hpc', <- ?Hc'; cbn in *;
       [discriminate | lia | ]);
      try (split; [intros Hcl; apply H3 in Hcl; discriminate | discriminate]).
    split; reflexivity.
  - apply H3 in Hc. congruence.
  - split; rewrite ?Hw, ?Hc, ?He, ?close_calls_snoc; try assumption.
    destruct Hm; cbn; rewrite H2; lia.
Qed.

Lemma closes_once_exec (p : @package object) name resource syncFn (rl : RL) (w : W)
    schedule :
  closes_once (exec schedule (launch p name resource syncFn rl w)).
Proof.
  apply exec_invariant; [|apply closes_once_transition].
  split; cbn; [discriminate | reflexivity | split; discriminate].
Qed.

(** X15.  The worker closes [workerDone] once, when it leaves [Run], and
    at no other time: the channel is closed exactly when [Run] has
    returned, and [Run] never closes a channel that is closed already. *)
Theorem Run_closes_workerDone_once :
  forall (p : @package object) name resource syncFn (rl : RL) (w : W) schedule,
    let s := exec schedule (launch p name resource syncFn rl w) in
    worker s <> Crashed
    /\ close_calls (events s) = match worker s with Exited => 1 | _ => 0 end
    /\ (workerDone (tq s) = ChanClosed <-> worker s = Exited).
Proof.
  intros p name resource syncFn rl w schedule s.
  destruct (closes_once_exec p name resource syncFn rl w schedule) as [H1 H2 H3].
  auto.
Qed.

(** *** The calls of [sync] *)

Lemma replay_snoc (f : string -> W -> option error * W) keys key w results w' :
  replay f keys w = (results, w') ->
  replay f (keys ++ [key]) w
  = (results ++ [(key, fst (f key w'))], snd (f key w')).
Proof.
  revert w results. induction keys as [|k keys IH]; intros w results; cbn.
  - intros [= <- <-]. now destruct (f key w).
  - destruct (f k w) as [err w1].
    destruct (replay f keys w1) as [results1 w2] eqn:E.
    intros [= <- <-]. now rewrite (IH _ _ E).
Qed.

Lemma Enqueue_frame objs s :
  world (Enqueue objs s) = world s /\ sync (tq (Enqueue objs s)) = sync (tq s)
  /\ stopper (Enqueue objs s) = stopper s.
Proof.
  revert s. induction objs as [|obj objs IH]; intros s; cbn; [auto|].
  destruct (keyFunc (tq s) obj) as [key [err|]]; [auto|].
  destruct (IH (on_queue (Add key) (EvAdd key) s)) as (-> & -> & ->). auto.
Qed.

Lemma sync_results_snoc evs e :
  sync_results (evs ++ [e])
  = sync_results evs
    ++ match e with EvSyncEnd key err => [(key, err)] | _ => [] end.
Proof.
  unfold sync_results. rewrite omap_app. f_equal. now destruct e.
Qed.

(** A step leaves the host and the results of [sync] alone, or it is the
    return of one call of [sync]. *)
Lemma step_sync a s :
  sync (tq (step a s)) = sync (tq s)
  /\ ((world (step a s) = world s
       /\ sync_results (events (step a s)) = sync_results (events s))
      \/ exists key,
           world (step a s) = snd (sync (tq s) key (world s))
           /\ sync_results (events (step a s))
              = sync_results (events s)
                ++ [(key, fst (sync (tq s) key (world s)))]).
Proof.
  destruct a as [| |objs| |f]; cbn [step].
  - unfold Run_step.
    destruct (worker s) as [|key|key|key [err|]|key| | |]; cbn;
      try (split; [reflexivity|left; split; [reflexivity|]];
           rewrite ?sync_results_snoc; cbn; now rewrite ?app_nil_r).
    + destruct (Get (queue (tq s))) as [[key| |] q]; cbn;
        (split; [reflexivity|left; split; [reflexivity|]]);
        rewrite ?sync_results_snoc; cbn; now rewrite ?app_nil_r.
    + destruct (sync (tq s) key (world s)) as [err w'] eqn:E. cbn.
      split; [reflexivity|]. right. exists key. rewrite E. cbn.
      split; [reflexivity|]. now rewrite sync_results_snoc.
    + destruct (workerDone (tq s)); cbn;
        (split; [reflexivity|left; split; [reflexivity|]]);
        rewrite ?sync_results_snoc; cbn; now rewrite ?app_nil_r.
  - unfold Shutdown_step.
    destruct (stopper s); cbn;
      try (split; [reflexivity|left; split; [reflexivity|]];
           rewrite ?sync_results_snoc; cbn; now rewrite ?app_nil_r).
    destruct (workerDone (tq s)); cbn;
      (split; [reflexivity|left; split; [reflexivity|]]);
      rewrite ?sync_results_snoc; cbn; now rewrite ?app_nil_r.
  - destruct (Enqueue_frame objs s) as (Hw & Hs & _).
    split; [exact Hs|]. left. split; [exact Hw|].
    destruct (Enqueue_adds objs s) as (-> & _).
    unfold sync_results. apply omap_additions; [|reflexivity].
    apply Forall_forall. intros e He. apply list_elem_of_In, in_map_iff in He.
    destruct He as (key & <- & _). now exists key.
  - cbn. auto.
  - cbn. auto.
Qed.

(** X16.  The callback is the one handed to the constructor, and it is
    called for one key after the other: the results that [sync] has
    returned and the state of the host are those of calling it, in order,
    on the keys for which it has returned, each call from the state that
    the call before left.  Nothing else changes the state of the host. *)
Theorem sync_calls_are_sequential :
  forall (p : @package object) name resource syncFn (rl : RL) (w : W) schedule,
    let s := exec schedule (launch p name resource syncFn rl w) in
    sync (tq s) = syncFn
    /\ replay syncFn (map fst (sync_results (events s))) w
       = (sync_results (events s), world s).
Proof.
  intros p name resource syncFn rl w schedule.
  induction schedule as [|a schedule IH] using rev_ind; cbn zeta in *.
  - split; reflexivity.
  - rewrite exec_snoc. destruct IH as [IH1 IH2].
    destruct (step_sync a (exec schedule (launch p name resource syncFn rl w)))
      as [Hs [[Hw Hr]|(key & Hw & Hr)]].
    + rewrite Hs, Hw, Hr. auto.
    + rewrite Hs, Hw, Hr, map_app, IH1. split; [reflexivity|].
      cbn [map fst]. now apply replay_snoc.
Qed.

(** *** [Shutdown] returns *)

Lemma Run_step_stopper s s' : Run_step s = Some s' -> stopper s' = stopper s.
Proof.
  unfold Run_step. intros E.
  destruct (worker s) as [|key|key|key [err|]|key| | |].
  - destruct (Get (queue (tq s))) as [[key| |] q]; inversion E; reflexivity.
  - inversion E; reflexivity.
  - destruct (sync (tq s) key (world s)). inversion E; reflexivity.
  - inversion E; reflexivity.
  - inversion E; reflexivity.
  - inversion E; reflexivity.
  - destruct (workerDone (tq s)); inversion E; reflexivity.
  - discriminate.
  - discriminate.
Qed.

Lemma exec_Worker_stopper k s : stopper (exec (repeat Worker k) s) = stopper s.
Proof.
  revert s. induction k as [|k IH]; intros s; [reflexivity|].
  cbn [repeat exec fold_left]. fold (exec (repeat Worker k) (step Worker s)).
  rewrite IH. cbn [step].
  destruct (Run_step s) as [s'|] eqn:E; [|reflexivity].
  now apply Run_step_stopper.
Qed.

Section Contract.

Variable shut : Q -> Prop.
Variable remaining : Q -> nat.
Hypothesis contract : shutdown_contract shut remaining.

Lemma shut_after_ShutDown (p : @package object) name resource syncFn (rl : RL) (w : W)
    schedule :
  let s := exec schedule (launch p name resource syncFn rl w) in
  In EvShutDown (events s) -> shut (queue (tq s)).
Proof.
  cbn zeta.
  apply (exec_effect_invariant (fun q evs => In EvShutDown evs -> shut q));
    [intros []|].
  intros q evs new q' IH Hef Hin. apply in_app_or in Hin.
  destruct Hef as [keys q|q|q|key q|key q|key q|q|q new Hnew].
  - destruct Hin as [Hin|Hin].
    + specialize (IH Hin). clear Hin. revert q IH.
      induction keys as [|key keys IHk]; intros q IH; [exact IH|].
      cbn. apply IHk. now apply (Add_shut _ _ contract).
    + apply in_map_iff in Hin as (key & Hkey & _). discriminate.
  - destruct Hin as [Hin|[]]. now apply (Elapse_shut _ _ contract), IH.
  - destruct Hin as [Hin|[Hin|[]]]; [|discriminate].
    now apply (Get_shut _ _ contract), IH.
  - destruct Hin as [Hin|[Hin|[]]]; [|discriminate].
    now apply (AddRateLimited_shut _ _ contract), IH.
  - destruct Hin as [Hin|[Hin|[]]]; [|discriminate].
    now apply (Forget_shut _ _ contract), IH.
  - destruct Hin as [Hin|[Hin|[]]]; [|discriminate].
    now apply (Done_shut _ _ contract), IH.
  - apply (ShutDown_shuts _ _ contract).
  - destruct Hin as [Hin|Hin]; [now apply IH|].
    rewrite Forall_forall in Hnew. apply list_elem_of_In, Hnew in Hin. destruct Hin.
Qed.

Lemma worker_exits (p : @package object) name resource syncFn (rl : RL) (w : W) k :
  forall schedule,
    let s := exec schedule (launch p name resource syncFn rl w) in
    In EvShutDown (events s) ->
    steps_to_exit (worker s) (remaining (queue (tq s))) <= k ->
    worker (exec (repeat Worker k) s) = Exited.
Proof.
  induction k as [|k IH]; intros schedule s Hin Hk.
  - cbn. pose proof (never_crashed _ (closes_once_exec p name resource syncFn rl w
                                       schedule)) as Hnc. fold s in Hnc.
    destruct (worker s); cbn in Hk; try lia; [reflexivity | contradiction].
  - destruct (worker s) eqn:Hpc;
      try (apply Exited_exec; exact Hpc).
    all: cbn [repeat exec fold_left]; fold (exec (repeat Worker k) (step Worker s)).
    all: pose proof (shut_after_ShutDown p name resource syncFn rl w schedule Hin)
           as Hshut; fold s in Hshut.
    all: assert (Hin' : In EvShutDown (events (step Worker s)))
           by (destruct (step_effect Worker s) as (new & -> & _);
               apply in_or_app; now left).
    all: assert (Hs1 : step Worker s
                       = exec (schedule ++ [Worker])
                           (launch p name resource syncFn rl w))
           by (now rewrite exec_snoc).
    all: rewrite Hs1 in Hin' |- *; apply IH; [exact Hin'|]; rewrite <- Hs1;
      clear Hs1 Hin'; cbn [step]; cbn [steps_to_exit] in Hk.
    + pose proof (Run_step_AtGet s Hpc) as Hget.
      destruct (Get_shut _ _ contract _ Hshut) as [_ Hleft].
      destruct (fst (Get (queue (tq s)))) as [key| |]; [| |destruct Hleft].
      * destruct Hget as (s1 & -> & Hq & _ & Hw & _). cbn.
        rewrite Hw, Hq. cbn. lia.
      * destruct Hget as (s1 & -> & Hq & _ & Hw & _). cbn.
        rewrite Hw. cbn. lia.
    + destruct (Run_step_AtSync s _ Hpc) as (s1 & -> & Hq & _ & Hw & _). cbn.
      rewrite Hw, Hq. cbn. lia.
    + destruct (Run_step_InSync s _ Hpc) as (s1 & -> & Hq & _ & Hw & _). cbn.
      rewrite Hw, Hq. cbn. lia.
    + destruct (Run_step_AtRequeue s _ _ Hpc) as (s1 & -> & Hq & _ & Hw). cbn.
      rewrite Hw, Hq. cbn.
      destruct err as [e|].
      * destruct (AddRateLimited_shut _ _ contract key _ Hshut) as [_ Hl]. lia.
      * destruct (Forget_shut _ _ contract key _ Hshut) as [_ Hl]. lia.
    + destruct (Run_step_AtDone s _ Hpc) as (s1 & -> & Hq & _ & Hw). cbn.
      rewrite Hw, Hq. cbn.
      destruct (Done_shut _ _ contract key _ Hshut) as [_ Hl]. lia.
    + pose proof (closed_iff_exited _ (closes_once_exec p name resource syncFn rl w
                                         schedule)) as Hce. fold s in Hce.
      unfold Run_step. rewrite Hpc.
      destruct (workerDone (tq s)); [cbn; lia|].
      destruct Hce as [Hce _]. specialize (Hce eq_refl). congruence.
    + pose proof (never_crashed _ (closes_once_exec p name resource syncFn rl w
                                     schedule)) as Hnc. fold s in Hnc. contradiction.
Qed.

(** X17.  With a queue that keeps the contract of a shutdown, [Shutdown]
    returns: once it waits for the worker, the worker leaves [Run] within
    five steps for each item that the queue still hands out and six more,
    provided that [sync] returns; the channel is closed then, and the next
    step of the caller of [Shutdown] is its return. *)
Theorem Shutdown_returns_when_the_worker_runs :
  forall (p : @package object) name resource syncFn (rl : RL) (w : W) schedule,
    let s := exec schedule (launch p name resource syncFn rl w) in
    stopper s = AtWait ->
    let s' := exec (repeat Worker (5 * remaining (queue (tq s)) + 6)) s in
    shut (queue (tq s))
    /\ worker s' = Exited /\ workerDone (tq s') = ChanClosed
    /\ stopper (step Stopper s') = ShutdownReturned.
Proof.
  intros p name resource syncFn rl w schedule s Hwait s'.
  destruct (launch_start p name resource syncFn rl w) as (L1 & L2 & L3 & L4).
  pose proof (shutdown_inv_exec _ schedule L1 L2 L3 L4) as Hinv. fold s in Hinv.
  assert (Hin : In EvShutDown (events s)).
  { apply (waiting_shutdown _ Hinv). now left. }
  assert (Hexit : worker s' = Exited).
  { apply worker_exits; [exact Hin|]. fold s. destruct (worker s); cbn; lia. }
  assert (Hclosed : workerDone (tq s') = ChanClosed).
  { pose proof (shutdown_inv_exec _
                  (schedule ++ repeat Worker (5 * remaining (queue (tq s)) + 6))
                  L1 L2 L3 L4) as Hinv'.
    rewrite exec_app in Hinv'. fold s in Hinv'. fold s' in Hinv'.
    now apply (exited_closed _ Hinv'). }
  split; [now apply shut_after_ShutDown|].
  split; [exact Hexit|]. split; [exact Hclosed|].
  cbn [step]. unfold Shutdown_step. unfold s' at 1 2.
  rewrite exec_Worker_stopper, Hwait. fold s'. rewrite Hclosed. reflexivity.
Qed.

End Contract.

End TaskQueueFacts.

(** * Properties of the task queue over the queue of the design *)

Section DedupQueue.
Import utils.

Context {object W : Type}.

Implicit Types (q : workqueue.DedupRateLimitedQueue)
  (s : @system object W workqueue.DedupRateLimitedQueue).

Lemma Add_pending q key :
  key ∈ workqueue.PendingSet q -> workqueue.Add key q = q.
Proof. intros Hin. unfold workqueue.Add. now rewrite decide_True. Qed.

Lemma Add_PendingSet q key :
  workqueue.PendingSet (workqueue.Add key q) = workqueue.PendingSet q
  \/ ((key ∉ workqueue.PendingSet q)
      /\ workqueue.PendingSet (workqueue.Add key q)
         = workqueue.PendingSet q ++ [key]).
Proof.
  unfold workqueue.Add.
  destruct (decide (key ∈ workqueue.PendingSet q)); [now left|].
  destruct (decide (key ∈ workqueue.ActiveSet q)); cbn; auto.
Qed.

Lemma NoDup_snoc (l : list string) key : NoDup l -> key ∉ l -> NoDup (l ++ [key]).
Proof.
  intros Hl Hk. apply NoDup_app. repeat split; auto.
  - intros x Hx Hx'. apply list_elem_of_singleton in Hx'. now subst.
  - apply NoDup_singleton.
Qed.

Lemma Add_NoDup q key :
  NoDup (workqueue.PendingSet q) -> NoDup (workqueue.PendingSet (workqueue.Add key q)).
Proof.
  intros Hq. destruct (Add_PendingSet q key) as [-> | [Hk ->]]; [exact Hq|].
  now apply NoDup_snoc.
Qed.

Lemma Adds_NoDup keys q :
  NoDup (workqueue.PendingSet q) ->
  NoDup (workqueue.PendingSet (fold_left (fun q key => workqueue.Add key q) keys q)).
Proof.
  revert q. induction keys as [|key keys IH]; intros q Hq; [exact Hq|].
  cbn. apply IH. now apply Add_NoDup.
Qed.

Lemma Elapse_NoDup q :
  NoDup (workqueue.PendingSet q) -> NoDup (workqueue.PendingSet (workqueue.Elapse q)).
Proof.
  intros Hq. unfold workqueue.Elapse.
  match goal with |- context [fold_left _ ?due ?q0] =>
    generalize due; assert (H0 : NoDup (workqueue.PendingSet q0)) by exact Hq;
    generalize dependent q0 end.
  intros q0 H0 due. revert q0 H0.
  induction due as [|e due IH]; intros q0 H0; [exact H0|].
  cbn. apply IH. now apply Add_NoDup.
Qed.

Lemma effect_NoDup q new q' :
  effect q new q' ->
  NoDup (workqueue.PendingSet q) -> NoDup (workqueue.PendingSet q').
Proof.
  destruct 1 as [keys q| q| q|key q|key q|key q|q|q new Hn]; intros Hq; cbn; auto.
  - now apply Adds_NoDup.
  - now apply Elapse_NoDup.
  - unfold workqueue.Get. destruct (workqueue.closed q); [exact Hq|].
    destruct (workqueue.PendingSet q) as [|k rest] eqn:E; cbn; [now rewrite E|].
    now apply NoDup_cons in Hq.
  - unfold workqueue.Done.
    destruct (decide (key ∈ workqueue.deferred q)); cbn; [|exact Hq].
    destruct (decide (key ∈ workqueue.PendingSet q)); [exact Hq|].
    now apply NoDup_snoc.
Qed.

Lemma launch_queue (p : @package object) name resource syncFn rl (w : W) :
  queue (tq (launch p name resource syncFn rl w)) = workqueue.NewRateLimitingQueue rl.
Proof.
  unfold launch, start, NewPeriodicTaskQueueWithLimiter. cbn.
  now destruct (String.eqb name "").
Qed.

(** A worker that finds the queue empty and open stays in [Get]. *)
Lemma Run_blocked s n :
  worker s = AtGet -> workqueue.PendingSet (queue (tq s)) = [] ->
  workqueue.closed (queue (tq s)) = false ->
  exec (repeat Worker n) s = s.
Proof.
  intros Hpc Hp Hc. induction n as [|n IH]; [reflexivity|].
  cbn [repeat exec fold_left]. change (fold_left _ ?l ?x) with (exec l x).
  replace (step Worker s) with s; [exact IH|].
  cbn [step]. pose proof (Run_step_AtGet s Hpc) as H. cbn in H.
  unfold workqueue.Get in H. rewrite Hc, Hp in H. cbn in H. now rewrite H.
Qed.

Lemma dedup_one_dispatch (p : @package object) name resource syncFn rl (w : W)
    producers key n :
  events (exec producers (launch p name resource syncFn rl w))
    = [EvAdd key; EvAdd key] ->
  queue (tq (exec producers (launch p name resource syncFn rl w)))
    = workqueue.Add key (workqueue.Add key (workqueue.NewRateLimitingQueue rl)) ->
  worker (exec producers (launch p name resource syncFn rl w)) = AtGet ->
  sync_calls
    (events (exec (producers ++ repeat Worker (5 + n))
               (launch p name resource syncFn rl w))) = [key].
Proof.
  intros He Hq Hpc. rewrite exec_app.
  set (s1 := exec producers (launch p name resource syncFn rl w)) in *.
  clearbody s1.
  assert (Hq1 : queue (tq s1)
                = {| workqueue.PendingSet := [key]; workqueue.ActiveSet := ∅;
                     workqueue.deferred := ∅; workqueue.scheduled := [];
                     workqueue.RateLimiterState := ∅; workqueue.backoff := rl;
                     workqueue.closed := false |}).
  { rewrite Hq. rewrite (Add_pending (workqueue.Add _ _)).
    - unfold workqueue.Add. cbn.
      rewrite decide_False by apply not_elem_of_nil.
      now rewrite decide_False by apply not_elem_of_empty.
    - unfold workqueue.Add. cbn.
      rewrite decide_False by apply not_elem_of_nil.
      rewrite decide_False by apply not_elem_of_empty.
      cbn. apply list_elem_of_singleton. reflexivity. }
  change (repeat Worker (5 + n)) with (repeat (@Worker object) 5 ++ repeat Worker n).
  rewrite exec_app.
  assert (Hget : fst (Get (queue (tq s1))) = GotItem key) by now rewrite Hq1.
  destruct (Run_dispatch s1 key Hpc Hget) as (He5 & Hw5 & Hq5 & _).
  set (s5 := exec (repeat Worker 5) s1) in *. clearbody s5.
  rewrite Run_blocked; auto.
  - rewrite He5, He. cbn. destruct (fst (sync (tq s1) key (world s1))); reflexivity.
  - rewrite Hq5, Hq1. cbn.
    destruct (fst (sync (tq s1) key (world s1))); cbn;
      unfold workqueue.Done; cbn;
      now rewrite decide_False by apply not_elem_of_empty.
  - rewrite Hq5, Hq1. cbn.
    destruct (fst (sync (tq s1) key (world s1))); cbn;
      unfold workqueue.Done; cbn;
      now rewrite decide_False by apply not_elem_of_empty.
Qed.

(** C5. The pending set never holds a key twice, and [Add] of a key that is
    pending changes nothing.  So when two objects with the same key are
    enqueued before the worker gets to the key, in one call or in two, the
    worker calls [sync] for the key once. *)
Theorem Enqueue_same_key_one_Sync :
  forall (p : @package object) name resource syncFn rl (w : W),
    (forall schedule,
       NoDup (workqueue.PendingSet
                (queue (tq (exec schedule (launch p name resource syncFn rl w))))))
    /\ (forall q key, key ∈ workqueue.PendingSet q -> Add key q = q)
    /\ (forall a b key n,
         KeyFunc p a = (key, None) -> KeyFunc p b = (key, None) ->
         sync_calls
           (events (exec (Producer [a; b] :: repeat Worker (5 + n))
                      (launch p name resource syncFn rl w))) = [key]
         /\ sync_calls
             (events (exec (Producer [a] :: Producer [b] :: repeat Worker (5 + n))
                        (launch p name resource syncFn rl w))) = [key]).
Proof.
  intros p name resource syncFn rl w. repeat apply conj.
  - intros schedule.
    apply (exec_effect_invariant
             (fun q _ => NoDup (workqueue.PendingSet q))).
    + rewrite launch_queue. constructor.
    + intros q evs new q' Hq Hef. now apply effect_NoDup with q new.
  - intros q key. apply Add_pending.
  - intros a b key n Ha Hb. split.
    + apply (dedup_one_dispatch p name resource syncFn rl w [Producer [a; b]]).
      * cbn. now rewrite Ha, Hb.
      * cbn. rewrite Ha. cbn. rewrite Hb. cbn.
        now destruct (String.eqb name "").
      * cbn. rewrite Ha. cbn. now rewrite Hb.
    + apply (dedup_one_dispatch p name resource syncFn rl w
               [Producer [a]; Producer [b]]).
      * cbn. rewrite Ha. cbn. now rewrite Hb.
      * cbn. rewrite Ha. cbn. rewrite Hb. cbn.
        now destruct (String.eqb name "").
      * cbn. rewrite Ha. cbn. now rewrite Hb.
Qed.

(** *** The limiter *)

Lemma Add_limiter q key :
  workqueue.RateLimiterState (workqueue.Add key q) = workqueue.RateLimiterState q
  /\ workqueue.backoff (workqueue.Add key q) = workqueue.backoff q
  /\ workqueue.scheduled (workqueue.Add key q) = workqueue.scheduled q.
Proof.
  unfold workqueue.Add.
  destruct (decide (key ∈ workqueue.PendingSet q)); [auto|].
  destruct (decide (key ∈ workqueue.ActiveSet q)); cbn; auto.
Qed.

Lemma Adds_limiter {A} (f : A -> string) (l : list A) q :
  workqueue.RateLimiterState (fold_left (fun q e => workqueue.Add (f e) q) l q)
  = workqueue.RateLimiterState q
  /\ workqueue.backoff (fold_left (fun q e => workqueue.Add (f e) q) l q)
     = workqueue.backoff q.
Proof.
  revert q. induction l as [|e l IH]; intros q; [auto|].
  cbn [fold_left]. destruct (IH (workqueue.Add (f e) q)) as [-> ->].
  split; apply Add_limiter.
Qed.

Lemma Elapse_limiter q :
  workqueue.RateLimiterState (workqueue.Elapse q) = workqueue.RateLimiterState q
  /\ workqueue.backoff (workqueue.Elapse q) = workqueue.backoff q.
Proof.
  unfold workqueue.Elapse.
  match goal with |- context [fold_left (fun q e => workqueue.Add (fst e) q) ?l ?q0] =>
    destruct (Adds_limiter fst l q0) as [-> ->] end.
  auto.
Qed.

Lemma Get_limiter q :
  workqueue.RateLimiterState (snd (workqueue.Get q)) = workqueue.RateLimiterState q
  /\ workqueue.backoff (snd (workqueue.Get q)) = workqueue.backoff q.
Proof.
  unfold workqueue.Get. destruct (workqueue.closed q); [auto|].
  destruct (workqueue.PendingSet q); auto.
Qed.

Lemma Done_limiter q key :
  workqueue.RateLimiterState (workqueue.Done key q) = workqueue.RateLimiterState q
  /\ workqueue.backoff (workqueue.Done key q) = workqueue.backoff q.
Proof.
  unfold workqueue.Done. destruct (decide (key ∈ workqueue.deferred q)); auto.
Qed.

Lemma attempts_AddRateLimited q k key :
  workqueue.attempts key (workqueue.AddRateLimited k q)
  = if decide (k = key) then S (workqueue.attempts key q)
    else workqueue.attempts key q.
Proof.
  unfold workqueue.attempts, workqueue.AddRateLimited. cbn.
  destruct (decide (k = key)) as [->|Hne].
  - now rewrite lookup_insert_eq.
  - now rewrite lookup_insert_ne.
Qed.

Lemma attempts_Forget q k key :
  workqueue.attempts key (workqueue.Forget k q)
  = if decide (k = key) then 0%nat else workqueue.attempts key q.
Proof.
  unfold workqueue.attempts, workqueue.Forget. cbn.
  destruct (decide (k = key)) as [->|Hne].
  - now rewrite lookup_delete_eq.
  - now rewrite lookup_delete_ne.
Qed.

Lemma queue_silent_no_requeue key new :
  Forall queue_silent new ->
  Forall (fun e => e <> EvAddRateLimited key /\ e <> EvForget key) new.
Proof.
  intros H. eapply Forall_impl; [exact H|]. intros e He.
  split; intros ->; exact He.
Qed.

(** The attempts that the limiter holds for a key are the calls of
    [AddRateLimited] for it since the last [Forget]; the policy stays the
    one given at construction. *)
Lemma effect_limiter key rl q evs new q' :
  effect q new q' ->
  workqueue.attempts key q = requeue_streak key evs /\ workqueue.backoff q = rl ->
  workqueue.attempts key q' = requeue_streak key (evs ++ new)
  /\ workqueue.backoff q' = rl.
Proof.
  intros Hef [Ha Hb].
  destruct Hef as [keys q| q| q|k q|k q|k q|q|q new Hn]; cbn.
  - destruct (Adds_limiter (fun k => k) keys q) as [E1 E2].
    unfold workqueue.attempts. rewrite E1, E2.
    rewrite requeue_streak_app, count_requeue_skip; [auto|].
    apply Forall_forall. intros e He.
    apply list_elem_of_In, in_map_iff in He as (k & <- & _). split; discriminate.
  - rewrite app_nil_r. destruct (Elapse_limiter q) as [E1 E2].
    unfold workqueue.attempts. rewrite E1, E2. auto.
  - destruct (Get_limiter q) as [E1 E2].
    unfold workqueue.attempts. rewrite E1, E2, requeue_streak_snoc. auto.
  - rewrite attempts_AddRateLimited, requeue_streak_snoc. cbn.
    destruct (decide (k = key)); auto.
  - rewrite attempts_Forget, requeue_streak_snoc. cbn.
    destruct (decide (k = key)); auto.
  - destruct (Done_limiter q k) as [E1 E2].
    unfold workqueue.attempts. rewrite E1, E2, requeue_streak_snoc. auto.
  - rewrite requeue_streak_snoc. auto.
  - rewrite requeue_streak_app, count_requeue_skip; [auto|].
    now apply queue_silent_no_requeue.
Qed.

Lemma limiter_exec (p : @package object) name resource syncFn rl (w : W) schedule key :
  let s := exec schedule (launch p name resource syncFn rl w) in
  workqueue.attempts key (queue (tq s)) = requeue_streak key (events s)
  /\ workqueue.backoff (queue (tq s)) = rl.
Proof.
  apply (exec_effect_invariant
           (fun q evs => workqueue.attempts key q = requeue_streak key evs
                         /\ workqueue.backoff q = rl)).
  - rewrite launch_queue. auto.
  - intros q evs new q' Hq Hef. now apply effect_limiter with q.
Qed.

(** The limiter goes down for a key only by a [Forget] of that key. *)
Lemma effect_attempts_down key q new q' :
  effect q new q' ->
  (workqueue.attempts key q <= workqueue.attempts key q')%nat
  \/ (new = [EvForget key] /\ workqueue.attempts key q' = 0%nat).
Proof.
  intros Hef.
  destruct Hef as [keys q| q| q|k q|k q|k q|q|q new Hn]; cbn.
  - destruct (Adds_limiter (fun k => k) keys q) as [E1 _].
    unfold workqueue.attempts. rewrite E1. auto.
  - destruct (Elapse_limiter q) as [E1 _].
    unfold workqueue.attempts. rewrite E1. auto.
  - destruct (Get_limiter q) as [E1 _].
    unfold workqueue.attempts. rewrite E1. auto.
  - rewrite attempts_AddRateLimited. destruct (decide (k = key)); auto.
  - rewrite attempts_Forget. destruct (decide (k = key)) as [->|]; auto.
  - destruct (Done_limiter q k) as [E1 _].
    unfold workqueue.attempts. rewrite E1. auto.
  - auto.
  - auto.
Qed.

(** C6. The limiter holds for every key the failures of [sync] in a row
    that the worker has requeued.  A success sets it back to the base state
    (by [Forget]), a failure moves it up by one (by [AddRateLimited]) and
    schedules the key with the delay of the attempts so far, and nothing
    else makes it go down.  Hence a failure that follows a success is
    scheduled with the base delay. *)
Theorem limiter_reset_on_success :
  forall (p : @package object) name resource syncFn rl (w : W) schedule key,
    let s := exec schedule (launch p name resource syncFn rl w) in
    let q := queue (tq s) in
    ((forall r, worker s <> AtRequeue key r) ->
       workqueue.attempts key q = failure_streak key (events s))
    /\ (worker s = AtRequeue key None ->
        failure_streak key (events s) = 0%nat
        /\ workqueue.RateLimiterState (queue (tq (step Worker s))) !! key = None
        /\ workqueue.attempts key (queue (tq (step Worker s))) = 0%nat)
    /\ (forall err,
         worker s = AtRequeue key (Some err) ->
         failure_streak key (events s) = S (workqueue.attempts key q)
         /\ workqueue.attempts key (queue (tq (step Worker s)))
            = S (workqueue.attempts key q)
         /\ workqueue.scheduled (queue (tq (step Worker s)))
            = workqueue.scheduled q ++ [(key, rl (workqueue.attempts key q))])
    /\ (forall a,
         (workqueue.attempts key q
          <= workqueue.attempts key (queue (tq (step a s))))%nat
         \/ (events (step a s) = events s ++ [EvForget key]
             /\ workqueue.attempts key (queue (tq (step a s))) = 0%nat))
    /\ (forall pre mid err post,
         events s
         = pre ++ EvSyncEnd key None :: mid ++ EvSyncEnd key (Some err) :: post ->
         Forall (fun e => forall r, e <> EvSyncEnd key r) mid ->
         worker_events post = [] ->
         workqueue.scheduled (queue (tq (step Worker s)))
         = workqueue.scheduled q ++ [(key, rl 0%nat)]).
Proof.
  intros p name resource syncFn rl w schedule key s q.
  destruct (limiter_exec p name resource syncFn rl w schedule key) as [Ha Hb].
  pose proof (streaks_agree_exec key (launch p name resource syncFn rl w)
                schedule eq_refl eq_refl) as Hst.
  pose proof (requeues_then_done_exec (launch p name resource syncFn rl w)
                schedule eq_refl) as Hrq.
  fold s in Ha, Hb, Hst, Hrq. fold q in Ha, Hb. unfold streaks_agree in Hst.
  assert (Hfail : forall err, worker s = AtRequeue key (Some err) ->
            failure_streak key (events s) = S (workqueue.attempts key q)
            /\ workqueue.attempts key (queue (tq (step Worker s)))
               = S (workqueue.attempts key q)
            /\ workqueue.scheduled (queue (tq (step Worker s)))
               = workqueue.scheduled q ++ [(key, rl (workqueue.attempts key q))]).
  { intros err Hpc. rewrite Hpc, decide_True in Hst by reflexivity.
    destruct (Run_requeue_and_done s key (Some err) Hpc) as (H1 & _).
    cbn zeta in H1. rewrite H1. cbn.
    rewrite attempts_AddRateLimited, decide_True by reflexivity.
    fold q. rewrite Hb. split; [congruence | auto]. }
  repeat apply conj.
  - intros Hpc. rewrite Ha.
    destruct (worker s) as [|k|k|k [e|]|k| | |]; try (symmetry; exact Hst).
    + rewrite decide_False in Hst; [now symmetry|].
      intros ->. now apply (Hpc (Some e)).
    + rewrite decide_False in Hst; [now symmetry|].
      intros ->. now apply (Hpc None).
  - intros Hpc. rewrite Hpc, decide_True in Hst by reflexivity.
    destruct (Run_requeue_and_done s key None Hpc) as (H1 & _).
    cbn zeta in H1. rewrite H1. cbn.
    split; [exact Hst|]. split.
    + apply lookup_delete_eq.
    + now rewrite attempts_Forget, decide_True.
  - exact Hfail.
  - intros a. destruct (step_effect a s) as (new & He & Hef).
    destruct (effect_attempts_down key _ _ _ Hef) as [Hle | [-> H0]].
    + now left.
    + right. split; assumption.
  - intros pre mid err post E Hmid Hpost.
    assert (Hpc : worker s = AtRequeue key (Some err)).
    { change (pre ++ EvSyncEnd key None :: mid ++ EvSyncEnd key (Some err) :: post)
        with (pre ++ (EvSyncEnd key None :: mid) ++ EvSyncEnd key (Some err) :: post)
        in E.
      rewrite app_assoc in E.
      destruct (Hrq _ _ _ _ E) as [[_ H] | [[H _] | [more H]]];
        [exact H | |]; rewrite Hpost in H; discriminate. }
    destruct (Hfail err Hpc) as (H1 & _ & H3).
    rewrite E, failure_after_success in H1 by assumption.
    rewrite H3. now inversion H1.
Qed.

End DedupQueue.

(** * [Enqueue] and an object without a key *)

Section EnqueueFailure.
Import utils.

(** When the extractor fails for the first object, [Enqueue] logs the
    failure and returns: the queue is as before, whatever objects follow. *)
Lemma Enqueue_failure_returns {object W RL Q : Type} `{!RateLimitingInterface RL Q}
    (s : @system object W Q) obj objs key err :
  keyFunc (tq s) obj = (key, Some err) ->
  Enqueue (obj :: objs) s = Errorf ("Couldn't get key for object: " ++ err) s.
Proof. intros E. cbn. now rewrite E. Qed.

(** C1, on the code.  [Enqueue(a, b)] where no key can be extracted from
    [a]: the failure is logged, and [b] is not added; the worker finds the
    queue empty and [sync] is never called for [b].  With the two objects
    in the other order, [b] is added. *)
Theorem Enqueue_drops_objects_after_failure :
  let a := example.Keyless in
  let b := example.Named "ns" "b" in
  let s := Enqueue [a; b] (example.booted example.sync_ok) in
  workqueue.PendingSet (queue (tq s)) = []
  /\ events s = []
  /\ klog s = ["Couldn't get key for object: object has no meta"]
  /\ (forall n,
        world (exec (Producer [a; b] :: repeat Worker n)
                 (example.booted example.sync_ok)) = [])
  /\ workqueue.PendingSet
       (queue (tq (Enqueue [b; a] (example.booted example.sync_ok)))) = ["ns/b"]
  /\ workqueue.PendingSet
       (queue (tq (Enqueue [b] (example.booted example.sync_ok)))) = ["ns/b"].
Proof.
  cbn zeta. repeat apply conj; try reflexivity.
  intros n. cbn [exec fold_left step]. change (fold_left _ ?l ?x) with (exec l x).
  now rewrite Run_blocked.
Qed.

End EnqueueFailure.

(** * [populateApiServices] *)

(** ** The order of Go strings *)

Lemma ascii_compare_refl c : Ascii.compare c c = Eq.
Proof. unfold Ascii.compare. apply N.compare_refl. Qed.

Lemma string_compare_refl s : String.compare s s = Eq.
Proof.
  induction s as [|c s IH]; [reflexivity|]. cbn. now rewrite ascii_compare_refl.
Qed.

Lemma ascii_compare_eq c1 c2 : Ascii.compare c1 c2 = Eq -> c1 = c2.
Proof. apply Ascii.compare_eq_iff. Qed.

Lemma string_compare_lt_trans s1 s2 s3 :
  String.compare s1 s2 = Lt -> String.compare s2 s3 = Lt ->
  String.compare s1 s3 = Lt.
Proof.
  revert s2 s3. induction s1 as [|c1 s1 IH]; intros [|c2 s2] [|c3 s3]; cbn;
    try discriminate; try reflexivity.
  unfold Ascii.compare.
  destruct (N.compare_spec (N_of_ascii c1) (N_of_ascii c2)) as [E12|L12|G12];
    try discriminate;
    destruct (N.compare_spec (N_of_ascii c2) (N_of_ascii c3)) as [E23|L23|G23];
    try discriminate; intros H12 H23.
  - rewrite <- E23, E12, N.compare_refl. eauto.
  - rewrite E12. now apply N.compare_lt_iff in L23 as ->.
  - rewrite <- E23. now apply N.compare_lt_iff in L12 as ->.
  - assert (L13 : (N_of_ascii c1 < N_of_ascii c3)%N) by lia.
    now apply N.compare_lt_iff in L13 as ->.
Qed.

Lemma string_ltb_irrefl s : String.ltb s s = false.
Proof. unfold String.ltb. now rewrite string_compare_refl. Qed.

Lemma string_ltb_trans s1 s2 s3 :
  String.ltb s1 s2 = true -> String.ltb s2 s3 = true -> String.ltb s1 s3 = true.
Proof.
  unfold String.ltb. intros H12 H23.
  destruct (String.compare s1 s2) eqn:E12; try discriminate.
  destruct (String.compare s2 s3) eqn:E23; try discriminate.
  now rewrite (string_compare_lt_trans _ _ _ E12 E23).
Qed.

Lemma string_ltb_asym s1 s2 : String.ltb s1 s2 = true -> String.ltb s2 s1 = false.
Proof.
  unfold String.ltb. rewrite (String.compare_antisym s2 s1).
  now destruct (String.compare s1 s2).
Qed.

(** Two strings of which neither is less than the other are the same. *)
Lemma string_ltb_total s1 s2 :
  String.ltb s1 s2 = false -> String.ltb s2 s1 = false -> s1 = s2.
Proof.
  unfold String.ltb. rewrite (String.compare_antisym s2 s1).
  destruct (String.compare s1 s2) eqn:E; cbn; try discriminate.
  intros _ _. now apply String.compare_eq_iff.
Qed.

Lemma string_not_ltb_trans s1 s2 s3 :
  String.ltb s2 s1 = false -> String.ltb s3 s2 = false -> String.ltb s3 s1 = false.
Proof.
  intros H21 H32.
  destruct (String.ltb s3 s1) eqn:H31; [|reflexivity].
  destruct (String.ltb s1 s2) eqn:H12.
  - now rewrite (string_ltb_trans _ _ _ H31 H12) in H32.
  - rewrite (string_ltb_total _ _ H12 H21) in H31. congruence.
Qed.

(** ** Sorting by [Name] *)

Section SortFacts.
Import meta.

Lemma name_le_trans a b c : name_le a b -> name_le b c -> name_le a c.
Proof. unfold name_le, less_Name. apply string_not_ltb_trans. Qed.

Lemma name_lt_le a b : name_lt a b -> name_le a b.
Proof. unfold name_lt, name_le, less_Name. apply string_ltb_asym. Qed.

Lemma name_le_antisym a b : name_le a b -> name_le b a -> Name a = Name b.
Proof. unfold name_le, less_Name. intros H1 H2. now apply string_ltb_total. Qed.

Lemma name_le_neq_lt a b : name_le a b -> Name a <> Name b -> name_lt a b.
Proof.
  unfold name_le, name_lt, less_Name. intros H1 Hne.
  destruct (String.ltb (Name a) (Name b)) eqn:H2; [reflexivity|].
  now destruct Hne; apply string_ltb_total.
Qed.

Lemma move_left_Permutation x before :
  move_left less_Name x before ≡ₚ x :: before.
Proof.
  induction before as [|y before IH]; cbn; [reflexivity|].
  destruct (less_Name x y); [|reflexivity].
  rewrite IH. apply perm_swap.
Qed.

(** [before] holds what is to the left, nearest first: it is sorted when
    no element is less than one that comes after it in this list. *)
Lemma move_left_sorted x before :
  StronglySorted (flip name_le) before ->
  StronglySorted (flip name_le) (move_left less_Name x before).
Proof.
  induction 1 as [|y before Hs IH Hy]; cbn.
  - repeat constructor.
  - destruct (less_Name x y) eqn:Hxy.
    + constructor; [exact IH|].
      rewrite move_left_Permutation. constructor; [|exact Hy].
      apply name_lt_le. exact Hxy.
    + constructor; [now constructor|].
      constructor; [exact Hxy|].
      eapply Forall_impl; [exact Hy|]. intros z Hz.
      unfold flip in *. now apply name_le_trans with y.
Qed.

Lemma insertion_fold_Permutation data before :
  fold_left (fun before x => move_left less_Name x before) data before
  ≡ₚ data ++ before.
Proof.
  revert before. induction data as [|x data IH]; intros before; cbn; [reflexivity|].
  rewrite IH, move_left_Permutation. symmetry. apply Permutation_middle.
Qed.

Lemma insertion_fold_sorted data before :
  StronglySorted (flip name_le) before ->
  StronglySorted (flip name_le)
    (fold_left (fun before x => move_left less_Name x before) data before).
Proof.
  revert before. induction data as [|x data IH]; intros before Hs; cbn; [exact Hs|].
  apply IH. now apply move_left_sorted.
Qed.

Lemma StronglySorted_rev {A} (R : relation A) l :
  StronglySorted (flip R) l -> StronglySorted R (rev l).
Proof.
  induction 1 as [|x l Hs IH Hx]; cbn; [constructor|].
  apply StronglySorted_app_2; [|exact IH|repeat constructor].
  intros x1 x2 H1 H2. apply list_elem_of_singleton in H2 as ->.
  rewrite Forall_forall in Hx. apply Hx.
  apply list_elem_of_In. apply list_elem_of_In, in_rev in H1. exact H1.
Qed.

Lemma insertionSort_Permutation data : insertionSort less_Name data ≡ₚ data.
Proof.
  unfold insertionSort. rewrite <- Permutation_rev, insertion_fold_Permutation.
  now rewrite app_nil_r.
Qed.

Lemma insertionSort_sorted data : sorted_by_Name (insertionSort less_Name data).
Proof.
  unfold insertionSort. apply StronglySorted_rev, insertion_fold_sorted. constructor.
Qed.


Lemma insertionSort_sorts : sorts_by_Name (insertionSort less_Name).
Proof.
  intros x. split; [apply insertionSort_Permutation | apply insertionSort_sorted].
Qed.

Lemma sort_Slice_sorts sort_long :
  sorts_by_Name sort_long -> sorts_by_Name (sort_Slice_by_Name sort_long).
Proof.
  intros Hlong x. unfold sort_Slice_by_Name.
  destruct (length x <=? 6)%nat; [apply insertionSort_sorts | apply Hlong].
Qed.

Lemma NoDup_Name_inj (l : list ApiService) a b :
  NoDup (map Name l) -> a ∈ l -> b ∈ l -> Name a = Name b -> a = b.
Proof.
  induction l as [|c l IH]; cbn; intros Hnd Ha Hb E.
  - now apply not_elem_of_nil in Ha.
  - apply NoDup_cons in Hnd as [Hc Hnd].
    apply elem_of_cons in Ha as [->|Ha], Hb as [->|Hb]; auto.
    + destruct Hc. rewrite E. apply list_elem_of_In, in_map, list_elem_of_In, Hb.
    + destruct Hc. rewrite <- E. apply list_elem_of_In, in_map, list_elem_of_In, Ha.
Qed.

(** Sorted lists with the same elements, all of different names, are the
    same list. *)
Lemma sorted_by_Name_unique l1 l2 :
  NoDup (map Name l1) -> l1 ≡ₚ l2 ->
  sorted_by_Name l1 -> sorted_by_Name l2 -> l1 = l2.
Proof.
  intros Hnd Hp H1 H2.
  apply (StronglySorted_unique_strong name_le); auto.
  intros a b Ha Hb Hab Hba. apply (NoDup_Name_inj l1); auto.
  - now rewrite Hp.
  - now apply name_le_antisym.
Qed.

(** With names that are all different, non-decreasing is increasing. *)
Lemma sorted_increasing l :
  NoDup (map Name l) -> sorted_by_Name l -> increasing_by_Name l.
Proof.
  intros Hnd Hs. induction Hs as [|a l Hs IH Ha]; [constructor|].
  cbn in Hnd. apply NoDup_cons in Hnd as [Hnotin Hnd].
  constructor; [now apply IH|].
  apply Forall_forall. intros b Hb. rewrite Forall_forall in Ha.
  apply name_le_neq_lt; [now apply Ha|].
  intros E. apply Hnotin. rewrite E.
  apply list_elem_of_In, in_map, list_elem_of_In, Hb.
Qed.

End SortFacts.

(** ** [getGoType] and the queue *)

Section GetGoTypeFacts.
Import meta.

Lemma json_object_ind (P : json -> Prop) :
  P JNull -> (forall b, P (JBool b)) -> (forall n, P (JNumber n)) ->
  (forall s, P (JString s)) -> (forall items, P (JArray items)) ->
  (forall entries, Forall (fun e => P (snd e)) entries -> P (JObject entries)) ->
  forall v, P v.
Proof.
  intros Hnull Hbool Hnum Hstr Harr Hobj. fix IH 1.
  intros [|b|n|s|items|entries];
    [exact Hnull | apply Hbool | apply Hnum | apply Hstr | apply Harr | ].
  apply Hobj. induction entries as [|[k v] entries IHe]; constructor.
  - apply IH.
  - exact IHe.
Qed.

Lemma getGoType_of_map_ext d1 d2 field q :
  (forall key, d1 key = d2 key) ->
  getGoType_of_map d1 field q = getGoType_of_map d2 field q.
Proof. intros E. unfold getGoType_of_map. now rewrite !E. Qed.

Lemma getGoType_object field q :
  getGoType (JObject field) q = getGoType_of_map (descend_on q field) field q.
Proof.
  cbn [getGoType]. apply getGoType_of_map_ext. intros key. unfold descend_on.
  induction field as [|[k v] field IH]; cbn; [reflexivity|].
  destruct (String.eqb k key); [reflexivity | exact IH].
Qed.

Lemma index_In key m v : index key m = Some v -> In (key, v) m.
Proof.
  induction m as [|[k w] m IH]; cbn; [discriminate|].
  destruct (String.eqb_spec k key) as [->|Hne].
  - intros [= ->]. now left.
  - intros H. right. now apply IH.
Qed.

Lemma string_override_eq field propType q override err :
  string_override field (propType, q, override, err)
  = (propType, q,
     (index_is "type" field "string" && negb (String.eqb propType "string"))
     || override, err).
Proof.
  unfold string_override.
  now destruct (index_is "type" field "string" && negb (String.eqb propType "string")).
Qed.

(** [getGoType] only appends to the queue: its result for a queue is its
    result for the empty queue, with the queue in front. *)
Lemma getGoType_rebase val q : getGoType val q = rebase q (getGoType val []).
Proof.
  revert q. induction val as [| | | | |field IH] using json_object_ind;
    intros q; try reflexivity.
  rewrite !getGoType_object.
  assert (Hd : forall key, descend_on q field key = rebase q (descend_on [] field key)).
  { intros key. unfold descend_on. destruct (index key field) as [v|] eqn:E;
      [|reflexivity].
    apply index_In in E. rewrite Forall_forall in IH.
    apply (IH (key, v)). now apply list_elem_of_In. }
  unfold getGoType_of_map. rewrite !Hd.
  destruct (index "$ref" field) as [[| | |refName| |]|]; try reflexivity.
  { now rewrite !string_override_eq. }
  destruct (index_is "type" field "array").
  { destruct (descend_on [] field "items") as [[[[t f] o] e]|msg]; cbn [rebase];
      [|reflexivity].
    now rewrite !string_override_eq. }
  destruct (index_is "type" field "object").
  { destruct (index "additionalProperties" field).
    - destruct (descend_on [] field "additionalProperties")
        as [[[[t f] o] e]|msg]; cbn [rebase]; [|reflexivity].
      now rewrite !string_override_eq.
    - rewrite !string_override_eq. cbn. now rewrite app_nil_r. }
  destruct (index "format" field) as [[| | |format| |]|]; try reflexivity.
  { rewrite !string_override_eq. cbn. now rewrite app_nil_r. }
  destruct (negb (index_is "type" field "")).
  - destruct (index "type" field) as [[| | |type| |]|]; try reflexivity.
    rewrite !string_override_eq. cbn. now rewrite app_nil_r.
  - rewrite !string_override_eq. cbn. now rewrite app_nil_r.
Qed.

Lemma index_is_true key m str :
  index_is key m str = true <-> index key m = Some (JString str).
Proof.
  unfold index_is. destruct (index key m) as [[| | |s| |]|]; try (split; discriminate).
  destruct (String.eqb_spec s str) as [->|Hne]; split; try discriminate; auto.
  intros [= E]. contradiction.
Qed.

Lemma index_is_other key m str str' :
  index_is key m str = true -> str' <> str -> index_is key m str' = false.
Proof.
  intros H Hne. apply index_is_true in H. unfold index_is. rewrite H.
  apply String.eqb_neq. congruence.
Qed.

(** From the empty queue, [getGoType] finds nothing or the one type that
    the Go type points to. *)
Lemma getGoType_found val propType found override err :
  getGoType val [] = Returned (propType, found, override, err) ->
  found = []
  \/ exists prefix refName,
       found = [refName] /\ propType = (prefix ++ "*" ++ refName)%string.
Proof.
  revert propType found override err.
  induction val as [| | | | |field IH] using json_object_ind;
    intros propType found override err; try discriminate.
  rewrite getGoType_object.
  assert (Hd : forall key t f o e,
             descend_on [] field key = Returned (t, f, o, e) ->
             f = [] \/ exists prefix refName,
                         f = [refName] /\ t = (prefix ++ "*" ++ refName)%string).
  { intros key t f o e. unfold descend_on.
    destruct (index key field) as [v|] eqn:E; [|discriminate].
    apply index_In in E. rewrite Forall_forall in IH.
    apply (IH (key, v)). now apply list_elem_of_In. }
  unfold getGoType_of_map.
  destruct (index "$ref" field) as [[| | |refName| |]|]; try discriminate.
  { rewrite string_override_eq. intros [= <- <- _ _]. right.
    exists "", refName. split; reflexivity. }
  destruct (index_is "type" field "array").
  { destruct (descend_on [] field "items") as [[[[t f] o] e]|msg] eqn:E;
      [|discriminate].
    rewrite string_override_eq. intros [= <- <- _ _].
    destruct (Hd _ _ _ _ _ E) as [->|(prefix & refName & -> & ->)]; [now left|].
    right. exists ("[]" ++ prefix)%string, refName. split; reflexivity. }
  destruct (index_is "type" field "object").
  { destruct (index "additionalProperties" field).
    - destruct (descend_on [] field "additionalProperties")
        as [[[[t f] o] e]|msg] eqn:E; [|discriminate].
      rewrite string_override_eq. intros [= <- <- _ _].
      destruct (Hd _ _ _ _ _ E) as [->|(prefix & refName & -> & ->)]; [now left|].
      right. exists ("map[string]" ++ prefix)%string, refName. split; reflexivity.
    - rewrite string_override_eq. intros [= _ <- _ _]. now left. }
  destruct (index "format" field) as [[| | |format| |]|]; try discriminate.
  { rewrite string_override_eq. intros [= _ <- _ _]. now left. }
  destruct (negb (index_is "type" field "")).
  - destruct (index "type" field) as [[| | |type| |]|]; try discriminate.
    rewrite string_override_eq. intros [= _ <- _ _]. now left.
  - rewrite string_override_eq. intros [= _ <- _ _]. now left.
Qed.

(** X1.  [getGoType] never drops or reorders what is on the queue: it
    appends nothing, or the one type that the Go type it returns points
    to; the queue it is handed changes nothing else of its result. *)
Theorem getGoType_appends_at_most_one val typesQueue propType typesQueue' override err :
  getGoType val typesQueue = Returned (propType, typesQueue', override, err) ->
  exists found,
    typesQueue' = typesQueue ++ found
    /\ (found = []
        \/ exists prefix refName,
             found = [refName] /\ propType = (prefix ++ "*" ++ refName)%string)
    /\ forall q, getGoType val q = Returned (propType, q ++ found, override, err).
Proof.
  rewrite getGoType_rebase.
  destruct (getGoType val []) as [[[[t f] o] e]|msg] eqn:E; [|discriminate].
  cbn [rebase]. intros [= <- <- <- <-]. exists f.
  split; [reflexivity|]. split; [exact (getGoType_found _ _ _ _ _ E)|].
  intros q. now rewrite getGoType_rebase, E.
Qed.

(** X2.  For a property of type [string], [getGoType] returns no error, and
    it sets the override exactly when the Go type it returns is not
    [string] (a reference, or a format such as [int64]). *)
Theorem getGoType_string_override field typesQueue propType typesQueue' override err :
  index_is "type" field "string" = true ->
  getGoType (JObject field) typesQueue
  = Returned (propType, typesQueue', override, err) ->
  override = negb (String.eqb propType "string") /\ err = None.
Proof.
  intros Hs. rewrite getGoType_object. unfold getGoType_of_map.
  rewrite (index_is_other _ _ _ "array" Hs) by discriminate.
  rewrite (index_is_other _ _ _ "object" Hs) by discriminate.
  rewrite (index_is_other _ _ _ "" Hs) by discriminate.
  pose proof (proj1 (index_is_true _ _ _) Hs) as Ht. rewrite Ht. cbn [negb].
  destruct (index "$ref" field) as [[| | |refName| |]|]; try discriminate.
  { rewrite string_override_eq, Hs. intros [= <- _ <- <-]. split; reflexivity. }
  destruct (index "format" field) as [[| | |format| |]|]; try discriminate.
  - rewrite string_override_eq, Hs. intros [= <- _ <- <-].
    split; [|reflexivity]. now rewrite ?andb_true_l, ?orb_false_r.
  - rewrite string_override_eq, Hs. intros [= <- _ <- <-]. split; reflexivity.
Qed.

Lemma getGoType_error_at_leaf val leaf :
  descends_to val leaf ->
  index "$ref" leaf = None -> index "format" leaf = None ->
  index "type" leaf = Some (JString "") ->
  forall typesQueue,
    exists propType typesQueue' override err,
      getGoType val typesQueue
      = Returned (propType, typesQueue', override, Some err).
Proof.
  induction 1 as [field|field items leaf Href Harr Hitems _ IH
                 |field addlProps leaf Href Harr Hobj Haddl _ IH];
    intros Hr Hf Ht q; rewrite getGoType_object; unfold getGoType_of_map.
  - apply index_is_true in Ht.
    rewrite Hr, Hf, (index_is_other _ _ _ "array" Ht),
      (index_is_other _ _ _ "object" Ht), Ht by discriminate.
    cbn [negb]. rewrite string_override_eq. eauto.
  - rewrite Href, Harr. unfold descend_on. rewrite Hitems.
    destruct (IH Hr Hf Ht q) as (t & q' & o & err & ->).
    rewrite string_override_eq. eauto.
  - rewrite Href, Harr, Hobj, Haddl. unfold descend_on. rewrite Haddl.
    destruct (IH Hr Hf Ht q) as (t & q' & o & err & ->).
    rewrite string_override_eq. eauto.
Qed.

Lemma getGoType_error_leaf val typesQueue propType typesQueue' override err :
  getGoType val typesQueue
  = Returned (propType, typesQueue', override, Some err) ->
  exists leaf,
    descends_to val leaf /\ index "$ref" leaf = None
    /\ index "format" leaf = None /\ index "type" leaf = Some (JString "").
Proof.
  revert typesQueue propType typesQueue' override err.
  induction val as [| | | | |field IH] using json_object_ind;
    intros q propType q' override err; try discriminate.
  rewrite getGoType_object. unfold getGoType_of_map.
  assert (Hd : forall key v t q0 o e,
             index key field = Some v ->
             getGoType v q = Returned (t, q0, o, Some e) ->
             exists leaf,
               descends_to v leaf /\ index "$ref" leaf = None
               /\ index "format" leaf = None
               /\ index "type" leaf = Some (JString "")).
  { intros key v t q0 o e Hv. apply index_In in Hv. rewrite Forall_forall in IH.
    apply (IH (key, v)). now apply list_elem_of_In. }
  destruct (index "$ref" field) as [[| | |refName| |]|] eqn:Href; try discriminate.
  { rewrite string_override_eq. intros [=]. }
  destruct (index_is "type" field "array") eqn:Harr.
  { unfold descend_on. destruct (index "items" field) as [v|] eqn:Hitems;
      [|discriminate].
    destruct (getGoType v q) as [[[[t f] o] [e|]]|msg] eqn:E; try discriminate.
    - intros _. destruct (Hd _ _ _ _ _ _ Hitems E) as (leaf & Hl & Hrest).
      exists leaf. split; [|exact Hrest]. now apply descends_items with v.
    - rewrite string_override_eq. intros [=]. }
  destruct (index_is "type" field "object") eqn:Hobj.
  { destruct (index "additionalProperties" field) as [v|] eqn:Haddl.
    - unfold descend_on. rewrite Haddl.
      destruct (getGoType v q) as [[[[t f] o] [e|]]|msg] eqn:E; try discriminate.
      + intros _. destruct (Hd _ _ _ _ _ _ Haddl E) as (leaf & Hl & Hrest).
        exists leaf. split; [|exact Hrest]. now apply descends_additional with v.
      + rewrite string_override_eq. intros [=].
    - rewrite string_override_eq. intros [=]. }
  destruct (index "format" field) as [[| | |format| |]|] eqn:Hformat;
    try discriminate.
  { rewrite string_override_eq. intros [=]. }
  destruct (index_is "type" field "") eqn:Hempty; cbn [negb].
  - intros _. exists field. split; [constructor|].
    split; [exact Href|]. split; [exact Hformat|]. now apply index_is_true.
  - destruct (index "type" field) as [[| | |type| |]|]; try discriminate.
    rewrite string_override_eq. intros [=].
Qed.

Lemma getGoType_panics_at_leaf val leaf :
  descends_to val leaf ->
  index "$ref" leaf = None -> index "format" leaf = None ->
  (forall str, index "type" leaf <> Some (JString str)) ->
  forall typesQueue, exists msg, getGoType val typesQueue = Panicked msg.
Proof.
  induction 1 as [field|field items leaf Href Harr Hitems _ IH
                 |field addlProps leaf Href Harr Hobj Haddl _ IH];
    intros Hr Hf Ht q; rewrite getGoType_object; unfold getGoType_of_map.
  - rewrite Hr, Hf. unfold index_is.
    destruct (index "type" field) as [[| | |str| |]|] eqn:E; cbn; eauto.
    exfalso. exact (Ht str eq_refl).
  - rewrite Href, Harr. unfold descend_on. rewrite Hitems.
    destruct (IH Hr Hf Ht q) as (msg & ->). eauto.
  - rewrite Href, Harr, Hobj, Haddl. unfold descend_on. rewrite Haddl.
    destruct (IH Hr Hf Ht q) as (msg & ->). eauto.
Qed.

(** X3.  [getGoType] returns its error exactly when its descent, through
    the items of arrays and the additional properties of objects, ends at
    a property with no [$ref], no [format] and the empty string as type.
    Where the descent ends at a property with no [$ref] and no [format]
    whose type is missing or is no string, the call panics in the type
    assertion instead of returning the error. *)
Theorem getGoType_error_only_for_empty_type :
  (forall val typesQueue,
     (exists propType typesQueue' override err,
        getGoType val typesQueue
        = Returned (propType, typesQueue', override, Some err))
     <-> exists leaf,
           descends_to val leaf /\ index "$ref" leaf = None
           /\ index "format" leaf = None
           /\ index "type" leaf = Some (JString ""))
  /\ (forall val leaf typesQueue,
        descends_to val leaf ->
        index "$ref" leaf = None -> index "format" leaf = None ->
        (forall str, index "type" leaf <> Some (JString str)) ->
        exists msg, getGoType val typesQueue = Panicked msg).
Proof.
  split.
  - intros val q. split.
    + intros (t & q' & o & err & E). exact (getGoType_error_leaf _ _ _ _ _ _ E).
    + intros (leaf & Hl & Hr & Hf & Ht).
      exact (getGoType_error_at_leaf _ _ Hl Hr Hf Ht q).
  - intros val leaf q Hl Hr Hf Ht. exact (getGoType_panics_at_leaf _ _ Hl Hr Hf Ht q).
Qed.

End GetGoTypeFacts.

(** ** The search *)

Section PopulateFacts.
Import meta.

Variable lowerCaseRanges : rune -> rune.
Variable strings_Title : string -> string.
Variable sort_long : list ApiService -> list ApiService.
Hypothesis sort_long_sorts : sorts_by_Name sort_long.

Lemma range_fields_spec entries apiFields q apiFields' q' :
  range_fields strings_Title entries apiFields q = Returned (apiFields', q') ->
  apiFields' = apiFields ++ map (property_field strings_Title) entries
  /\ q' = q ++ flat_map property_refs entries.
Proof.
  revert apiFields q. induction entries as [|[prop val] entries IH];
    intros apiFields q; cbn [range_fields].
  - intros [= <- <-]. cbn. now rewrite !app_nil_r.
  - rewrite getGoType_rebase.
    cbn [map flat_map].
    unfold property_field at 1, property_refs at 1. cbn [fst snd].
    destruct (getGoType val []) as [[[[t f] o] [e|]]|msg]; cbn [rebase];
      try discriminate.
    intros H. apply IH in H as [-> ->]. now rewrite <- !app_assoc.
Qed.

(** What a visit returns, whatever the order of the properties. *)
Lemma visit_sorted order result typeName q svc q' :
  visit lowerCaseRanges strings_Title sort_long order result typeName q
  = Returned (svc, q') ->
  Name svc = typeName /\ sorted_by_Name (Fields svc).
Proof.
  unfold visit. destruct (schema_properties result typeName) as [fields|];
    [|discriminate].
  destruct (range_fields _ _ _ _) as [[apiFields q'']|]; [|discriminate].
  intros [= <- <-]. cbn. split; [reflexivity|].
  now apply sort_Slice_sorts.
Qed.

Lemma map_Name_property_field entries :
  map Name (map (property_field strings_Title) entries)
  = map strings_Title (map fst entries).
Proof.
  induction entries as [|[prop val] entries IH]; [reflexivity|].
  cbn [map]. rewrite IH. f_equal.
  unfold property_field. now destruct (getGoType _ _) as [[[[t f] o] e]|].
Qed.

Lemma flat_map_Permutation {A B} (f : A -> list B) l1 l2 :
  l1 ≡ₚ l2 -> flat_map f l1 ≡ₚ flat_map f l2.
Proof.
  induction 1 as [|x l1 l2 _ IH|x y l|l1 l2 l3 _ IH1 _ IH2]; cbn.
  - reflexivity.
  - now rewrite IH.
  - rewrite !app_assoc. f_equiv. apply Permutation_app_comm.
  - now rewrite IH1.
Qed.

(** With an order that visits every property once, and properties of
    different names, a visit returns the service of the type and appends
    the types that the type refers to. *)
Lemma visit_service order result typeName q svc q' :
  (forall T m, order_entries order T m ≡ₚ m) ->
  visit lowerCaseRanges strings_Title sort_long order result typeName q
  = Returned (svc, q') ->
  (exists found, q' = q ++ found /\ found ≡ₚ type_refs result typeName)
  /\ (distinct_titles strings_Title result ->
      svc = service_of lowerCaseRanges strings_Title sort_long result typeName).
Proof.
  intros Hord. unfold visit, type_refs, service_of, distinct_titles, listed_properties.
  destruct (schema_properties result typeName) as [fields|] eqn:Hf; [|discriminate].
  destruct (range_fields _ _ _ _) as [[apiFields q'']|] eqn:Hr; [|discriminate].
  apply range_fields_spec in Hr as [-> ->]. cbn [app].
  intros [= <- <-]. split.
  - eexists. split; [reflexivity|]. apply flat_map_Permutation, Hord.
  - intros Hdt. specialize (Hdt typeName). rewrite Hf in Hdt. f_equal.
    pose proof (sort_Slice_sorts sort_long sort_long_sorts) as Hsort.
    destruct (Hsort (map (property_field strings_Title)
                       (order_entries order typeName fields))) as [Hp1 Hs1].
    destruct (Hsort (map (property_field strings_Title) fields)) as [Hp2 Hs2].
    apply sorted_by_Name_unique; auto.
    + rewrite Hp1, map_Name_property_field, (Hord typeName fields). exact Hdt.
    + rewrite Hp1, Hp2. apply Permutation_map, Hord.
Qed.

Lemma range_fields_ok entries apiFields q :
  (exists r, range_fields strings_Title entries apiFields q = Returned r)
  <-> Forall entry_ok entries.
Proof.
  revert apiFields q. induction entries as [|[prop val] entries IH];
    intros apiFields q; cbn [range_fields].
  - split; [constructor | eauto].
  - rewrite getGoType_rebase, Forall_cons. unfold entry_ok at 1. cbn [snd].
    destruct (getGoType val []) as [[[[t f] o] [e|]]|msg]; cbn [rebase].
    + split; [intros [r Hr]; discriminate|].
      intros [(t' & f' & o' & H) _]. discriminate.
    + rewrite IH. split; [|tauto]. intros H. split; [eauto|exact H].
    + split; [intros [r Hr]; discriminate|].
      intros [(t' & f' & o' & H) _]. discriminate.
Qed.

(** Whether a visit returns does not depend on the order of the
    properties, nor on the queue. *)
Lemma visit_returns order result typeName q :
  (forall T m, order_entries order T m ≡ₚ m) ->
  (exists r,
     visit lowerCaseRanges strings_Title sort_long order result typeName q
     = Returned r)
  <-> visit_ok result typeName.
Proof.
  intros Hord. unfold visit, visit_ok.
  destruct (schema_properties result typeName) as [fields|msg].
  - pose proof (range_fields_ok (order_entries order typeName fields) [] q) as Hrf.
    rewrite (Hord typeName fields) in Hrf.
    destruct (range_fields _ _ _ _) as [[apiFields q']|msg].
    + split; [|eauto]. intros _. exists fields. split; [reflexivity|].
      apply Hrf. eauto.
    + split; [intros [r Hr]; discriminate|].
      intros (fields' & [= <-] & Hok). apply Hrf in Hok as [r Hr]. discriminate.
  - split; [intros [r Hr]; discriminate|].
    intros (fields & Hf & _). discriminate.
Qed.

Lemma reach_weaken result roots roots' T :
  (forall U, In U roots -> reach result roots' U) ->
  reach result roots T -> reach result roots' T.
Proof.
  intros Hr. induction 1 as [T HT|U T _ IH HT]; [now apply Hr|].
  now apply reach_ref with U.
Qed.

(** What the loop adds to [AllApiServices]: one service for each type
    [visited], each type once, none of them completed before. *)
Lemma resolve_names order fuel result Q C all out :
  resolve lowerCaseRanges strings_Title sort_long order fuel result Q C all
  = Some (Returned out) ->
  exists svcs,
    out = all ++ svcs /\ NoDup (map Name svcs)
    /\ (forall svc, In svc svcs -> Name svc ∉ C)
    /\ Forall (fun svc => sorted_by_Name (Fields svc)) svcs.
Proof.
  revert Q C all. induction fuel as [|fuel IH]; intros Q C all; cbn [resolve];
    [discriminate|].
  destruct Q as [|T Q].
  { intros [= <-]. exists []. rewrite app_nil_r.
    split; [reflexivity|]. split; [constructor|].
    split; [intros svc []|constructor]. }
  destruct (decide (T ∈ C)) as [HT|HT]; [apply IH|].
  destruct (visit _ _ _ _ _ _ _) as [[svc Q']|] eqn:Hv; [|discriminate].
  apply visit_sorted in Hv as [Hname Hsorted].
  intros H. apply IH in H as (svcs & -> & Hnd & HC & Hs).
  exists (svc :: svcs). rewrite <- app_assoc. repeat split; auto.
  - cbn. apply NoDup_cons. split; [|exact Hnd].
    intros Hin. apply list_elem_of_In, in_map_iff in Hin as (svc' & E & Hin).
    apply (HC svc' Hin). rewrite E, Hname. set_solver.
  - intros svc' [<-|Hin]; [now rewrite Hname|].
    specialize (HC svc' Hin). set_solver.
Qed.

(** The types visited are those that the search gets to from the queue,
    less the completed ones, as far as the completed ones are closed. *)
Lemma resolve_closure order fuel result Q C all out :
  (forall T m, order_entries order T m ≡ₚ m) ->
  resolve lowerCaseRanges strings_Title sort_long order fuel result Q C all
  = Some (Returned out) ->
  exists visited svcs,
    out = all ++ svcs /\ map Name svcs = visited
    /\ (forall T, In T Q -> T ∈ C \/ In T visited)
    /\ (forall T U, In T visited -> In U (type_refs result T) ->
          U ∈ C \/ In U visited)
    /\ (forall T, In T visited -> reach result Q T)
    /\ (forall T, In T visited -> visit_ok result T)
    /\ (distinct_titles strings_Title result ->
        svcs = map (service_of lowerCaseRanges strings_Title sort_long result)
                 visited).
Proof.
  intros Hord. revert Q C all. induction fuel as [|fuel IH]; intros Q C all;
    cbn [resolve]; [discriminate|].
  destruct Q as [|T Q].
  { intros [= <-]. exists [], []. rewrite app_nil_r.
    repeat split; auto; try (intros ? []); intros ? ? []. }
  destruct (decide (T ∈ C)) as [HT|HT].
  { intros H.
    apply IH in H as (visited & svcs & -> & Hn & Hq & Hc & Hr & Hok & Hs).
    exists visited, svcs. repeat split; auto.
    - intros U [<-|HU]; auto.
    - intros U HU. apply reach_weaken with Q; [|now apply Hr].
      intros V HV. apply reach_root. now right. }
  destruct (visit _ _ _ _ _ _ _) as [[svc Q']|] eqn:Hv; [|discriminate].
  pose proof (visit_sorted _ _ _ _ _ _ Hv) as [Hname _].
  assert (HokT : visit_ok result T).
  { apply (visit_returns order result T Q Hord). eauto. }
  apply visit_service in Hv as [(found & -> & Hfound) Hsvc]; [|exact Hord].
  intros H.
  apply IH in H as (visited & svcs & -> & Hn & Hq & Hc & Hr & Hok & Hs).
  exists (T :: visited), (svc :: svcs). rewrite <- app_assoc.
  assert (Hfirst : forall U, In U (type_refs result T) ->
            U ∈ C \/ In U (T :: visited)).
  { intros U HU.
    destruct (Hq U) as [HC|HV].
    - apply in_or_app. right. apply list_elem_of_In. rewrite Hfound.
      now apply list_elem_of_In.
    - apply elem_of_union in HC as [HC|HC]; [|now left].
      apply elem_of_singleton in HC as ->. right. now left.
    - right. now right. }
  repeat split; auto.
  - cbn. now rewrite Hname, Hn.
  - intros U [<-|HU]; [right; now left|].
    destruct (Hq U) as [HC|HV]; [apply in_or_app; now left | |right; now right].
    apply elem_of_union in HC as [HC|HC]; [|now left].
    apply elem_of_singleton in HC as ->. right. now left.
  - intros V U [<-|HV] HU; [now apply Hfirst|].
    destruct (Hc V U HV HU) as [HC|HV']; [|right; now right].
    apply elem_of_union in HC as [HC|HC]; [|now left].
    apply elem_of_singleton in HC as ->. right. now left.
  - intros U [<-|HU]; [apply reach_root; now left|].
    apply reach_weaken with (Q ++ found); [|now apply Hr].
    intros V HV. apply in_app_or in HV as [HV|HV].
    + apply reach_root. now right.
    + apply reach_ref with T; [apply reach_root; now left|].
      apply list_elem_of_In. rewrite <- Hfound. now apply list_elem_of_In.
  - intros U [<-|HU]; [exact HokT | now apply Hok].
  - intros Hdt. cbn. now rewrite (Hsvc Hdt), (Hs Hdt).
Qed.

(** A run that panics has got to a type whose visit does not return. *)
Lemma resolve_panics order fuel result Q C all msg :
  (forall T m, order_entries order T m ≡ₚ m) ->
  resolve lowerCaseRanges strings_Title sort_long order fuel result Q C all
  = Some (Panicked msg) ->
  exists T, reach result Q T /\ ~ visit_ok result T.
Proof.
  intros Hord. revert Q C all. induction fuel as [|fuel IH]; intros Q C all;
    cbn [resolve]; [discriminate|].
  destruct Q as [|T Q]; [discriminate|].
  destruct (decide (T ∈ C)) as [HT|HT].
  { intros H. apply IH in H as (U & HU & Hnot). exists U. split; [|exact Hnot].
    apply reach_weaken with Q; [|exact HU].
    intros V HV. apply reach_root. now right. }
  destruct (visit _ _ _ _ _ _ _) as [[svc Q']|msg'] eqn:Hv.
  - apply visit_service in Hv as [(found & -> & Hfound) _]; [|exact Hord].
    intros H. apply IH in H as (U & HU & Hnot). exists U. split; [|exact Hnot].
    apply reach_weaken with (Q ++ found); [|exact HU].
    intros V HV. apply in_app_or in HV as [HV|HV].
    + apply reach_root. now right.
    + apply reach_ref with T; [apply reach_root; now left|].
      apply list_elem_of_In. rewrite <- Hfound. now apply list_elem_of_In.
  - intros _. exists T. split; [apply reach_root; now left|].
    intros Hok. apply (visit_returns order result T Q Hord) in Hok as [r Hr].
    congruence.
Qed.

(** *** The loop stops *)

Lemma elem_of_completed (C : gset string) T U :
  U ∈ {[ T ]} ∪ C <-> U = T \/ U ∈ C.
Proof. now rewrite elem_of_union, elem_of_singleton. Qed.

Lemma pending_turns_completed result C T names :
  T ∉ names ->
  pending_turns result ({[ T ]} ∪ C) names = pending_turns result C names.
Proof.
  induction names as [|U names IH]; cbn; [reflexivity|].
  intros Hnot. apply not_elem_of_cons in Hnot as [Hne Hnot].
  rewrite IH by exact Hnot.
  destruct (decide (U ∈ C)) as [H1|H1], (decide (U ∈ {[ T ]} ∪ C)) as [H2|H2];
    try reflexivity; rewrite elem_of_completed in H2; intuition congruence.
Qed.

Lemma pending_turns_visit result C T names :
  NoDup names -> T ∈ names -> T ∉ C ->
  pending_turns result ({[ T ]} ∪ C) names + S (length (type_refs result T))
  = pending_turns result C names.
Proof.
  induction 1 as [|U names HU Hnd IH]; cbn; intros Hin HC.
  - now apply not_elem_of_nil in Hin.
  - apply elem_of_cons in Hin as [<-|Hin].
    + rewrite pending_turns_completed by exact HU.
      rewrite decide_True by (apply elem_of_completed; now left).
      rewrite decide_False by exact HC. lia.
    + rewrite <- (IH Hin HC).
      assert (Hne : U <> T) by (intros ->; contradiction).
      destruct (decide (U ∈ C)) as [H1|H1], (decide (U ∈ {[ T ]} ∪ C)) as [H2|H2];
        try lia; rewrite elem_of_completed in H2; intuition congruence.
Qed.

Lemma schema_properties_name result T fields :
  schema_properties result T = Returned fields -> T ∈ schema_names result.
Proof.
  unfold schema_properties, schema_names.
  destruct (index "schemas" result) as [[| | | | |schemas]|]; try discriminate.
  destruct (index T schemas) as [v|] eqn:E; [|discriminate]. intros _.
  apply elem_of_remove_dups, list_elem_of_In, in_map_iff.
  exists (T, v). split; [reflexivity|]. now apply index_In.
Qed.

Lemma schema_names_NoDup result : NoDup (schema_names result).
Proof.
  unfold schema_names.
  destruct (index "schemas" result) as [[| | | | |schemas]|]; try constructor.
  apply NoDup_remove_dups.
Qed.

(** With fuel beyond the turns that are left, the loop ends: it returns or
    it panics. *)
Lemma resolve_enough_fuel order fuel result Q C all :
  (forall T m, order_entries order T m ≡ₚ m) ->
  length Q + pending_turns result C (schema_names result) < fuel ->
  resolve lowerCaseRanges strings_Title sort_long order fuel result Q C all <> None.
Proof.
  intros Hord. revert Q C all. induction fuel as [|fuel IH]; intros Q C all Hlt;
    [lia|]. cbn [resolve].
  destruct Q as [|T Q]; [discriminate|]. cbn [length] in Hlt.
  destruct (decide (T ∈ C)) as [HT|HT]; [apply IH; lia|].
  destruct (visit _ _ _ _ _ _ _) as [[svc Q']|] eqn:Hv; [|discriminate].
  assert (Hname : T ∈ schema_names result).
  { unfold visit in Hv.
    destruct (schema_properties result T) as [fields|] eqn:Hf; [|discriminate].
    now apply schema_properties_name with fields. }
  apply visit_service in Hv as [(found & -> & Hfound) _]; [|exact Hord].
  apply IH. rewrite length_app, Hfound.
  pose proof (pending_turns_visit result C T _ (schema_names_NoDup result) Hname HT).
  lia.
Qed.

(** [init] with [enough_fuel] returns or panics. *)
Lemma init_enough_fuel order fuel ms result :
  visits_each_once order -> enough_fuel ms result <= fuel ->
  init lowerCaseRanges strings_Title sort_long order fuel ms result <> None.
Proof.
  intros [Hkeys Hentries] Hfuel. unfold init, populateApiServices.
  destruct (resolve _ _ _ _ _ _ _ _ _) as [[all|msg]|] eqn:H; try discriminate.
  exfalso. revert H. apply resolve_enough_fuel; [exact Hentries|].
  cbn [app]. rewrite (Hkeys _), length_map. unfold enough_fuel in Hfuel. lia.
Qed.

Lemma reach_roots result roots roots' T :
  (forall U, In U roots -> In U roots') ->
  reach result roots T -> reach result roots' T.
Proof.
  intros Hr. apply reach_weaken. intros U HU. apply reach_root. now apply Hr.
Qed.

(** The run of [init] up to the last sort: one service for each type that
    the search gets to from the main services. *)
Lemma init_services order fuel (ms : gmap string string) result out :
  visits_each_once order -> distinct_titles strings_Title result ->
  resolve lowerCaseRanges strings_Title sort_long order fuel result
    ([] ++ order_keys order (map fst (map_to_list ms))) ∅ [] = Some (Returned out) ->
  exists visited,
    out = map (service_of lowerCaseRanges strings_Title sort_long result) visited
    /\ NoDup visited
    /\ (forall T, In T visited -> visit_ok result T)
    /\ (forall T, In T visited <-> reach result (map fst (map_to_list ms)) T).
Proof.
  intros [Hkeys Hentries] Hdt H.
  destruct (resolve_names _ _ _ _ _ _ _ H) as (svcs' & E' & Hnd & _).
  apply resolve_closure in H
    as (visited & svcs & E & Hn & Hq & Hc & Hr & Hok & Hs); [|exact Hentries].
  cbn [app] in E, E'. subst out. subst svcs'. rewrite Hn in Hnd.
  exists visited. split; [now apply Hs|]. split; [exact Hnd|].
  split; [exact Hok|].
  intros T. split.
  - intros HT. apply reach_roots with (order_keys order (map fst (map_to_list ms))).
    + intros U HU. apply list_elem_of_In. rewrite <- (Hkeys _).
      now apply list_elem_of_In.
    + now apply Hr.
  - induction 1 as [T HT|U T _ IH HT].
    + destruct (Hq T) as [HC|HV]; [|now apply not_elem_of_empty in HC|exact HV].
      cbn [app]. apply list_elem_of_In. rewrite (Hkeys _).
      now apply list_elem_of_In.
    + destruct (Hc U T IH HT) as [HC|HV]; [now apply not_elem_of_empty in HC|exact HV].
Qed.

Lemma map_Name_service_of result visited :
  map Name (map (service_of lowerCaseRanges strings_Title sort_long result) visited)
  = visited.
Proof. induction visited as [|T visited IH]; cbn; [reflexivity | now rewrite IH]. Qed.

(** Two runs of [init] that return, return the same list, when no two
    properties of a schema get the same [Name]. *)
Lemma init_same_output order1 order2 fuel1 fuel2 ms result out1 out2 :
  visits_each_once order1 -> visits_each_once order2 ->
  distinct_titles strings_Title result ->
  init lowerCaseRanges strings_Title sort_long order1 fuel1 ms result
  = Some (Returned out1) ->
  init lowerCaseRanges strings_Title sort_long order2 fuel2 ms result
  = Some (Returned out2) ->
  out1 = out2.
Proof.
  pose proof (sort_Slice_sorts sort_long sort_long_sorts) as Hsort.
  intros Ho1 Ho2 Hdt. unfold init, populateApiServices.
  destruct (resolve _ _ _ order1 _ _ _ _ _) as [[all1|]|] eqn:H1; try discriminate.
  destruct (resolve _ _ _ order2 _ _ _ _ _) as [[all2|]|] eqn:H2; try discriminate.
  intros [= <-] [= <-].
  apply init_services in H1 as (v1 & -> & Hnd1 & _ & Hv1); auto.
  apply init_services in H2 as (v2 & -> & Hnd2 & _ & Hv2); auto.
  assert (Hp : v1 ≡ₚ v2).
  { apply NoDup_Permutation; auto. intros T.
    rewrite !list_elem_of_In, Hv1, Hv2. reflexivity. }
  destruct (Hsort (map (service_of lowerCaseRanges strings_Title sort_long result) v1))
    as [Hp1 Hs1].
  destruct (Hsort (map (service_of lowerCaseRanges strings_Title sort_long result) v2))
    as [Hp2 Hs2].
  apply sorted_by_Name_unique; auto.
  - now rewrite Hp1, map_Name_service_of.
  - rewrite Hp1, Hp2. now apply Permutation_map.
Qed.

(** When [init] returns for one order of the maps, it does not panic for
    another. *)
Lemma init_no_panic order1 order2 fuel1 fuel2 ms result out msg :
  visits_each_once order1 -> visits_each_once order2 ->
  distinct_titles strings_Title result ->
  init lowerCaseRanges strings_Title sort_long order1 fuel1 ms result
  = Some (Returned out) ->
  init lowerCaseRanges strings_Title sort_long order2 fuel2 ms result
  <> Some (Panicked msg).
Proof.
  intros Ho1 [Hkeys2 Hentries2] Hdt. unfold init, populateApiServices.
  destruct (resolve _ _ _ order1 _ _ _ _ _) as [[all1|]|] eqn:H1; try discriminate.
  intros _.
  destruct (resolve _ _ _ order2 _ _ _ _ _) as [[all2|msg2]|] eqn:H2; try discriminate.
  intros _.
  apply init_services in H1 as (v1 & _ & _ & Hok & Hv1); auto.
  apply resolve_panics in H2 as (T & HT & Hnot); [|exact Hentries2].
  apply Hnot, Hok, Hv1.
  apply reach_roots with (order_keys order2 (map fst (map_to_list ms))); [|exact HT].
  intros U HU. apply list_elem_of_In. rewrite <- (Hkeys2 _).
  now apply list_elem_of_In.
Qed.

(** X18.  After [populateApiServices] has completed,
    [AllApiServices] is in non-decreasing order of [Name]; after [init]
    the order is increasing, and the [Fields] of every service are in
    non-decreasing order of [Name].  When no two properties of a schema
    get the same [Name], the list does not depend on the order in which
    the maps are visited, nor on the fuel: two runs that return, return the
    same list, and when one run returns a list every run with enough fuel
    returns it. *)
Theorem populateApiServices_sorted :
  (forall order fuel ms result AllApiServices out,
     populateApiServices lowerCaseRanges strings_Title sort_long order fuel ms
       result AllApiServices = Some (Returned out) ->
     sorted_by_Name out)
  /\ (forall order fuel ms result out,
       init lowerCaseRanges strings_Title sort_long order fuel ms result
       = Some (Returned out) ->
       sorted_by_Name out /\ increasing_by_Name out
       /\ Forall (fun svc => sorted_by_Name (Fields svc)) out)
  /\ (forall order1 order2 fuel1 fuel2 ms result out1 out2,
       visits_each_once order1 -> visits_each_once order2 ->
       distinct_titles strings_Title result ->
       init lowerCaseRanges strings_Title sort_long order1 fuel1 ms result
       = Some (Returned out1) ->
       init lowerCaseRanges strings_Title sort_long order2 fuel2 ms result
       = Some (Returned out2) ->
       out1 = out2)
  /\ (forall order1 order2 fuel1 fuel2 ms result out,
       visits_each_once order1 -> visits_each_once order2 ->
       distinct_titles strings_Title result ->
       init lowerCaseRanges strings_Title sort_long order1 fuel1 ms result
       = Some (Returned out) ->
       enough_fuel ms result <= fuel2 ->
       init lowerCaseRanges strings_Title sort_long order2 fuel2 ms result
       = Some (Returned out)).
Proof.
  pose proof (sort_Slice_sorts sort_long sort_long_sorts) as Hsort.
  repeat apply conj.
  - intros order fuel ms result all out. unfold populateApiServices.
    destruct (resolve _ _ _ _ _ _ _ _ _) as [[all'|]|]; try discriminate.
    intros [= <-]. apply Hsort.
  - intros order fuel ms result out. unfold init, populateApiServices.
    destruct (resolve _ _ _ _ _ _ _ _ _) as [[all'|]|] eqn:H; try discriminate.
    intros [= <-].
    apply resolve_names in H as (svcs & -> & Hnd & _ & Hs). cbn [app] in *.
    destruct (Hsort svcs) as [Hp Hsorted].
    split; [exact Hsorted|]. split.
    + apply sorted_increasing; [|exact Hsorted]. now rewrite Hp.
    + now rewrite Hp.
  - intros order1 order2 fuel1 fuel2 ms result out1 out2.
    apply init_same_output.
  - intros order1 order2 fuel1 fuel2 ms result out Ho1 Ho2 Hdt H1 Hfuel.
    pose proof (init_enough_fuel order2 fuel2 ms result Ho2 Hfuel) as Hsome.
    destruct (init _ _ _ order2 fuel2 ms result) as [[out2|msg]|] eqn:H2;
      [| |congruence].
    + f_equal. f_equal. symmetry.
      exact (init_same_output _ _ _ _ _ _ _ _ Ho1 Ho2 Hdt H1 H2).
    + exfalso. revert H2.
      exact (init_no_panic _ _ _ _ _ _ _ msg Ho1 Ho2 Hdt H1).
Qed.

Lemma visit_shape order result typeName q svc q' :
  (forall T m, order_entries order T m ≡ₚ m) ->
  visit lowerCaseRanges strings_Title sort_long order result typeName q
  = Returned (svc, q') ->
  service_shape lowerCaseRanges strings_Title result svc.
Proof.
  intros Hord. unfold visit, service_shape, listed_properties.
  destruct (schema_properties result typeName) as [fields|] eqn:Hf; [|discriminate].
  destruct (range_fields _ _ _ _) as [[apiFields q'']|] eqn:Hr; [|discriminate].
  apply range_fields_spec in Hr as [-> ->]. cbn [app].
  intros [= <- <-]. cbn [Name JsonName JsonStringOverride GoType VarName Fields].
  rewrite Hf. repeat (split; [reflexivity|]).
  destruct (sort_Slice_sorts sort_long sort_long_sorts
              (map (property_field strings_Title)
                 (order_entries order typeName fields))) as [Hp _].
  rewrite Hp. apply Permutation_map, Hord.
Qed.

Lemma resolve_shape order fuel result Q C all out :
  (forall T m, order_entries order T m ≡ₚ m) ->
  resolve lowerCaseRanges strings_Title sort_long order fuel result Q C all
  = Some (Returned out) ->
  exists svcs,
    out = all ++ svcs
    /\ Forall (service_shape lowerCaseRanges strings_Title result) svcs.
Proof.
  intros Hord. revert Q C all. induction fuel as [|fuel IH]; intros Q C all;
    cbn [resolve]; [discriminate|].
  destruct Q as [|T Q].
  { intros [= <-]. exists []. now rewrite app_nil_r. }
  destruct (decide (T ∈ C)) as [HT|HT]; [apply IH|].
  destruct (visit _ _ _ _ _ _ _) as [[svc Q']|] eqn:Hv; [|discriminate].
  apply visit_shape in Hv; [|exact Hord].
  intros H. apply IH in H as (svcs & -> & Hs).
  exists (svc :: svcs). rewrite <- app_assoc. split; [reflexivity|].
  now constructor.
Qed.

(** The run of [init] up to the last sort, whatever the names of the
    fields: one service for each type that the search gets to. *)
Lemma init_visited order fuel (ms : gmap string string) result out :
  visits_each_once order ->
  resolve lowerCaseRanges strings_Title sort_long order fuel result
    ([] ++ order_keys order (map fst (map_to_list ms))) ∅ [] = Some (Returned out) ->
  NoDup (map Name out)
  /\ (forall T, In T (map Name out) -> visit_ok result T)
  /\ (forall T, In T (map Name out) <-> reach result (map fst (map_to_list ms)) T).
Proof.
  intros [Hkeys Hentries] H.
  destruct (resolve_names _ _ _ _ _ _ _ H) as (svcs' & E' & Hnd & _).
  apply resolve_closure in H
    as (visited & svcs & E & Hn & Hq & Hc & Hr & Hok & _); [|exact Hentries].
  cbn [app] in E, E'. subst out. subst svcs'. rewrite Hn in *.
  split; [exact Hnd|]. split; [exact Hok|].
  intros T. split.
  - intros HT. apply reach_roots with (order_keys order (map fst (map_to_list ms))).
    + intros U HU. apply list_elem_of_In. rewrite <- (Hkeys _).
      now apply list_elem_of_In.
    + now apply Hr.
  - induction 1 as [T HT|U T _ IH HT].
    + destruct (Hq T) as [HC|HV]; [|now apply not_elem_of_empty in HC|exact HV].
      cbn [app]. apply list_elem_of_In. rewrite (Hkeys _).
      now apply list_elem_of_In.
    + destruct (Hc U T IH HT) as [HC|HV]; [now apply not_elem_of_empty in HC|exact HV].
Qed.

(** X4.  When [init] returns, [AllApiServices] holds one service for each
    type that is a key of [MainServices] or that the properties of such a
    type refer to, directly or through other types, and no other
    service. *)
Theorem init_services_are_the_reachable_types order fuel ms result out :
  visits_each_once order ->
  init lowerCaseRanges strings_Title sort_long order fuel ms result
  = Some (Returned out) ->
  NoDup (map Name out)
  /\ forall typeName,
       In typeName (map Name out)
       <-> reach result (map fst (map_to_list ms)) typeName.
Proof.
  intros Ho. unfold init, populateApiServices.
  destruct (resolve _ _ _ _ _ _ _ _ _) as [[all|]|] eqn:H; try discriminate.
  intros [= <-]. apply init_visited in H as (Hnd & _ & Hreach); [|exact Ho].
  destruct (sort_Slice_sorts sort_long sort_long_sorts all) as [Hp _].
  split; [now rewrite Hp|].
  intros T. rewrite <- Hreach, <- !list_elem_of_In. now rewrite Hp.
Qed.

(** X5.  Every service of the list that [init] returns has the variable
    name that [createVarName] makes of its name, and one field for each
    property of the schema of its type: the field that the loop body makes
    of the property. *)
Theorem init_services_have_a_field_per_property order fuel ms result out :
  visits_each_once order ->
  init lowerCaseRanges strings_Title sort_long order fuel ms result
  = Some (Returned out) ->
  Forall (fun apiService =>
            VarName apiService = createVarName lowerCaseRanges (Name apiService)
            /\ Fields apiService
               ≡ₚ map (property_field strings_Title)
                    (listed_properties result (Name apiService))
            /\ map JsonName (Fields apiService)
               ≡ₚ map fst (listed_properties result (Name apiService))
            /\ Forall (fun field =>
                         Name field = strings_Title (JsonName field)
                         /\ VarName field = "" /\ Fields field = [])
                 (Fields apiService))
         out.
Proof.
  intros [_ Hentries]. unfold init, populateApiServices.
  destruct (resolve _ _ _ _ _ _ _ _ _) as [[all|]|] eqn:H; try discriminate.
  intros [= <-]. apply resolve_shape in H as (svcs & -> & Hs); [|exact Hentries].
  destruct (sort_Slice_sorts sort_long sort_long_sorts ([] ++ svcs)) as [Hp _].
  rewrite Hp. cbn [app]. eapply Forall_impl; [exact Hs|].
  intros svc (_ & _ & _ & Hvar & Hfields). split; [exact Hvar|].
  split; [exact Hfields|]. split.
  - rewrite Hfields, map_map.
    assert (E : forall l : list (string * json),
               map (fun x => JsonName (property_field strings_Title x)) l
               = map fst l).
    { induction l as [|[prop val] l IH]; [reflexivity|].
      cbn [map]. rewrite IH. f_equal. unfold property_field.
      now destruct (getGoType _ _) as [[[[t f] o] e]|]. }
    now rewrite E.
  - rewrite Hfields. apply Forall_map, Forall_forall. intros [prop val] _.
    unfold property_field. now destruct (getGoType _ _) as [[[[t f] o] e]|].
Qed.


Lemma resolve_more_fuel order fuel fuel' result Q C all r :
  fuel <= fuel' ->
  resolve lowerCaseRanges strings_Title sort_long order fuel result Q C all
  = Some r ->
  resolve lowerCaseRanges strings_Title sort_long order fuel' result Q C all
  = Some r.
Proof.
  revert fuel' Q C all. induction fuel as [|fuel IH]; intros fuel' Q C all Hle;
    [discriminate|].
  destruct fuel' as [|fuel']; [lia|]. cbn [resolve].
  destruct Q as [|T Q]; [trivial|].
  destruct (decide (T ∈ C)); [apply IH; lia|].
  destruct (visit _ _ _ _ _ _ _) as [[svc Q']|]; [apply IH; lia | trivial].
Qed.

Lemma init_more_fuel order fuel fuel' ms result r :
  fuel <= fuel' ->
  init lowerCaseRanges strings_Title sort_long order fuel ms result = Some r ->
  init lowerCaseRanges strings_Title sort_long order fuel' ms result = Some r.
Proof.
  intros Hle. unfold init, populateApiServices.
  destruct (resolve _ _ _ _ fuel _ _ _ _) as [r0|] eqn:H; [|discriminate].
  now rewrite (resolve_more_fuel _ _ _ _ _ _ _ _ Hle H).
Qed.

(** X7.  The search ends, whatever the document is, references in a circle
    included: there is one result, a list or a panic, that [init] gives
    with every fuel from [enough_fuel] on, and a run with less fuel that
    ends gives the same. *)
Theorem init_terminates order ms result :
  visits_each_once order ->
  exists r,
    (forall fuel,
       enough_fuel ms result <= fuel ->
       init lowerCaseRanges strings_Title sort_long order fuel ms result = Some r)
    /\ (forall fuel r',
          init lowerCaseRanges strings_Title sort_long order fuel ms result
          = Some r' ->
          r' = r).
Proof.
  intros Ho.
  pose proof (init_enough_fuel order (enough_fuel ms result) ms result Ho
                (Nat.le_refl _)) as Hsome.
  destruct (init _ _ _ order (enough_fuel ms result) ms result) as [r|] eqn:E;
    [|now destruct Hsome].
  exists r. split.
  - intros fuel Hle. exact (init_more_fuel _ _ _ _ _ _ Hle E).
  - intros fuel r' E'.
    pose proof (init_more_fuel _ _ _ _ _ _
                  (Nat.le_max_l fuel (enough_fuel ms result)) E') as H1.
    pose proof (init_more_fuel _ _ _ _ _ _
                  (Nat.le_max_r fuel (enough_fuel ms result)) E) as H2.
    congruence.
Qed.

Lemma resolve_append order fuel result Q C all :
  resolve lowerCaseRanges strings_Title sort_long order fuel result Q C all
  = match resolve lowerCaseRanges strings_Title sort_long order fuel result Q C []
    with
    | Some (Returned svcs) => Some (Returned (all ++ svcs))
    | other => other
    end.
Proof.
  revert Q C all. induction fuel as [|fuel IH]; intros Q C all; cbn [resolve];
    [reflexivity|].
  destruct Q as [|T Q]; [now rewrite app_nil_r|].
  destruct (decide (T ∈ C)); [apply IH|].
  destruct (visit _ _ _ _ _ _ _) as [[svc Q']|]; [|reflexivity].
  rewrite (IH Q' _ (all ++ [svc])), (IH Q' _ ([] ++ [svc])).
  destruct (resolve _ _ _ _ _ _ _ _ []) as [[svcs|]|]; try reflexivity.
  now rewrite <- app_assoc.
Qed.

(** X8.  [populateApiServices] appends to what [AllApiServices] holds when
    it is called and sorts the whole: it returns the services that were
    there together with those that [init] returns, so that a second call
    doubles every service; and it panics when [init] does. *)
Theorem populateApiServices_keeps_earlier_services order fuel ms result
    AllApiServices :
  (forall fresh,
     init lowerCaseRanges strings_Title sort_long order fuel ms result
     = Some (Returned fresh) ->
     exists out,
       populateApiServices lowerCaseRanges strings_Title sort_long order fuel ms
         result AllApiServices = Some (Returned out)
       /\ out ≡ₚ AllApiServices ++ fresh)
  /\ (forall out,
        populateApiServices lowerCaseRanges strings_Title sort_long order fuel ms
          result AllApiServices = Some (Returned out) ->
        exists fresh,
          init lowerCaseRanges strings_Title sort_long order fuel ms result
          = Some (Returned fresh)
          /\ out ≡ₚ AllApiServices ++ fresh)
  /\ (forall msg,
        populateApiServices lowerCaseRanges strings_Title sort_long order fuel ms
          result AllApiServices = Some (Panicked msg)
        <-> init lowerCaseRanges strings_Title sort_long order fuel ms result
            = Some (Panicked msg)).
Proof.
  pose proof (sort_Slice_sorts sort_long sort_long_sorts) as Hsort.
  unfold init, populateApiServices. rewrite (resolve_append _ _ _ _ _ AllApiServices).
  destruct (resolve _ _ _ _ _ _ _ _ []) as [[svcs|msg']|].
  - assert (Hp : sort_Slice_by_Name sort_long (AllApiServices ++ svcs)
                 ≡ₚ AllApiServices ++ sort_Slice_by_Name sort_long svcs).
    { rewrite (proj1 (Hsort _)), (proj1 (Hsort svcs)). reflexivity. }
    repeat apply conj.
    + intros fresh [= <-]. eauto.
    + intros out [= <-]. eauto.
    + intros msg. split; discriminate.
  - repeat apply conj; try discriminate. intros msg. reflexivity.
  - repeat apply conj; try discriminate. intros msg. reflexivity.
Qed.

End PopulateFacts.

(** * The statements at work on the examples *)

Section Witnesses.
Import utils.

Lemma GetCloudProviderName_iff_IsMainService_witness :
  meta.GetCloudProviderName
    (meta.service_of meta.ascii_only_case_table meta.ascii_Title
       (meta.insertionSort meta.less_Name) example.compute_api "BackendService")
  = Returned "BackendServices".
Proof.
  apply (proj1 (GetCloudProviderName_iff_IsMainService meta.MainServices _)).
  vm_compute. reflexivity.
Defined.

Lemma Shutdown_waits_for_worker_witness :
  let s := exec example.shutdown_during_sync (example.booted example.sync_ok) in
  stopper s = ShutdownReturned
  /\ worker s = Exited /\ workerDone (tq s) = ChanClosed
  /\ sync_in_progress (events s) = None.
Proof.
  intros s.
  assert (Hs : stopper s = ShutdownReturned) by (vm_compute; reflexivity).
  destruct (Shutdown_waits_for_worker (package_init example.KeyFunc)
              "" "ingresses" example.sync_ok workqueue.DefaultControllerRateLimiter
              [] example.shutdown_during_sync) as (_ & _ & _ & H & _).
  destruct (H Hs) as (H1 & H2 & H3 & _).
  split; [exact Hs|]. split; [exact H1|]. split; [exact H2 | exact H3].
Defined.

Lemma Run_requeues_failed_key_witness :
  let s := exec example.first_sync (example.booted example.sync_alternating) in
  worker s = AtRequeue "ns/foo" (Some "try again")
  /\ events (step Worker (step Worker s))
     = events s ++ [EvAddRateLimited "ns/foo"; EvDone "ns/foo"].
Proof.
  intros s.
  assert (Hpc : worker s = AtRequeue "ns/foo" (Some "try again"))
    by (vm_compute; reflexivity).
  destruct (Run_requeues_failed_key (package_init example.KeyFunc)
              "" "ingresses" example.sync_alternating
              workqueue.DefaultControllerRateLimiter [] example.first_sync)
    as (_ & H & _).
  destruct (H _ _ Hpc) as (_ & _ & _ & _ & H5 & _).
  split; [exact Hpc | exact H5].
Defined.

Lemma Run_forgets_synced_key_witness :
  let s := exec example.first_sync (example.booted example.sync_ok) in
  worker s = AtRequeue "ns/foo" None
  /\ events (step Worker (step Worker s))
     = events s ++ [EvForget "ns/foo"; EvDone "ns/foo"].
Proof.
  intros s.
  assert (Hpc : worker s = AtRequeue "ns/foo" None) by (vm_compute; reflexivity).
  destruct (Run_forgets_synced_key (package_init example.KeyFunc)
              "" "ingresses" example.sync_ok
              workqueue.DefaultControllerRateLimiter [] example.first_sync)
    as (_ & H).
  destruct (H _ Hpc) as (_ & _ & _ & _ & H5 & _).
  split; [exact Hpc | exact H5].
Defined.

Lemma Enqueue_same_key_one_Sync_witness :
  example.KeyFunc example.foo = ("ns/foo", None)
  /\ sync_calls
       (events (exec (Producer [example.foo; example.foo] :: repeat Worker (5 + 2))
                  (launch (package_init example.KeyFunc) "" "ingresses"
                     example.sync_alternating
                     workqueue.DefaultControllerRateLimiter []))) = ["ns/foo"].
Proof.
  split; [reflexivity|].
  destruct (Enqueue_same_key_one_Sync (package_init example.KeyFunc)
              "" "ingresses" example.sync_alternating
              workqueue.DefaultControllerRateLimiter []) as (_ & _ & H).
  exact (proj1 (H example.foo example.foo "ns/foo" 2%nat eq_refl eq_refl)).
Defined.

Lemma limiter_reset_on_success_witness :
  let s := exec example.fail_succeed_fail
             (example.booted example.sync_alternating) in
  events s
  = firstn 8 (events s) ++ EvSyncEnd "ns/foo" None
      :: firstn 5 (skipn 9 (events s)) ++ EvSyncEnd "ns/foo" (Some "try again") :: []
  /\ workqueue.scheduled (queue (tq (step Worker s)))
     = workqueue.scheduled (queue (tq s)) ++ [("ns/foo", 5%N)].
Proof.
  intros s.
  assert (He : events s
               = firstn 8 (events s) ++ EvSyncEnd "ns/foo" None
                   :: firstn 5 (skipn 9 (events s))
                   ++ EvSyncEnd "ns/foo" (Some "try again") :: [])
    by (vm_compute; reflexivity).
  split; [exact He|].
  destruct (limiter_reset_on_success (package_init example.KeyFunc)
              "" "ingresses" example.sync_alternating
              workqueue.DefaultControllerRateLimiter []
              example.fail_succeed_fail "ns/foo") as (_ & _ & _ & _ & H).
  apply (H _ _ _ _ He).
  - vm_compute. repeat constructor; discriminate.
  - reflexivity.
Defined.

Lemma keyFunc_is_chosen_at_construction_witness :
  let f := fun _ : example.object => ("other", None) in
  let s := exec [AssignKeyFunc f] (example.booted example.sync_ok) in
  KeyFunc (pkg s) = f
  /\ events (Enqueue [example.foo] s) = events s ++ [EvAdd "ns/foo"].
Proof.
  intros f s.
  destruct (keyFunc_is_chosen_at_construction example.KeyFunc
              (package_init example.KeyFunc) "" "ingresses" example.sync_ok
              workqueue.DefaultControllerRateLimiter [] [AssignKeyFunc f])
    as (_ & _ & _ & _ & _ & H).
  split; [reflexivity|]. apply (H [example.foo]).
Defined.

Lemma HasUpdate_of_main_services_witness :
  meta.HasUpdate
    (meta.service_of meta.ascii_only_case_table meta.ascii_Title
       (meta.insertionSort meta.less_Name) example.compute_api "BackendService")
  = true.
Proof.
  apply (proj2 (HasUpdate_of_main_services _)). vm_compute. reflexivity.
Defined.

Lemma Enqueue_stops_at_first_failure_witness :
  let s := example.booted example.sync_ok in
  let a := example.Named "ns" "a" in
  let b := example.Named "ns" "b" in
  events (Enqueue ([a] ++ example.Keyless :: [b]) s) = events s ++ [EvAdd "ns/a"]
  /\ klog (Enqueue ([a] ++ example.Keyless :: [b]) s)
     = klog s ++ ["Couldn't get key for object: object has no meta"].
Proof.
  intros s a b.
  destruct (Enqueue_stops_at_first_failure s [a] example.Keyless [b]
              "" "object has no meta") as (_ & H2 & _ & H4).
  - repeat constructor.
  - reflexivity.
  - split; [exact H2 | exact H4].
Defined.

Lemma Enqueue_all_at_once_or_one_by_one_witness :
  let s := example.booted example.sync_ok in
  let a := example.Named "ns" "a" in
  let b := example.Named "ns" "b" in
  Enqueue ([a] ++ [b]) s = Enqueue [b] (Enqueue [a] s)
  /\ events (Enqueue [a] s) = events s ++ [EvAdd "ns/a"]
  /\ klog (Enqueue [a] s) = klog s.
Proof.
  intros s a b.
  destruct (Enqueue_all_at_once_or_one_by_one s [a] [b]) as (H1 & _ & H3 & _ & H5).
  - repeat constructor.
  - split; [exact H1|]. split; [exact H3 | exact H5].
Defined.

Lemma Add_closed key q :
  workqueue.closed (workqueue.Add key q) = workqueue.closed q.
Proof. unfold workqueue.Add. now repeat case_decide. Qed.

Lemma Adds_closed {A} (f : A -> string) (l : list A) q :
  workqueue.closed (fold_left (fun q e => workqueue.Add (f e) q) l q)
  = workqueue.closed q.
Proof.
  revert q. induction l as [|e l IH]; intros q; [reflexivity|].
  cbn [fold_left]. now rewrite IH, Add_closed.
Qed.

(** The queue of the design keeps the contract of a shutdown: once closed,
    [Get] hands out no item. *)
Lemma workqueue_shutdown_contract :
  shutdown_contract (fun q => workqueue.closed q = true) (fun _ => 0).
Proof.
  split.
  - reflexivity.
  - intros key q Hq. change (workqueue.closed (workqueue.Add key q) = true).
    now rewrite Add_closed.
  - intros q Hq. change (workqueue.closed (workqueue.Elapse q) = true).
    unfold workqueue.Elapse. now rewrite Adds_closed.
  - intros key q Hq. split; [exact Hq | cbn; lia].
  - intros key q Hq. split; [exact Hq | cbn; lia].
  - intros key q Hq. split; [|cbn; lia].
    change (workqueue.closed (workqueue.Done key q) = true).
    unfold workqueue.Done. case_decide; exact Hq.
  - intros q Hq. change (Get q) with (workqueue.Get q).
    unfold workqueue.Get. rewrite Hq. split; [exact Hq | exact I].
Qed.

Lemma Shutdown_returns_when_the_worker_runs_witness :
  let s := exec example.waiting_for_worker (example.booted example.sync_ok) in
  let s' := exec (repeat Worker (5 * 0 + 6)) s in
  stopper s = AtWait /\ worker s = InSync "ns/foo"
  /\ worker s' = Exited /\ workerDone (tq s') = ChanClosed
  /\ stopper (step Stopper s') = ShutdownReturned.
Proof.
  intros s s'.
  assert (Hs : stopper s = AtWait) by (vm_compute; reflexivity).
  destruct (Shutdown_returns_when_the_worker_runs _ _ workqueue_shutdown_contract
              (package_init example.KeyFunc) "" "ingresses" example.sync_ok
              workqueue.DefaultControllerRateLimiter []
              example.waiting_for_worker Hs) as (_ & H1 & H2 & H3).
  split; [exact Hs|]. split; [vm_compute; reflexivity|].
  split; [exact H1|]. split; [exact H2 | exact H3].
Defined.

End Witnesses.

Section PopulateExamples.
Import meta.

Lemma as_listed_visits_each_once : visits_each_once as_listed.
Proof. split; intros; reflexivity. Qed.

Lemma backwards_visits_each_once : visits_each_once backwards.
Proof. split; intros; cbn; symmetry; apply Permutation_rev. Qed.

Lemma index_cons key k v m :
  index key ((k, v) :: m) = if String.eqb k key then Some v else index key m.
Proof. reflexivity. Qed.

Lemma compute_api_distinct_titles : distinct_titles ascii_Title example.compute_api.
Proof.
  intros typeName. unfold listed_properties, schema_properties.
  change (index "schemas" example.compute_api) with
    (Some (JObject
       [("Backend", JObject
           [("id", JString "Backend");
            ("properties", JObject
               [("group", JObject [("type", JString "string")]);
                ("balancingMode", JObject [("type", JString "string")]);
                ("maxRate", JObject
                   [("type", JString "integer"); ("format", JString "int32")])])]);
        ("BackendService", JObject
           [("id", JString "BackendService");
            ("properties", JObject
               [("name", JObject [("type", JString "string")]);
                ("backends", JObject
                   [("type", JString "array");
                    ("items", JObject [("$ref", JString "Backend")])]);
                ("id", JObject
                   [("type", JString "string"); ("format", JString "uint64")]);
                ("enableCDN", JObject [("type", JString "boolean")])])])])).
  cbv beta iota. rewrite !index_cons.
  destruct (String.eqb "Backend" typeName).
  - apply (bool_decide_unpack _). vm_compute. reflexivity.
  - destruct (String.eqb "BackendService" typeName).
    + apply (bool_decide_unpack _). vm_compute. reflexivity.
    + cbn. constructor.
Qed.

Lemma populateApiServices_sorted_witness :
  sorts_by_Name (insertionSort less_Name)
  /\ exists out1 out2,
       example.init as_listed example.compute_api = Some (Returned out1)
       /\ example.init backwards example.compute_api = Some (Returned out2)
       /\ out1 = out2 /\ increasing_by_Name out1
       /\ map Name out1 = ["Backend"; "BackendService"]
       /\ example.init backwards example.compute_api = Some (Returned out1).
Proof.
  split; [exact insertionSort_sorts|].
  destruct (populateApiServices_sorted ascii_only_case_table ascii_Title
              (insertionSort less_Name) insertionSort_sorts) as (_ & H2 & H3 & H4).
  eexists _, _.
  split; [vm_compute; reflexivity|]. split; [vm_compute; reflexivity|].
  split; [|split; [|split]].
  - apply (H3 as_listed backwards 10%nat 10%nat MainServices example.compute_api).
    + exact as_listed_visits_each_once.
    + exact backwards_visits_each_once.
    + exact compute_api_distinct_titles.
    + vm_compute; reflexivity.
    + vm_compute; reflexivity.
  - apply (H2 as_listed 10%nat MainServices example.compute_api).
    vm_compute; reflexivity.
  - reflexivity.
  - apply (H4 as_listed backwards 10%nat 10%nat MainServices example.compute_api).
    + exact as_listed_visits_each_once.
    + exact backwards_visits_each_once.
    + exact compute_api_distinct_titles.
    + vm_compute; reflexivity.
    + vm_compute. lia.
Defined.

(** C9.  The list that [init] returns is not the same for every order in
    which the maps are visited.  With two properties of a schema that get
    the same [Name], [kind] and [Kind], the sort by [Name] leaves the two
    fields in the order in which the map of the properties is visited:
    both orders give lists sorted by [Name], and the lists differ. *)
Lemma populateApiServices_order_dependent :
  visits_each_once as_listed /\ visits_each_once backwards
  /\ exists out1 out2,
       example.init as_listed example.twin_api = Some (Returned out1)
       /\ example.init backwards example.twin_api = Some (Returned out2)
       /\ sorted_by_Name out1 /\ sorted_by_Name out2
       /\ map (fun svc => map JsonName (Fields svc)) out1 = [["kind"; "Kind"]]
       /\ map (fun svc => map JsonName (Fields svc)) out2 = [["Kind"; "kind"]]
       /\ out1 <> out2.
Proof.
  split; [exact as_listed_visits_each_once|].
  split; [exact backwards_visits_each_once|].
  eexists _, _.
  split; [vm_compute; reflexivity|]. split; [vm_compute; reflexivity|].
  split; [repeat constructor|]. split; [repeat constructor|].
  split; [reflexivity|]. split; [reflexivity|].
  discriminate.
Qed.

Lemma getGoType_appends_at_most_one_witness :
  exists found,
    ["BackendService"; "Backend"] = ["BackendService"] ++ found
    /\ (found = []
        \/ exists prefix refName,
             found = [refName] /\ "[]*Backend" = (prefix ++ "*" ++ refName)%string)
    /\ forall q,
         getGoType example.backends_property q
         = Returned ("[]*Backend", q ++ found, false, None).
Proof.
  apply (getGoType_appends_at_most_one example.backends_property ["BackendService"]).
  reflexivity.
Defined.

Lemma getGoType_string_override_witness :
  getGoType (JObject example.id_property) [] = Returned ("uint64", [], true, None)
  /\ true = negb (String.eqb "uint64" "string").
Proof.
  assert (E : getGoType (JObject example.id_property) []
              = Returned ("uint64", [], true, None)) by reflexivity.
  split; [exact E|].
  apply (getGoType_string_override example.id_property [] "uint64" [] true None);
    [reflexivity | exact E].
Defined.

Lemma getGoType_error_only_for_empty_type_witness :
  (exists propType typesQueue' override err,
     getGoType example.array_of_empty_type ["BackendService"]
     = Returned (propType, typesQueue', override, Some err))
  /\ exists msg,
       getGoType (JObject example.untyped_property) ["BackendService"]
       = Panicked msg.
Proof.
  destruct getGoType_error_only_for_empty_type as [H1 H2]. split.
  - apply H1. exists [("type", JString "")].
    split; [|repeat split; reflexivity].
    eapply descends_items; [reflexivity | reflexivity | reflexivity | constructor].
  - apply (H2 _ example.untyped_property); [constructor | reflexivity | reflexivity |].
    intros str. vm_compute. discriminate.
Defined.

Lemma init_services_are_the_reachable_types_witness :
  exists out,
    example.init as_listed example.compute_api = Some (Returned out)
    /\ NoDup (map Name out)
    /\ forall typeName,
         In typeName (map Name out)
         <-> reach example.compute_api (map fst (map_to_list MainServices)) typeName.
Proof.
  eexists. split; [vm_compute; reflexivity|].
  apply (init_services_are_the_reachable_types ascii_only_case_table ascii_Title
           (insertionSort less_Name) insertionSort_sorts as_listed 10%nat
           MainServices example.compute_api).
  - exact as_listed_visits_each_once.
  - vm_compute; reflexivity.
Defined.

Lemma init_services_have_a_field_per_property_witness :
  exists out,
    example.init backwards example.compute_api = Some (Returned out)
    /\ Forall (fun apiService =>
                 VarName apiService
                 = createVarName ascii_only_case_table (Name apiService)
                 /\ Fields apiService
                    ≡ₚ map (property_field ascii_Title)
                         (listed_properties example.compute_api (Name apiService))
                 /\ map JsonName (Fields apiService)
                    ≡ₚ map fst
                         (listed_properties example.compute_api (Name apiService))
                 /\ Forall (fun field =>
                              Name field = ascii_Title (JsonName field)
                              /\ VarName field = "" /\ Fields field = [])
                      (Fields apiService))
         out.
Proof.
  eexists. split; [vm_compute; reflexivity|].
  apply (init_services_have_a_field_per_property ascii_only_case_table ascii_Title
           (insertionSort less_Name) insertionSort_sorts backwards 10%nat
           MainServices example.compute_api).
  - exact backwards_visits_each_once.
  - vm_compute; reflexivity.
Defined.


Lemma init_terminates_witness :
  exists r,
    (forall fuel,
       enough_fuel MainServices example.compute_api <= fuel ->
       init ascii_only_case_table ascii_Title (insertionSort less_Name) backwards
         fuel MainServices example.compute_api = Some r)
    /\ (forall fuel r',
          init ascii_only_case_table ascii_Title (insertionSort less_Name) backwards
            fuel MainServices example.compute_api = Some r' ->
          r' = r).
Proof.
  apply (init_terminates ascii_only_case_table ascii_Title
           (insertionSort less_Name) insertionSort_sorts backwards).
  exact backwards_visits_each_once.
Defined.

Lemma populateApiServices_keeps_earlier_services_witness :
  exists fresh out,
    example.init as_listed example.compute_api = Some (Returned fresh)
    /\ populateApiServices ascii_only_case_table ascii_Title
         (insertionSort less_Name) as_listed 10 MainServices example.compute_api
         fresh = Some (Returned out)
    /\ out ≡ₚ fresh ++ fresh.
Proof.
  destruct (example.init as_listed example.compute_api) as [[fresh|msg]|] eqn:E;
    [|vm_compute in E; discriminate..].
  exists fresh.
  destruct (populateApiServices_keeps_earlier_services ascii_only_case_table
              ascii_Title (insertionSort less_Name) insertionSort_sorts as_listed
              10%nat MainServices example.compute_api fresh) as (H & _).
  destruct (H fresh E) as (out & Hout & Hp).
  exists out. split; [reflexivity|]. split; [exact Hout | exact Hp].
Defined.

Lemma createVarName_ascii_witness :
  createVarName (fun r => (r + 1)%Z) "BackendService" = "backendService".
Proof.
  apply (createVarName_ascii (fun r => (r + 1)%Z) "B" "ackendService").
  vm_compute. repeat constructor.
Defined.

Lemma createVarName_is_valid_utf8_witness :
  valid_utf8 (createVarName ascii_only_case_table example.ill_formed_name)
  /\ createVarName ascii_only_case_table example.ill_formed_name
     <> example.ill_formed_name.
Proof.
  destruct (createVarName_is_valid_utf8 ascii_only_case_table
              ascii_only_ToLower_valid example.ill_formed_name) as (H1 & H2 & _).
  split; [exact H1|]. apply H2. unfold valid_utf8. vm_compute. discriminate.
Defined.

End PopulateExamples.
